(** * Phineas: the outbound-call resilience layer

    A shallow embedding of [phineas/tools/crypto/rate_limiter.py] and
    [phineas/tools/crypto/cache.py]:

    - [TokenBucket]    : the token-bucket counter;
    - [RateLimiter]    : per-service buckets, backoff deadlines and waiter gates;
    - [TTLCache]       : the LRU cache with per-entry expiry;
    - [CryptoAPICache] : cache-key derivation on top of [TTLCache];
    - [Locks]          : the locks one thread holds in [get_stats];
    - [Api], [Validators], [Tools] : the input checks and the response
      size limit of [api.py] and [validators.py], and the endpoints the
      tools build.

    Modelling conventions.
    - Python [float] timestamps, rates and token levels are exact rationals
      ([Q]); comparisons are the boolean ones the code executes.
    - Python [int] is [Z].
    - [time.time()] reads a simulated clock.  Inside the rate limiter the
      clock is part of the state and only [time.sleep] advances it; the
      bucket and the cache operations take the reading as their argument
      [now].
    - A [dict] keyed by service name is a [gmap string _]; the [OrderedDict]
      of the cache and the [dict] arguments whose iteration order the code
      observes are association lists.
    - Exceptions are values of [exn]; code that can raise returns a [result].
    - Outside [Locks], locks are not modelled: every method body runs
      atomically.
    - A [str] is the [string] of its UTF-8 bytes.  The patterns the code
      looks for are ASCII, so that finding one in the bytes is finding it
      in the characters; the strings the validators accept are ASCII, where
      [len] is the number of bytes, and on any other string both the code
      and the model raise [ValueError]. *)

From Stdlib Require Import QArith Qminmax Qround Qabs Qpower Lqa ZArith Lia.
From Stdlib Require Import Ascii DecimalString DecimalPos DecimalZ.
From stdpp Require Import gmap strings list sorting.

Open Scope Q_scope.

(** ** Python primitives *)

Inductive exn : Type :=
| ValueError
| KeyError
| ZeroDivisionError.

Inductive result (A : Type) : Type :=
| Ok (a : A)
| Raise (e : exn).
Arguments Ok {A} a.
Arguments Raise {A} e.

(** [a < b] and [a <= b] on floats, as booleans. *)
Definition Qltb (a b : Q) : bool := negb (Qle_bool b a).
Definition Qleb (a b : Q) : bool := Qle_bool a b.

(** [min(a, b)]: the first argument unless the second is strictly smaller. *)
Definition py_min (a b : Q) : Q := if Qltb b a then b else a.

(** [max(a, b)]: the first argument unless the second is strictly larger. *)
Definition py_max (a b : Q) : Q := if Qltb a b then b else a.

(** ** rate_limiter.py: class TokenBucket *)

Module TokenBucket.

Record t : Type := mk {
  rate : Q;
  capacity : Q;
  tokens : Q;
  last_update : Q
}.

(** [__init__(rate, capacity)]; [now] is the reading of [time.time()]. *)
Definition init (rate capacity now : Q) : t :=
  {| rate := rate; capacity := capacity;
     tokens := capacity; last_update := now |}.

(** [consume(tokens=n)] at clock reading [now]: the returned flag and the
    bucket after the call. *)
Definition consume (now : Q) (n : Z) (b : t) : bool * t :=
  let elapsed := now - last_update b in
  let level := py_min (capacity b) (tokens b + elapsed * rate b) in
  if Qleb (inject_Z n) level
  then (true,
        {| rate := rate b; capacity := capacity b;
           tokens := level - inject_Z n; last_update := now |})
  else (false,
        {| rate := rate b; capacity := capacity b;
           tokens := level; last_update := now |}).

(** [wait_time()]; the division raises on a zero rate. *)
Definition wait_time (b : t) : result Q :=
  if Qleb 1 (tokens b) then Ok 0
  else if Qeq_bool (rate b) 0 then Raise ZeroDivisionError
  else Ok ((1 - tokens b) / rate b).

(** The refill part of [consume] alone: what the specification calls the
    refill update. *)
Definition refill (now : Q) (b : t) : t :=
  {| rate := rate b; capacity := capacity b;
     tokens := py_min (capacity b)
                      (tokens b + (now - last_update b) * rate b);
     last_update := now |}.

(** The buckets a caller can observe: a fresh bucket, then any number of
    [consume] calls, each at a clock reading not before the previous one.
    [P] restricts the amounts asked for. *)
Inductive reachable (P : Z -> Prop) (b0 : t) : t -> Prop :=
  | reach_init : reachable P b0 b0
  | reach_consume (b : t) (now : Q) (n : Z) :
      reachable P b0 b ->
      last_update b <= now ->
      P n ->
      reachable P b0 (snd (consume now n b)).

(** A series of [consume] calls, each with its clock reading and its
    amount: the total amount granted and the bucket after the last call. *)
Fixpoint consume_all (calls : list (Q * Z)) (b : t) : Z * t :=
  match calls with
  | [] => (0%Z, b)
  | (now, n) :: rest =>
      let '(got, b') := consume now n b in
      let '(total, b'') := consume_all rest b' in
      ((if got then n + total else total)%Z, b'')
  end.

(** The clock readings of [calls] do not go back, starting at [from]. *)
Fixpoint in_order (from : Q) (calls : list (Q * Z)) : Prop :=
  match calls with
  | [] => True
  | (now, _) :: rest => from <= now /\ in_order now rest
  end.

End TokenBucket.

(** ** rate_limiter.py: class RateLimiter *)

Module RateLimiter.

(** The values a caller can put in the [limits] dict. *)
Inductive pyval : Type :=
  | PyInt (z : Z)
  | PyFloat (q : Q)
  | PyBool (b : bool)
  | PyStr (s : string)
  | PyNone.

(** [isinstance(v, (int, float))]; [bool] is a subclass of [int]. *)
Definition is_numeric (v : pyval) : bool :=
  match v with
  | PyInt _ | PyFloat _ | PyBool _ => true
  | PyStr _ | PyNone => false
  end.

(** The number a numeric value stands for in comparisons and divisions. *)
Definition as_number (v : pyval) : Q :=
  match v with
  | PyInt z => inject_Z z
  | PyFloat q => q
  | PyBool true => 1
  | PyBool false => 0
  | PyStr _ | PyNone => 0
  end.

Definition API_LIMITS : list (string * pyval) :=
  [("coingecko", PyInt 30); ("coindesk", PyInt 50);
   ("kraken", PyInt 15); ("coinbase", PyInt 10)].

Definition MAX_WAITERS_PER_API : Z := 100.
Definition MIN_SLEEP : Q := 1 # 100.
Definition MAX_TIMEOUT : Q := 300.

(** The limiter object.  A [threading.Semaphore] is its counter of free
    slots. *)
Record t : Type := mk {
  limits : list (string * pyval);
  buckets : gmap string TokenBucket.t;
  backoff_until : gmap string Q;
  waiters : gmap string Z
}.

Definition with_buckets (rl : t) (m : gmap string TokenBucket.t) : t :=
  {| limits := limits rl; buckets := m;
     backoff_until := backoff_until rl; waiters := waiters rl |}.

Definition with_backoff_until (rl : t) (m : gmap string Q) : t :=
  {| limits := limits rl; buckets := buckets rl;
     backoff_until := m; waiters := waiters rl |}.

Definition with_waiters (rl : t) (m : gmap string Z) : t :=
  {| limits := limits rl; buckets := buckets rl;
     backoff_until := backoff_until rl; waiters := m |}.

(** The first loop of [__init__]. *)
Fixpoint validate (items : list (string * pyval)) : result unit :=
  match items with
  | [] => Ok tt
  | (_, rpm) :: rest =>
      if negb (is_numeric rpm) then Raise ValueError
      else if Qleb (as_number rpm) 0 then Raise ValueError
      else if Qltb 10000 (as_number rpm) then Raise ValueError
      else validate rest
  end.

(** What the first loop of [__init__] requires of one value. *)
Definition valid_rpm (rpm : pyval) : Prop :=
  is_numeric rpm = true /\ 0 < as_number rpm /\ as_number rpm <= 10000.

(** One round of the second loop of [__init__]. *)
Definition add_service (now : Q) (rl : t) (item : string * pyval) : t :=
  let '(api_name, rpm) := item in
  let rate := as_number rpm / 60 in
  let capacity := py_min 5 (as_number rpm / 12) in
  {| limits := limits rl;
     buckets := <[api_name := TokenBucket.init rate capacity now]> (buckets rl);
     backoff_until := <[api_name := 0]> (backoff_until rl);
     waiters := <[api_name := MAX_WAITERS_PER_API]> (waiters rl) |}.

(** [limits or self.API_LIMITS]: [None] and the empty dict are falsy. *)
Definition effective_limits (limits : option (list (string * pyval)))
  : list (string * pyval) :=
  match limits with
  | None | Some [] => API_LIMITS
  | Some l => l
  end.

(** [__init__(limits)] at clock reading [now]. *)
Definition init (limits : option (list (string * pyval))) (now : Q)
  : result t :=
  let l := effective_limits limits in
  match validate l with
  | Raise e => Raise e
  | Ok _ =>
      Ok (fold_left (add_service now) l
            {| limits := l; buckets := ∅;
               backoff_until := ∅; waiters := ∅ |})
  end.

(** *** The limiter's world: the object and the simulated clock *)

Record world : Type := mkWorld {
  clock : Q;
  limiter : t
}.

(** A computation reads and updates the world and returns a value or
    raises; [None] means the fuel of a loop ran out. *)
Definition M (A : Type) : Type := world -> option (result A * world).

Definition ret {A} (a : A) : M A := fun w => Some (Ok a, w).
Definition out_of_fuel {A} : M A := fun _ => None.
Definition bind {A B} (m : M A) (k : A -> M B) : M B :=
  fun w =>
    match m w with
    | None => None
    | Some (Raise e, w') => Some (Raise e, w')
    | Some (Ok a, w') => k a w'
    end.

(** [try: body finally: fin]. *)
Definition try_finally {A} (body : M A) (fin : M unit) : M A :=
  fun w =>
    match body w with
    | None => None
    | Some (r, w') =>
        match fin w' with
        | None => None
        | Some (Raise e, w'') => Some (Raise e, w'')
        | Some (Ok _, w'') => Some (r, w'')
        end
    end.

Declare Scope limiter_scope.
Delimit Scope limiter_scope with limiter.
Notation "x <- m ;; k" := (bind m (fun x => k))
  (at level 100, m at next level, right associativity) : limiter_scope.
Notation "m ;;; k" := (bind m (fun _ => k))
  (at level 100, right associativity) : limiter_scope.
Local Open Scope limiter_scope.

Definition set_limiter (rl : t) : M unit :=
  fun w => Some (Ok tt, {| clock := clock w; limiter := rl |}).

(** [time.time()]. *)
Definition time_time : M Q := fun w => Some (Ok (clock w), w).

(** [time.sleep(d)]: a negative duration raises, otherwise time passes. *)
Definition sleep (d : Q) : M unit :=
  fun w =>
    if Qltb d 0 then Some (Raise ValueError, w)
    else Some (Ok tt, {| clock := clock w + d; limiter := limiter w |}).

(** [self.backoff_until.get(api_name, 0.0)]. *)
Definition get_backoff (api_name : string) : M Q :=
  fun w => Some (Ok (default 0 (backoff_until (limiter w) !! api_name)), w).

(** [self.backoff_until[api_name] = deadline]. *)
Definition set_backoff (api_name : string) (deadline : Q) : M unit :=
  fun w =>
    set_limiter
      (with_backoff_until (limiter w)
         (<[api_name := deadline]> (backoff_until (limiter w)))) w.

(** [self.waiters[api_name].acquire(blocking=False)]: take a slot if the
    counter is not zero. *)
Definition sem_try_acquire (api_name : string) : M bool :=
  fun w =>
    let rl := limiter w in
    match waiters rl !! api_name with
    | None => Some (Raise KeyError, w)
    | Some v =>
        if (v =? 0)%Z then Some (Ok false, w)
        else (set_limiter
                (with_waiters rl (<[api_name := (v - 1)%Z]> (waiters rl))) ;;;
              ret true) w
    end.

(** [self.waiters[api_name].release()]. *)
Definition sem_release (api_name : string) : M unit :=
  fun w =>
    let rl := limiter w in
    match waiters rl !! api_name with
    | None => Some (Raise KeyError, w)
    | Some v =>
        set_limiter
          (with_waiters rl (<[api_name := (v + 1)%Z]> (waiters rl))) w
    end.

(** [bucket.consume()] on the bucket object of [api_name]. *)
Definition bucket_consume (api_name : string) : M bool :=
  fun w =>
    let rl := limiter w in
    match buckets rl !! api_name with
    | None => Some (Raise KeyError, w)
    | Some b =>
        let '(got, b') := TokenBucket.consume (clock w) 1 b in
        (set_limiter
           (with_buckets rl (<[api_name := b']> (buckets rl))) ;;;
         ret got) w
    end.

(** [bucket.wait_time()] on the bucket object of [api_name]. *)
Definition bucket_wait_time (api_name : string) : M Q :=
  fun w =>
    match buckets (limiter w) !! api_name with
    | None => Some (Raise KeyError, w)
    | Some b =>
        match TokenBucket.wait_time b with
        | Ok d => Some (Ok d, w)
        | Raise e => Some (Raise e, w)
        end
    end.

(** The [while True] loop of [acquire]. *)
Fixpoint poll (fuel : nat) (api_name : string) (timeout start_time : Q)
  : M bool :=
  match fuel with
  | O => out_of_fuel
  | S fuel' =>
      got <- bucket_consume api_name ;;
      if got : bool then ret true
      else
        now <- time_time ;;
        let elapsed := now - start_time in
        if Qleb timeout elapsed then ret false
        else
          bw <- bucket_wait_time api_name ;;
          let wait_time := py_max MIN_SLEEP (py_min bw (timeout - elapsed)) in
          (if Qltb 0 wait_time then sleep wait_time else ret tt) ;;;
          poll fuel' api_name timeout start_time
  end.

(** The body of the [try] block of [acquire]. *)
Definition acquire_body (fuel : nat) (api_name : string) (timeout : Q)
  : M bool :=
  start_time <- time_time ;;
  backoff_time <- get_backoff api_name ;;
  now <- time_time ;;
  if Qltb now backoff_time then
    now' <- time_time ;;
    let wait_time := backoff_time - now' in
    if Qltb timeout wait_time then ret false
    else
      sleep wait_time ;;;
      poll fuel api_name timeout start_time
  else poll fuel api_name timeout start_time.

(** The timeout after the capping step of [acquire]. *)
Definition clamp_timeout (timeout : Q) : Q :=
  if Qltb MAX_TIMEOUT timeout then MAX_TIMEOUT else timeout.

(** [acquire(api_name, timeout)]. *)
Definition acquire (fuel : nat) (api_name : string) (timeout : Q) : M bool :=
  fun w =>
    match buckets (limiter w) !! api_name with
    | None => Some (Raise ValueError, w)
    | Some _ =>
        if Qltb timeout 0 then Some (Raise ValueError, w)
        else
          let timeout := clamp_timeout timeout in
          (ok <- sem_try_acquire api_name ;;
           if negb ok then ret false
           else try_finally (acquire_body fuel api_name timeout)
                            (sem_release api_name)) w
    end.

(** Rounds of the loop after which [acquire] has returned, whatever the
    timeout: the timeout is at most [MAX_TIMEOUT] = 30000 * [MIN_SLEEP]
    and every round that does not return sleeps [MIN_SLEEP] or more. *)
Definition poll_fuel : nat := Z.to_nat 30001.

(** [if retry_after:] on an [Optional[int]]: [None] and [0] are falsy. *)
Definition truthy (retry_after : option Z) : bool :=
  match retry_after with
  | None => false
  | Some z => negb (z =? 0)%Z
  end.

(** [report_rate_limit_error(api_name, retry_after)]. *)
Definition report_rate_limit_error (api_name : string)
    (retry_after : option Z) : M unit :=
  backoff_seconds <-
    (if truthy retry_after
     then ret (inject_Z (default 0%Z retry_after))
     else
       current_backoff <- get_backoff api_name ;;
       now <- time_time ;;
       if Qltb now current_backoff then
         now' <- time_time ;;
         let remaining := current_backoff - now' in
         ret (py_min (remaining * 2) 300)
       else ret 60) ;;
  now <- time_time ;;
  set_backoff api_name (now + backoff_seconds).

(** [reset_backoff(api_name)]. *)
Definition reset_backoff (api_name : string) : M unit :=
  set_backoff api_name 0.

(** The world after [self.backoff_until[api_name] = deadline]: nothing
    else changes. *)
Definition backoff_set (api_name : string) (deadline : Q) (w : world)
  : world :=
  {| clock := clock w;
     limiter := with_backoff_until (limiter w)
                  (<[api_name := deadline]> (backoff_until (limiter w))) |}.

(** The limiter [RateLimiter()] builds at clock reading [now], and the
    world that starts with it. *)
Definition default_limiter (now : Q) : t :=
  fold_left (add_service now) API_LIMITS
    {| limits := API_LIMITS; buckets := ∅;
       backoff_until := ∅; waiters := ∅ |}.

Definition default_world (now : Q) : world :=
  {| clock := now; limiter := default_limiter now |}.

(** What the token loop and the body of [acquire] can change between the
    world [w] they start in and the world [w'] they end in: the clock
    moves forward and the bucket of the service is replaced by one of the
    same rate.  [r] is the outcome: with a non-zero rate nothing raises. *)
Definition poll_post (api_name : string) (b : TokenBucket.t)
    (w w' : world) (r : result bool) : Prop :=
  waiters (limiter w') = waiters (limiter w) /\
  backoff_until (limiter w') = backoff_until (limiter w) /\
  limits (limiter w') = limits (limiter w) /\
  clock w <= clock w' /\
  (exists b', buckets (limiter w') = <[api_name := b']> (buckets (limiter w)) /\
              TokenBucket.rate b' = TokenBucket.rate b) /\
  (~ TokenBucket.rate b == 0 -> exists ok, r = Ok ok).

(** What the constructor guarantees about the object and every method
    keeps: each bucket has a non-zero rate and its own waiter gate. *)
Definition wf (rl : t) : Prop :=
  map_Forall
    (fun api_name b =>
       Qeq_bool (TokenBucket.rate b) 0 = false /\
       is_Some (waiters rl !! api_name))
    (buckets rl).

End RateLimiter.

(** ** rate_limiter.py: acquire under a running clock

    In [RateLimiter] the clock stands still between two readings that have
    no sleep between them.  Here time passes between them: [delays] lists,
    for the coming readings of [time.time()] in order, the time that
    passes before each; once the list is used up no more time passes, as
    in [RateLimiter].  Everything else is as in [RateLimiter]. *)

Module RunningClock.
Import RateLimiter.

Record world : Type := mkWorld {
  base : RateLimiter.world;
  delays : list Q
}.

Definition M (A : Type) : Type := world -> option (result A * world).

Definition ret {A} (a : A) : M A := fun w => Some (Ok a, w).
Definition out_of_fuel {A} : M A := fun _ => None.
Definition bind {A B} (m : M A) (k : A -> M B) : M B :=
  fun w =>
    match m w with
    | None => None
    | Some (Raise e, w') => Some (Raise e, w')
    | Some (Ok a, w') => k a w'
    end.

(** [try: body finally: fin]. *)
Definition try_finally {A} (body : M A) (fin : M unit) : M A :=
  fun w =>
    match body w with
    | None => None
    | Some (r, w') =>
        match fin w' with
        | None => None
        | Some (Raise e, w'') => Some (Raise e, w'')
        | Some (Ok _, w'') => Some (r, w'')
        end
    end.

(** A step of [RateLimiter]: no reading of the clock is pending in it. *)
Definition lift {A} (m : RateLimiter.M A) : M A :=
  fun w =>
    match m (base w) with
    | None => None
    | Some (r, b) => Some (r, {| base := b; delays := delays w |})
    end.

Declare Scope running_scope.
Delimit Scope running_scope with running.
Notation "x <- m ;; k" := (bind m (fun x => k))
  (at level 100, m at next level, right associativity) : running_scope.
Notation "m ;;; k" := (bind m (fun _ => k))
  (at level 100, right associativity) : running_scope.
Local Open Scope running_scope.

(** The world at the next reading of the clock. *)
Definition tick (w : world) : world :=
  match delays w with
  | [] => w
  | d :: rest =>
      {| base := {| clock := clock (base w) + d;
                    limiter := limiter (base w) |};
         delays := rest |}
  end.

(** [time.time()]. *)
Definition time_time : M Q :=
  fun w => let w' := tick w in Some (Ok (clock (base w')), w').

(** [bucket.consume()] on the bucket object of [api_name]: it reads the
    clock. *)
Definition bucket_consume (api_name : string) : M bool :=
  time_time ;;; lift (RateLimiter.bucket_consume api_name).

(** The [while True] loop of [acquire]. *)
Fixpoint poll (fuel : nat) (api_name : string) (timeout start_time : Q)
  : M bool :=
  match fuel with
  | O => out_of_fuel
  | S fuel' =>
      got <- bucket_consume api_name ;;
      if got : bool then ret true
      else
        now <- time_time ;;
        let elapsed := now - start_time in
        if Qleb timeout elapsed then ret false
        else
          bw <- lift (bucket_wait_time api_name) ;;
          let wait_time := py_max MIN_SLEEP (py_min bw (timeout - elapsed)) in
          (if Qltb 0 wait_time then lift (sleep wait_time) else ret tt) ;;;
          poll fuel' api_name timeout start_time
  end.

(** The body of the [try] block of [acquire]. *)
Definition acquire_body (fuel : nat) (api_name : string) (timeout : Q)
  : M bool :=
  start_time <- time_time ;;
  backoff_time <- lift (get_backoff api_name) ;;
  now <- time_time ;;
  if Qltb now backoff_time then
    now' <- time_time ;;
    let wait_time := backoff_time - now' in
    if Qltb timeout wait_time then ret false
    else
      lift (sleep wait_time) ;;;
      poll fuel api_name timeout start_time
  else poll fuel api_name timeout start_time.

(** [acquire(api_name, timeout)]. *)
Definition acquire (fuel : nat) (api_name : string) (timeout : Q) : M bool :=
  fun w =>
    match buckets (limiter (base w)) !! api_name with
    | None => Some (Raise ValueError, w)
    | Some _ =>
        if Qltb timeout 0 then Some (Raise ValueError, w)
        else
          let timeout := clamp_timeout timeout in
          (ok <- lift (sem_try_acquire api_name) ;;
           if negb ok then ret false
           else try_finally (acquire_body fuel api_name timeout)
                            (lift (sem_release api_name))) w
    end.

(** The backoff deadline of [api_name] lapses between the readings of the
    clock in [if backoff_time > time.time():] and in
    [wait_time = backoff_time - time.time()], the second and the third
    reading of a call of [acquire]. *)
Definition backoff_lapses (api_name : string) (w : world) : Prop :=
  let deadline := default 0 (backoff_until (limiter (base w)) !! api_name) in
  let w2 := tick (tick w) in
  clock (base w2) < deadline /\ deadline < clock (base (tick w2)).

End RunningClock.

(** ** cache.py: class TTLCache *)

Module TTLCache.

(** *** The [OrderedDict] operations the cache uses

    An [OrderedDict] is the list of its items, oldest first; its keys are
    pairwise distinct. *)
Section OrderedDict.
Context {E : Type}.

(** [d.get(key)]. *)
Fixpoint od_get (key : string) (d : list (string * E)) : option E :=
  match d with
  | [] => None
  | (k, e) :: d' => if decide (k = key) then Some e else od_get key d'
  end.

(** [key in d]. *)
Definition od_mem (key : string) (d : list (string * E)) : bool :=
  match od_get key d with Some _ => true | None => false end.

(** [del d[key]]; every [del] of the source is on a key that is
    present. *)
Fixpoint od_del (key : string) (d : list (string * E)) : list (string * E) :=
  match d with
  | [] => []
  | (k, e) :: d' =>
      if decide (k = key) then d' else (k, e) :: od_del key d'
  end.

(** [d.move_to_end(key)], on a key that is present. *)
Definition od_move_to_end (key : string) (d : list (string * E))
  : list (string * E) :=
  match od_get key d with
  | Some e => od_del key d ++ [(key, e)]
  | None => d
  end.

(** [d[key] = e]: a present key keeps its place, a new one goes last. *)
Fixpoint od_set (key : string) (e : E) (d : list (string * E))
  : list (string * E) :=
  match d with
  | [] => [(key, e)]
  | (k, e') :: d' =>
      if decide (k = key) then (k, e) :: d'
      else (k, e') :: od_set key e d'
  end.

(** [d.popitem(last=False)]; [None] stands for the [KeyError] on an
    empty dict. *)
Definition od_popitem_first (d : list (string * E))
  : option ((string * E) * list (string * E)) :=
  match d with
  | [] => None
  | x :: d' => Some (x, d')
  end.
End OrderedDict.

Definition MAX_TTL : Z := 86400 * 7.

Section Cache.
(** The type of the cached values. *)
Context {V : Type}.

Record t : Type := mk {
  max_size : Z;
  default_ttl : Z;
  cache : list (string * (V * Q));
  hits : Z;
  misses : Z;
  evictions : Z
}.

(** [__init__(max_size, default_ttl)]. *)
Definition init (max_size default_ttl : Z) : result t :=
  if (max_size <=? 0)%Z then Raise ValueError
  else if (default_ttl <? 0)%Z then Raise ValueError
  else if (MAX_TTL <? default_ttl)%Z then Raise ValueError
  else Ok {| max_size := max_size; default_ttl := default_ttl;
             cache := []; hits := 0; misses := 0; evictions := 0 |}.

Definition with_cache (c : t) (d : list (string * (V * Q))) : t :=
  {| max_size := max_size c; default_ttl := default_ttl c; cache := d;
     hits := hits c; misses := misses c; evictions := evictions c |}.

Definition add_hit (c : t) : t :=
  {| max_size := max_size c; default_ttl := default_ttl c;
     cache := cache c;
     hits := hits c + 1; misses := misses c; evictions := evictions c |}.

Definition add_miss (c : t) : t :=
  {| max_size := max_size c; default_ttl := default_ttl c;
     cache := cache c;
     hits := hits c; misses := misses c + 1; evictions := evictions c |}.

Definition add_eviction (c : t) : t :=
  {| max_size := max_size c; default_ttl := default_ttl c;
     cache := cache c;
     hits := hits c; misses := misses c; evictions := evictions c + 1 |}.

(** [_is_expired(expiry)]: [time.time() > expiry]. *)
Definition _is_expired (now expiry : Q) : bool := Qltb expiry now.

(** The test [now > expiry] of [_evict_expired] on one item. *)
Definition item_expired (now : Q) (item : string * (V * Q)) : bool :=
  Qltb (snd (snd item)) now.

(** [_evict_expired()]: collect the expired keys, then delete them one
    by one, counting an eviction each time. *)
Definition _evict_expired (now : Q) (c : t) : t :=
  let expired_keys := map fst (List.filter (item_expired now) (cache c)) in
  fold_left
    (fun c key => add_eviction (with_cache c (od_del key (cache c))))
    expired_keys c.

(** [_evict_lru()]. *)
Definition _evict_lru (c : t) : result t :=
  if (max_size c <=? Z.of_nat (length (cache c)))%Z then
    match od_popitem_first (cache c) with
    | None => Raise KeyError
    | Some (_, d') => Ok (add_eviction (with_cache c d'))
    end
  else Ok c.

(** [get(key)] at clock reading [now]: the returned value ([None] for
    Python's [None]) and the cache after the call. *)
Definition get (now : Q) (key : string) (c : t) : option V * t :=
  match od_get key (cache c) with
  | None => (None, add_miss c)
  | Some (value, expiry) =>
      if _is_expired now expiry then
        let c' :=
          match od_get key (cache c) with
          | Some (_, expiry') =>
              if Qeq_bool expiry' expiry
              then add_eviction (with_cache c (od_del key (cache c)))
              else c
          | None => c
          end in
        (None, add_miss c')
      else
        (Some value, add_hit (with_cache c (od_move_to_end key (cache c))))
  end.

(** [set(key, value, ttl)] at clock reading [now]. *)
Definition set (now : Q) (key : string) (value : V) (ttl : option Z)
    (c : t) : result t :=
  let ttl := match ttl with Some x => x | None => default_ttl c end in
  if (ttl <? 0)%Z then Raise ValueError
  else
    let ttl := if (MAX_TTL <? ttl)%Z then MAX_TTL else ttl in
    let current_time := now in
    let expiry := current_time + inject_Z ttl in
    if Qltb expiry current_time
       || Qltb (current_time + inject_Z MAX_TTL) expiry
    then Raise ValueError
    else
      let c1 := _evict_expired now c in
      match (if od_mem key (cache c1) then Ok c1 else _evict_lru c1) with
      | Raise e => Raise e
      | Ok c2 =>
          Ok (with_cache c2
                (od_move_to_end key
                   (od_set key (value, expiry) (cache c2))))
      end.

(** [delete(key)]. *)
Definition delete (key : string) (c : t) : t :=
  if od_mem key (cache c) then with_cache c (od_del key (cache c)) else c.

(** [clear()]. *)
Definition clear (c : t) : t := with_cache c [].

(** The dict [get_stats] returns. *)
Record stats : Type := mkStats {
  st_size : Z;
  st_max_size : Z;
  st_hits : Z;
  st_misses : Z;
  st_hit_rate_percent : Q;
  st_evictions : Z
}.

(** Rounding to the nearest integer, ties to even. *)
Definition round_half_even (q : Q) : Z :=
  let f := Qfloor q in
  let r := q - inject_Z f in
  if Qltb r (1 # 2) then f
  else if Qltb (1 # 2) r then (f + 1)%Z
  else if Z.even f then f else (f + 1)%Z.

(** The exponent of a positive rational: the floor of its binary
    logarithm. *)
Definition ilog2 (x : Q) : Z :=
  let e := (Z.log2 (Qnum x) - Z.log2 (Z.pos (Qden x)))%Z in
  if Qle_bool (2 ^ e) x then e else (e - 1)%Z.

(** The double (IEEE 754 binary64) nearest to [x], ties to even: the
    multiple of [2 ^ (e - 52)] nearest to [x], where [e] is the exponent of
    [x], or -1022 when [x] is below the normal range.  Overflow is not
    modelled: the numbers rounded here are at most 100. *)
Definition double (x : Q) : Q :=
  if Qeq_bool x 0 then 0
  else
    let e := Z.max (ilog2 (Qabs x)) (-1022) in
    let ulp := 2 ^ (e - 52) in
    inject_Z (round_half_even (x / ulp)) * ulp.

(** [a / b] on ints: the double nearest to the quotient. *)
Definition int_truediv (a b : Z) : Q := double (inject_Z a / inject_Z b).

(** [x * y] on floats. *)
Definition float_mul (x y : Q) : Q := double (x * y).

(** [round(x, 2)] on a float: the number of two decimals nearest to [x],
    ties to even, then the double nearest to that number. *)
Definition py_round2 (x : Q) : Q :=
  double (inject_Z (round_half_even (x * 100)) / 100).

(** [get_stats()].  The rate is computed on floats:
    [self.hits / total_requests * 100], then [round(hit_rate, 2)]; with no
    request it is the int 0. *)
Definition get_stats (c : t) : stats :=
  let total_requests := (hits c + misses c)%Z in
  let hit_rate :=
    if (0 <? total_requests)%Z
    then float_mul (int_truediv (hits c) total_requests) 100
    else 0 in
  {| st_size := Z.of_nat (length (cache c));
     st_max_size := max_size c;
     st_hits := hits c;
     st_misses := misses c;
     st_hit_rate_percent := py_round2 hit_rate;
     st_evictions := evictions c |}.

(** The calls a client can make on a cache, each with the clock reading
    at which it runs. *)
Inductive op : Type :=
  | OpGet (now : Q) (key : string)
  | OpSet (now : Q) (key : string) (value : V) (ttl : option Z)
  | OpDelete (key : string)
  | OpClear.

(** One call; a [set] that raises leaves the cache as it was. *)
Definition step (c : t) (o : op) : t :=
  match o with
  | OpGet now key => snd (get now key c)
  | OpSet now key value ttl =>
      match set now key value ttl c with
      | Ok c' => c'
      | Raise _ => c
      end
  | OpDelete key => delete key c
  | OpClear => clear c
  end.

Definition run (ops : list op) (c : t) : t := fold_left step ops c.

(** The keys of the cache, oldest first. *)
Definition keys (c : t) : list string := map fst (cache c).

(** The TTL [set] works with: the default when none is given, capped at
    [MAX_TTL]. *)
Definition effective_ttl (ttl : option Z) (c : t) : Z :=
  let ttl := match ttl with Some x => x | None => default_ttl c end in
  if (MAX_TTL <? ttl)%Z then MAX_TTL else ttl.

(** The representation invariant: a positive bound, distinct keys, and no
    more entries than the bound. *)
Definition inv (c : t) : Prop :=
  (0 < max_size c)%Z /\
  NoDup (keys c) /\
  (Z.of_nat (length (cache c)) <= max_size c)%Z.

(** The entries [_evict_expired] keeps at clock reading [now]. *)
Definition live (now : Q) (d : list (string * (V * Q)))
  : list (string * (V * Q)) :=
  List.filter (fun item => negb (item_expired now item)) d.

(** The number of entries [_evict_expired] removes at clock reading [now]. *)
Definition expired_count (now : Q) (d : list (string * (V * Q))) : Z :=
  Z.of_nat (length (List.filter (item_expired now) d)).

(** One insertion: a [set] call with its clock reading. *)
Record put : Type := mkPut {
  p_now : Q;
  p_key : string;
  p_value : V;
  p_ttl : option Z
}.

Definition put_op (p : put) : op :=
  OpSet (p_now p) (p_key p) (p_value p) (p_ttl p).

(** The insertion [p] is accepted by [set] and its entry does not expire
    before the clock reads [T], which is not before [p] is made. *)
Definition outlives (T : Q) (c : t) (p : put) : Prop :=
  (0 <= match p_ttl p with Some x => x | None => default_ttl c end)%Z /\
  p_now p <= T /\
  T <= p_now p + inject_Z (effective_ttl (p_ttl p) c).

(** The entry an insertion stores. *)
Definition put_entry (c : t) (p : put) : string * (V * Q) :=
  (p_key p, (p_value p, p_now p + inject_Z (effective_ttl (p_ttl p) c))).

(** The number of [get] calls among [ops]. *)
Definition count_gets (ops : list op) : Z :=
  Z.of_nat (length (List.filter
                      (fun o => match o with OpGet _ _ => true | _ => false end)
                      ops)).

End Cache.
Arguments t V : clear implicits.
Arguments op V : clear implicits.
Arguments put V : clear implicits.

End TTLCache.

(** ** cache.py: class CryptoAPICache, key derivation *)

Module CryptoAPICache.

(** [needle in haystack] on strings. *)
Fixpoint contains (needle haystack : string) : bool :=
  String.prefix needle haystack ||
  match haystack with
  | EmptyString => false
  | String _ rest => contains needle rest
  end.

(** [any(x in endpoint for x in ["price", "markets"])]. *)
Definition is_live (endpoint : string) : bool :=
  contains "price" endpoint || contains "markets" endpoint.

(** [int(x)] on a float: truncation towards zero. *)
Definition py_int (x : Q) : Z := Z.quot (Qnum x) (Z.pos (Qden x)).

(** [str(z)] on an int, as the f-string formats it. *)
Definition str_of_int (z : Z) : string :=
  NilZero.string_of_int (Z.to_int z).

(** [int(time.time() / 60) * 60]. *)
Definition time_bucket (now : Q) : Z := (py_int (now / 60) * 60)%Z.

Section KeyDerivation.
(** The parameter values, their JSON text, the JSON text of a key
    (quoted and escaped) and the SHA-256 hex digest come from Python's
    library. *)
Context {Val : Type}.
Variable json_value : Val -> string.
Variable json_key : string -> string.
Variable sha256_hexdigest : string -> string.

(** The order in which [sort_keys=True] puts two items. *)
Definition item_le (x y : string * Val) : Prop := String.le (fst x) (fst y).

#[global] Instance item_le_dec : RelDecision item_le.
Proof. intros x y. unfold item_le. apply _. Defined.

(** [json.dumps(params, sort_keys=True)] on a dict. *)
Definition json_dumps_sorted (params : list (string * Val)) : string :=
  "{" +:+ String.concat ", "
           (map (fun item => json_key (fst item) +:+ ": " +:+ json_value (snd item))
                (merge_sort item_le params))
      +:+ "}".

(** The text that is hashed. *)
Definition cache_data (endpoint : string)
    (params : option (list (string * Val))) (now : Q) : string :=
  let params := match params with
                | None | Some [] => []
                | Some p => p
                end in
  let sorted_params := json_dumps_sorted params in
  if is_live endpoint
  then endpoint +:+ ":" +:+ sorted_params +:+ ":" +:+ str_of_int (time_bucket now)
  else endpoint +:+ ":" +:+ sorted_params.

(** [_generate_cache_key(endpoint, params)] at clock reading [now]. *)
Definition _generate_cache_key (endpoint : string)
    (params : option (list (string * Val))) (now : Q) : string :=
  sha256_hexdigest (cache_data endpoint params now).

End KeyDerivation.

(** [TTL_CONFIG], in the order of the dict. *)
Definition TTL_CONFIG : list (string * Z) :=
  [("price", 120); ("prices", 120); ("markets", 180);
   ("ohlc", 3600); ("market_chart", 3600); ("history", 7200);
   ("coins", 600); ("global", 600);
   ("default", 300)]%Z.

(** The loop of [_get_ttl_for_endpoint]: the TTL of the first pattern of
    [config] that occurs in the endpoint. *)
Fixpoint first_match (config : list (string * Z)) (endpoint : string)
  : option Z :=
  match config with
  | [] => None
  | (pattern, ttl) :: rest =>
      if contains pattern endpoint then Some ttl
      else first_match rest endpoint
  end.

(** [config[key]]; [None] stands for the [KeyError]. *)
Fixpoint config_get (key : string) (config : list (string * Z)) : option Z :=
  match config with
  | [] => None
  | (k, ttl) :: rest => if String.eqb k key then Some ttl else config_get key rest
  end.

(** [_get_ttl_for_endpoint(endpoint)]. *)
Definition _get_ttl_for_endpoint (endpoint : string) : result Z :=
  match first_match TTL_CONFIG endpoint with
  | Some ttl => Ok ttl
  | None =>
      match config_get "default" TTL_CONFIG with
      | Some ttl => Ok ttl
      | None => Raise KeyError
      end
  end.

Section Facade.
(** The cached responses, and the library functions of the key
    derivation. *)
Context {Val V : Type}.
Variable json_value : Val -> string.
Variable json_key : string -> string.
Variable sha256_hexdigest : string -> string.

(** [__init__(max_size)]: the object is its [TTLCache], built with the
    default TTL of 300 seconds. *)
Definition init (max_size : Z) : result (TTLCache.t V) :=
  TTLCache.init max_size 300.

(** [get(endpoint, params)] at clock reading [now]. *)
Definition get (now : Q) (endpoint : string)
    (params : option (list (string * Val))) (c : TTLCache.t V)
  : option V * TTLCache.t V :=
  let cache_key :=
    _generate_cache_key json_value json_key sha256_hexdigest
      endpoint params now in
  TTLCache.get now cache_key c.

(** [set(endpoint, params, value)] at clock reading [now]. *)
Definition set (now : Q) (endpoint : string)
    (params : option (list (string * Val))) (value : V) (c : TTLCache.t V)
  : result (TTLCache.t V) :=
  let cache_key :=
    _generate_cache_key json_value json_key sha256_hexdigest
      endpoint params now in
  match _get_ttl_for_endpoint endpoint with
  | Raise e => Raise e
  | Ok ttl => TTLCache.set now cache_key value (Some ttl) c
  end.

(** [invalidate(endpoint, params)] at clock reading [now]. *)
Definition invalidate (now : Q) (endpoint : string)
    (params : option (list (string * Val))) (c : TTLCache.t V)
  : TTLCache.t V :=
  let cache_key :=
    _generate_cache_key json_value json_key sha256_hexdigest
      endpoint params now in
  TTLCache.delete cache_key c.

End Facade.

End CryptoAPICache.

(** ** rate_limiter.py: the locks of one thread

    Each [TokenBucket] and the [RateLimiter] own a [threading.Lock].  Such a
    lock is not reentrant: a thread that enters [with lock:] while it holds
    that lock waits for ever, since only that thread would release it.
    This module follows the locks one thread holds through the methods that
    take them. *)

Module Locks.

Inductive lock_id : Type :=
| LimiterLock
| BucketLock (api_name : string).

#[global] Instance lock_id_eq_dec : EqDecision lock_id.
Proof. solve_decision. Defined.

(** A computation of the thread, from the locks it holds: [None] when it
    waits for ever, else its value and the locks it holds afterwards. *)
Definition L (A : Type) : Type := list lock_id -> option (A * list lock_id).

Definition lret {A} (a : A) : L A := fun held => Some (a, held).

Definition lbind {A B} (m : L A) (k : A -> L B) : L B :=
  fun held =>
    match m held with
    | None => None
    | Some (a, held') => k a held'
    end.

(** [lock.release()]. *)
Definition release (l : lock_id) (held : list lock_id) : list lock_id :=
  List.filter (fun l' => negb (bool_decide (l' = l))) held.

(** [with lock: body]. *)
Definition with_lock {A} (l : lock_id) (body : L A) : L A :=
  fun held =>
    if bool_decide (l ∈ held) then None
    else
      match body (l :: held) with
      | None => None
      | Some (a, held') => Some (a, release l held')
      end.

(** [TokenBucket.wait_time()] of the bucket of [api_name], with its lock. *)
Definition wait_time (api_name : string) (b : TokenBucket.t) : L (result Q) :=
  with_lock (BucketLock api_name) (lret (TokenBucket.wait_time b)).

(** [TokenBucket.consume(n)] of the bucket of [api_name], with its lock. *)
Definition consume (api_name : string) (now : Q) (n : Z) (b : TokenBucket.t)
  : L (bool * TokenBucket.t) :=
  with_lock (BucketLock api_name) (lret (TokenBucket.consume now n b)).

(** The dict [get_stats] builds for one service. *)
Record bucket_stats : Type := mkBucketStats {
  available_tokens : Q;
  capacity : Q;
  rate_per_second : Q;
  wait_time_seconds : Q;
  backoff_until : Q
}.

(** One round of the loop of [RateLimiter.get_stats]; an exception raised
    in an earlier round has ended the loop. *)
Definition stats_round (backoff_data : gmap string Q)
    (acc : result (gmap string bucket_stats))
    (item : string * TokenBucket.t) : L (result (gmap string bucket_stats)) :=
  match acc with
  | Raise e => lret (Raise e)
  | Ok stats =>
      let '(api_name, bucket) := item in
      with_lock (BucketLock api_name)
        (lbind (wait_time api_name bucket) (fun wt =>
           match wt with
           | Raise e => lret (Raise e)
           | Ok d =>
               lret (Ok (<[api_name :=
                            {| available_tokens := TokenBucket.tokens bucket;
                               capacity := TokenBucket.capacity bucket;
                               rate_per_second := TokenBucket.rate bucket;
                               wait_time_seconds := d;
                               backoff_until :=
                                 default 0 (backoff_data !! api_name) |}]>
                           stats))
           end))
  end.

Fixpoint stats_loop (backoff_data : gmap string Q)
    (items : list (string * TokenBucket.t))
    (acc : result (gmap string bucket_stats))
  : L (result (gmap string bucket_stats)) :=
  match items with
  | [] => lret acc
  | item :: rest =>
      lbind (stats_round backoff_data acc item)
        (stats_loop backoff_data rest)
  end.

(** [RateLimiter.get_stats()]. *)
Definition get_stats (rl : RateLimiter.t)
  : L (result (gmap string bucket_stats)) :=
  lbind (with_lock LimiterLock (lret (RateLimiter.backoff_until rl)))
    (fun backoff_data =>
       stats_loop backoff_data (map_to_list (RateLimiter.buckets rl)) (Ok ∅)).

End Locks.

(** ** api.py: endpoint sanitization *)

Module Api.

(** [_sanitize_endpoint(endpoint)]. *)
Definition _sanitize_endpoint (endpoint : string) : result string :=
  if CryptoAPICache.contains ".." endpoint
     || CryptoAPICache.contains "\" endpoint
  then Raise ValueError
  else if String.prefix "/" endpoint then Ok endpoint
  else Ok ("/" +:+ endpoint).

(** [MAX_RESPONSE_SIZE], in bytes. *)
Definition MAX_RESPONSE_SIZE : Z := 10 * 1024 * 1024.

(** How the chunk loop of [_read_response_safely] ends: with the whole
    body in [content], or at the chunk that takes [content] over the limit,
    where the response is closed. *)
Inductive read (bytes : Type) : Type :=
| Complete (content : bytes)
| TooLarge (content : bytes).
Arguments Complete {bytes} content.
Arguments TooLarge {bytes} content.

(** [for chunk in response.iter_content(...)]: [chunks] are the chunks the
    response yields. *)
Fixpoint read_chunks (content : list Byte.byte) (chunks : list (list Byte.byte))
  : read (list Byte.byte) :=
  match chunks with
  | [] => Complete content
  | chunk :: rest =>
      let content := content ++ chunk in
      if (MAX_RESPONSE_SIZE <? Z.of_nat (length content))%Z
      then TooLarge content
      else read_chunks content rest
  end.

(** The exceptions that leave [json.loads] and [_read_response_safely], by
    the class an [except] clause tells apart.  [json.JSONDecodeError] is a
    subclass of [ValueError]; [ExcValueError] stands for every other
    [ValueError] ([UnicodeDecodeError] on bytes that are not text, the
    digit limit of [int]), [ExcException] for a plain [Exception], and
    [ExcOther] for the rest ([RecursionError], [MemoryError]). *)
Inductive exc : Type :=
| ExcJSONDecodeError
| ExcValueError
| ExcException
| ExcOther.

(** What [json.loads] does with the body: the parsed value or an
    exception. *)
Inductive loads (V : Type) : Type :=
| Loaded (v : V)
| LoadsRaises (e : exc).
Arguments Loaded {V} v.
Arguments LoadsRaises {V} e.

(** What [_read_response_safely] does: it returns the parsed body or
    raises. *)
Inductive outcome (V : Type) : Type :=
| Returns (v : V)
| Raises (e : exc).
Arguments Returns {V} v.
Arguments Raises {V} e.

(** [_read_response_safely(response)]: over the limit it raises
    [ValueError]; a [JSONDecodeError] of [json.loads] is caught and
    replaced by an [Exception]; any other exception of [json.loads] is not
    caught. *)
Definition _read_response_safely {V : Type}
    (json_loads : list Byte.byte -> loads V)
    (chunks : list (list Byte.byte)) : outcome V :=
  match read_chunks [] chunks with
  | TooLarge _ => Raises ExcValueError
  | Complete content =>
      match json_loads content with
      | Loaded v => Returns v
      | LoadsRaises ExcJSONDecodeError => Raises ExcException
      | LoadsRaises e => Raises e
      end
  end.

End Api.

(** ** validators.py *)

Module Validators.

Definition is_lower (c : Ascii.ascii) : bool :=
  (97 <=? Ascii.nat_of_ascii c)%nat && (Ascii.nat_of_ascii c <=? 122)%nat.

Definition is_digit (c : Ascii.ascii) : bool :=
  (48 <=? Ascii.nat_of_ascii c)%nat && (Ascii.nat_of_ascii c <=? 57)%nat.

(** The character class [[a-z0-9-]]. *)
Definition coin_char (c : Ascii.ascii) : bool :=
  is_lower c || is_digit c || Ascii.eqb c "-"%char.

(** [re.match(r'^[...]+$', s)] for a character class: one character of the
    class or more, up to the end of the string or to a newline that ends
    the string ([$] matches before a final newline). *)
Fixpoint re_class_plus (cls : Ascii.ascii -> bool) (s : string) : bool :=
  match s with
  | EmptyString => false
  | String c rest =>
      cls c &&
      match rest with
      | EmptyString => true
      | String c' rest' =>
          match rest' with
          | EmptyString => Ascii.eqb c' "010"%char || re_class_plus cls rest
          | String _ _ => re_class_plus cls rest
          end
      end
  end.

(** [s.endswith(c)] for a one-character string. *)
Fixpoint ends_with (c : Ascii.ascii) (s : string) : bool :=
  match s with
  | EmptyString => false
  | String c' EmptyString => Ascii.eqb c' c
  | String _ rest => ends_with c rest
  end.

(** [validate_coin_id(coin_id)]. *)
Definition validate_coin_id (coin_id : string) : result string :=
  if String.eqb coin_id "" then Raise ValueError
  else if (50 <? String.length coin_id)%nat then Raise ValueError
  else if negb (re_class_plus coin_char coin_id) then Raise ValueError
  else if CryptoAPICache.contains "--" coin_id
          || String.prefix "-" coin_id
          || ends_with "-"%char coin_id
  then Raise ValueError
  else Ok coin_id.

(** [validate_currency(currency)]. *)
Definition validate_currency (currency : string) : result string :=
  if String.eqb currency "" then Raise ValueError
  else if (10 <? String.length currency)%nat then Raise ValueError
  else if negb (re_class_plus is_lower currency) then Raise ValueError
  else Ok currency.

(** Every character of [s] is in the class. *)
Fixpoint all_chars (cls : Ascii.ascii -> bool) (s : string) : bool :=
  match s with
  | EmptyString => true
  | String c rest => cls c && all_chars cls rest
  end.

End Validators.

(** ** ohlc.py, prices.py, volatility.py: the endpoints of a coin

    The tools validate [coin_id] with [validate_coin_id] and pass these
    endpoints to [call_coingecko_api], which sanitizes them and uses them
    for the cache. *)

Module Tools.

(** [f"/coins/{coin_id}/ohlc"]. *)
Definition ohlc_endpoint (coin_id : string) : string :=
  "/coins/" +:+ coin_id +:+ "/ohlc".

(** [f"/coins/{coin_id}/market_chart"]. *)
Definition market_chart_endpoint (coin_id : string) : string :=
  "/coins/" +:+ coin_id +:+ "/market_chart".

(** [f"/coins/{coin_id}/market_chart/range"]. *)
Definition market_chart_range_endpoint (coin_id : string) : string :=
  "/coins/" +:+ coin_id +:+ "/market_chart/range".

(** [f"/coins/{coin_id}/history"]. *)
Definition history_endpoint (coin_id : string) : string :=
  "/coins/" +:+ coin_id +:+ "/history".

(** [f"/coins/{coin_id}"]. *)
Definition coin_endpoint (coin_id : string) : string :=
  "/coins/" +:+ coin_id.

End Tools.

(** * Properties *)

(** ** Boolean comparisons *)

Lemma Qltb_lt (a b : Q) : Qltb a b = true <-> a < b.
Proof.
  unfold Qltb. rewrite negb_true_iff.
  split; intros H.
  - apply Qnot_le_lt. intros Hle. apply Qle_bool_iff in Hle. congruence.
  - destruct (Qle_bool b a) eqn:E; [|reflexivity].
    apply Qle_bool_iff in E. lra.
Qed.

Lemma Qltb_ge (a b : Q) : Qltb a b = false <-> b <= a.
Proof.
  unfold Qltb. rewrite negb_false_iff. apply Qle_bool_iff.
Qed.

Lemma Qleb_le (a b : Q) : Qleb a b = true <-> a <= b.
Proof. apply Qle_bool_iff. Qed.

Lemma Qleb_gt (a b : Q) : Qleb a b = false <-> b < a.
Proof.
  unfold Qleb. split; intros H.
  - apply Qnot_le_lt. intros Hle. apply Qle_bool_iff in Hle. congruence.
  - destruct (Qle_bool a b) eqn:E; [|reflexivity].
    apply Qle_bool_iff in E. lra.
Qed.

Lemma py_min_le_l (a b : Q) : py_min a b <= a.
Proof.
  unfold py_min. destruct (Qltb b a) eqn:E.
  - apply Qltb_lt in E. lra.
  - lra.
Qed.

Lemma py_min_le_r (a b : Q) : py_min a b <= b.
Proof.
  unfold py_min. destruct (Qltb b a) eqn:E.
  - lra.
  - apply Qltb_ge in E. lra.
Qed.

Lemma py_min_glb (a b c : Q) : c <= a -> c <= b -> c <= py_min a b.
Proof. intros Ha Hb. unfold py_min. destruct (Qltb b a); assumption. Qed.

(** ** TokenBucket *)

Section TokenBucketFacts.
Import TokenBucket.

Lemma consume_rate now n b : rate (snd (consume now n b)) = rate b.
Proof. unfold consume. destruct (Qleb _ _); reflexivity. Qed.

Lemma consume_capacity now n b :
  capacity (snd (consume now n b)) = capacity b.
Proof. unfold consume. destruct (Qleb _ _); reflexivity. Qed.

Lemma consume_last_update now n b :
  last_update (snd (consume now n b)) = now.
Proof. unfold consume. destruct (Qleb _ _); reflexivity. Qed.

(** A successful [consume] leaves a non-negative level, for any amount
    and any bucket. *)
Lemma consume_true_nonneg now n b b' :
  consume now n b = (true, b') -> 0 <= tokens b'.
Proof.
  unfold consume. destruct (Qleb _ _) eqn:E; intros [= <-]; simpl.
  apply Qleb_le in E. lra.
Qed.

(** A failed [consume] is exactly the refill update. *)
Lemma consume_false_refill now n b b' :
  consume now n b = (false, b') -> b' = refill now b.
Proof.
  unfold consume, refill. destruct (Qleb _ _); intros [= <-]. reflexivity.
Qed.

(** One step of the invariant, for a non-negative amount. *)
Lemma consume_preserves now n b :
  (0 <= n)%Z -> 0 <= rate b -> last_update b <= now ->
  0 <= tokens b <= capacity b ->
  0 <= tokens (snd (consume now n b)) <= capacity b.
Proof.
  intros Hn Hr Ht [Hlo Hhi].
  assert (Hq : 0 <= inject_Z n).
  { change 0 with (inject_Z 0). rewrite <- Zle_Qle. exact Hn. }
  assert (He : 0 <= (now - last_update b) * rate b).
  { apply Qmult_le_0_compat; lra. }
  pose proof (py_min_le_l (capacity b)
                (tokens b + (now - last_update b) * rate b)) as Hl.
  assert (Hg : 0 <= py_min (capacity b)
                      (tokens b + (now - last_update b) * rate b)).
  { apply py_min_glb; lra. }
  unfold consume. destruct (Qleb _ _) eqn:E; simpl.
  - apply Qleb_le in E. lra.
  - lra.
Qed.

End TokenBucketFacts.

(** C1, as amended.  For a bucket built with a positive rate and a positive
    capacity, after any sequence of [consume n] calls with [0 <= n], made at
    non-decreasing clock readings, the level is between 0 and the capacity;
    a successful [consume] (of any amount) leaves a non-negative level; a
    failed [consume] (of any amount) is exactly the refill update: the
    level raised by elapsed * rate and capped at the capacity, the time of
    the last update set to now, rate and capacity untouched. *)
Theorem token_bucket_invariant (r c t0 : Q) (b : TokenBucket.t) :
  0 < r -> 0 < c ->
  TokenBucket.reachable (fun n => (0 <= n)%Z) (TokenBucket.init r c t0) b ->
  (TokenBucket.tokens b <= TokenBucket.capacity b /\
   0 <= TokenBucket.tokens b) /\
  (forall now n b',
     TokenBucket.consume now n b = (true, b') ->
     0 <= TokenBucket.tokens b') /\
  (forall now n b',
     TokenBucket.consume now n b = (false, b') ->
     b' = TokenBucket.refill now b /\
     TokenBucket.tokens b' <= TokenBucket.capacity b' /\
     TokenBucket.last_update b' = now /\
     TokenBucket.rate b' = TokenBucket.rate b /\
     TokenBucket.capacity b' = TokenBucket.capacity b).
Proof.
  intros Hr Hc Hreach.
  split; [|split].
  - assert (Inv : TokenBucket.rate b = r /\ TokenBucket.capacity b = c /\
                  0 <= TokenBucket.tokens b <= TokenBucket.capacity b).
    { induction Hreach as [|b now n Hreach IH Hnow Hn].
      - simpl. repeat split; lra.
      - destruct IH as (IHr & IHc & IHt).
        rewrite consume_rate, consume_capacity.
        repeat split; try assumption;
          apply consume_preserves; try assumption; rewrite IHr; lra. }
    destruct Inv as (_ & _ & Hlo & Hhi). split; assumption.
  - intros now n b'. apply consume_true_nonneg.
  - intros now n b' Hf.
    pose proof (consume_false_refill _ _ _ _ Hf) as ->.
    repeat split; simpl. apply py_min_le_l.
Qed.

(** The invariant at a concrete run: a 5-token bucket, three calls. *)
Lemma token_bucket_invariant_witness :
  let b0 := TokenBucket.init (1 # 2) 5 0 in
  let b1 := snd (TokenBucket.consume 1 3 b0) in
  let b2 := snd (TokenBucket.consume 2 4 b1) in
  TokenBucket.tokens b2 <= TokenBucket.capacity b2 /\
  0 <= TokenBucket.tokens b2.
Proof.
  intros b0 b1 b2.
  refine (proj1 (token_bucket_invariant (1 # 2) 5 0 b2 _ _ _)).
  - reflexivity.
  - reflexivity.
  - apply TokenBucket.reach_consume.
    + apply TokenBucket.reach_consume.
      * apply TokenBucket.reach_init.
      * vm_compute. discriminate.
      * vm_compute. discriminate.
    + vm_compute. discriminate.
    + vm_compute. discriminate.
Defined.

(** C1 as stated fails: the amount is a Python [int], and a negative amount
    is always granted and raises the level.  On a fresh full bucket of
    capacity 5, [consume(-1)] returns [True] and leaves 6 tokens. *)
Lemma token_bucket_negative_amount_overflows :
  let b0 := TokenBucket.init 1 5 0 in
  let b1 := snd (TokenBucket.consume 0 (-1) b0) in
  TokenBucket.reachable (fun _ => True) b0 b1 /\
  fst (TokenBucket.consume 0 (-1) b0) = true /\
  TokenBucket.tokens b1 == 6 /\
  ~ TokenBucket.tokens b1 <= TokenBucket.capacity b1.
Proof.
  intros b0 b1. repeat split.
  - apply TokenBucket.reach_consume.
    + apply TokenBucket.reach_init.
    + vm_compute. discriminate.
    + exact I.
  - vm_compute. intros H. apply H. reflexivity.
Qed.
(** ** RateLimiter: the backoff state machine *)

Lemma py_min_Qmin (a b : Q) : py_min a b == Qmin a b.
Proof.
  unfold py_min. destruct (Qltb b a) eqn:E.
  - apply Qltb_lt in E. rewrite Q.min_r; lra.
  - apply Qltb_ge in E. rewrite Q.min_l; lra.
Qed.

Section BackoffFacts.
Import RateLimiter.

Lemma report_none_idle api_name w :
  default 0 (backoff_until (limiter w) !! api_name) <= clock w ->
  report_rate_limit_error api_name None w
  = Some (Ok tt, backoff_set api_name (clock w + 60) w).
Proof.
  intros H. apply Qltb_ge in H.
  unfold report_rate_limit_error, bind, get_backoff, time_time, ret,
    set_backoff, set_limiter. simpl. rewrite H. reflexivity.
Qed.

Lemma report_none_active api_name w :
  clock w < default 0 (backoff_until (limiter w) !! api_name) ->
  report_rate_limit_error api_name None w
  = Some (Ok tt,
          backoff_set api_name
            (clock w +
             py_min ((default 0 (backoff_until (limiter w) !! api_name)
                      - clock w) * 2) 300) w).
Proof.
  intros H. apply Qltb_lt in H.
  unfold report_rate_limit_error, bind, get_backoff, time_time, ret,
    set_backoff, set_limiter. simpl. rewrite H. reflexivity.
Qed.

Lemma report_some_nonzero api_name z w :
  z <> 0%Z ->
  report_rate_limit_error api_name (Some z) w
  = Some (Ok tt, backoff_set api_name (clock w + inject_Z z) w).
Proof.
  intros H. apply Z.eqb_neq in H.
  unfold report_rate_limit_error, bind, truthy, ret, time_time,
    set_backoff, set_limiter. simpl. rewrite H. reflexivity.
Qed.

Lemma report_some_zero api_name w :
  report_rate_limit_error api_name (Some 0%Z) w
  = report_rate_limit_error api_name None w.
Proof. reflexivity. Qed.

Lemma reset_backoff_eq api_name w :
  reset_backoff api_name w = Some (Ok tt, backoff_set api_name 0 w).
Proof. reflexivity. Qed.

(** With no deadline ahead, the body of [acquire] is the token loop. *)
Lemma acquire_body_idle fuel api_name timeout w :
  default 0 (backoff_until (limiter w) !! api_name) <= clock w ->
  acquire_body fuel api_name timeout w
  = poll fuel api_name timeout (clock w) w.
Proof.
  intros H. apply Qltb_ge in H.
  unfold acquire_body, bind, time_time, get_backoff. simpl.
  rewrite H. reflexivity.
Qed.

End BackoffFacts.

(** C3.  [report_rate_limit_error] without [retry_after], at clock reading
    [now], on a service whose deadline is [cb] ([0.0] when it has none):
    - with no backoff active ([cb <= now]) the deadline becomes [now + 60];
    - with a backoff active and [d = cb - now] remaining, the deadline
      becomes [now + min(2d, 300)], which is later than [cb] or is the cap
      [now + 300];
    - only the deadline of that service changes.
    [reset_backoff] sets the deadline to [0.0], and from then on (the clock
    reads seconds since the epoch, so [0 <= now]) the body of [acquire] is
    the polling of the token bucket alone. *)
Theorem backoff_state_machine (api_name : string) (w : RateLimiter.world) :
  let cb := default 0 (RateLimiter.backoff_until (RateLimiter.limiter w)
                         !! api_name) in
  let now := RateLimiter.clock w in
  (cb <= now ->
   RateLimiter.report_rate_limit_error api_name None w
   = Some (Ok tt, RateLimiter.backoff_set api_name (now + 60) w)) /\
  (now < cb ->
   exists deadline,
     RateLimiter.report_rate_limit_error api_name None w
     = Some (Ok tt, RateLimiter.backoff_set api_name deadline w) /\
     deadline == now + Qmin (2 * (cb - now)) 300 /\
     (cb < deadline \/ deadline == now + 300)) /\
  (forall deadline,
     RateLimiter.backoff_until
       (RateLimiter.limiter (RateLimiter.backoff_set api_name deadline w)) !! api_name
     = Some deadline) /\
  RateLimiter.reset_backoff api_name w
  = Some (Ok tt, RateLimiter.backoff_set api_name 0 w) /\
  (0 <= now ->
   forall fuel timeout,
     RateLimiter.acquire_body fuel api_name timeout
       (RateLimiter.backoff_set api_name 0 w)
     = RateLimiter.poll fuel api_name timeout now
         (RateLimiter.backoff_set api_name 0 w)).
Proof.
  intros cb now. repeat split.
  - apply report_none_idle.
  - intros Hact. eexists. split; [apply report_none_active; exact Hact|].
    fold cb now. split.
    + rewrite py_min_Qmin.
      assert (E : (cb - now) * 2 == 2 * (cb - now)) by ring.
      rewrite E. reflexivity.
    + unfold py_min. destruct (Qltb 300 ((cb - now) * 2)) eqn:E.
      * right. reflexivity.
      * left. lra.
  - intros deadline. simpl. apply lookup_insert_eq.
  - intros Hnow fuel timeout. apply acquire_body_idle.
    simpl. rewrite lookup_insert_eq. exact Hnow.
Qed.

(** The three transitions on the default limiter at clock reading 1000:
    a first report, a second report 1 second into the 60-second backoff,
    and the token loop after a reset. *)
Lemma backoff_state_machine_witness :
  let w0 := RateLimiter.default_world 1000 in
  let w1 := RateLimiter.backoff_set "kraken" 1060 (RateLimiter.default_world 1001) in
  RateLimiter.report_rate_limit_error "kraken" None w0
  = Some (Ok tt, RateLimiter.backoff_set "kraken" (1000 + 60) w0) /\
  (exists deadline,
     RateLimiter.report_rate_limit_error "kraken" None w1
     = Some (Ok tt, RateLimiter.backoff_set "kraken" deadline w1) /\
     deadline == 1001 + Qmin (2 * (1060 - 1001)) 300 /\
     (1060 < deadline \/ deadline == 1001 + 300)) /\
  RateLimiter.acquire_body 5 "kraken" 10 (RateLimiter.backoff_set "kraken" 0 w1)
  = RateLimiter.poll 5 "kraken" 10 1001 (RateLimiter.backoff_set "kraken" 0 w1).
Proof.
  intros w0 w1. split; [|split].
  - apply (proj1 (backoff_state_machine "kraken" w0)).
    vm_compute. discriminate.
  - apply (proj1 (proj2 (backoff_state_machine "kraken" w1))).
    vm_compute. reflexivity.
  - apply (proj2 (proj2 (proj2 (proj2 (backoff_state_machine "kraken" w1))))).
    vm_compute. discriminate.
Defined.

(** C8 fails at [retry_after = 0].  The test [if retry_after:] takes a
    supplied zero for a missing value, so [report_rate_limit_error(api, 0)]
    is [report_rate_limit_error(api)]: on an idle service the deadline
    becomes [now + 60], not [now + 0]. *)
Theorem retry_after_zero_is_ignored (api_name : string)
    (w : RateLimiter.world) :
  default 0 (RateLimiter.backoff_until (RateLimiter.limiter w) !! api_name)
  <= RateLimiter.clock w ->
  RateLimiter.report_rate_limit_error api_name (Some 0%Z) w
  = RateLimiter.report_rate_limit_error api_name None w /\
  RateLimiter.report_rate_limit_error api_name (Some 0%Z) w
  = Some (Ok tt,
          RateLimiter.backoff_set api_name (RateLimiter.clock w + 60) w) /\
  ~ RateLimiter.clock w + 60 == RateLimiter.clock w + inject_Z 0.
Proof.
  intros Hidle. split; [|split].
  - apply report_some_zero.
  - rewrite report_some_zero. apply report_none_idle. exact Hidle.
  - intros E. assert (H : 60 == inject_Z 0) by lra. discriminate H.
Qed.

Lemma retry_after_zero_is_ignored_witness :
  let w0 := RateLimiter.default_world 1000 in
  RateLimiter.report_rate_limit_error "coingecko" (Some 0%Z) w0
  = Some (Ok tt, RateLimiter.backoff_set "coingecko" (1000 + 60) w0).
Proof.
  intros w0.
  apply (proj1 (proj2 (retry_after_zero_is_ignored "coingecko" w0
                         ltac:(vm_compute; discriminate)))).
Defined.

(** A supplied non-zero [retry_after] is used as the cooldown, whatever the
    previous deadline was. *)
Lemma retry_after_nonzero_is_used (api_name : string) (z : Z)
    (w : RateLimiter.world) :
  z <> 0%Z ->
  RateLimiter.report_rate_limit_error api_name (Some z) w
  = Some (Ok tt,
          RateLimiter.backoff_set api_name
            (RateLimiter.clock w + inject_Z z) w).
Proof. apply report_some_nonzero. Qed.

(** ** RateLimiter: acquire *)

Section AcquireFacts.
Import RateLimiter.

Lemma MIN_SLEEP_pos : 0 < MIN_SLEEP.
Proof. reflexivity. Qed.

Lemma py_max_ge_l (a b : Q) : a <= py_max a b.
Proof.
  unfold py_max. destruct (Qltb a b) eqn:E.
  - apply Qltb_lt in E. lra.
  - lra.
Qed.

Lemma wait_time_ok b :
  ~ TokenBucket.rate b == 0 -> exists d, TokenBucket.wait_time b = Ok d.
Proof.
  intros Hr. unfold TokenBucket.wait_time.
  destruct (Qleb 1 (TokenBucket.tokens b)); [eauto|].
  destruct (Qeq_bool (TokenBucket.rate b) 0) eqn:E; [|eauto].
  apply Qeq_bool_iff in E. contradiction.
Qed.

Lemma poll_inv fuel api_name timeout start : forall w b r w',
  buckets (limiter w) !! api_name = Some b ->
  poll fuel api_name timeout start w = Some (r, w') ->
  poll_post api_name b w w' r.
Proof.
  induction fuel as [|fuel IH]; intros w b r w' Hb Hp; [discriminate|].
  simpl in Hp.
  unfold bind, bucket_consume, ret, time_time, set_limiter in Hp.
  rewrite Hb in Hp.
  destruct (TokenBucket.consume (clock w) 1 b) as [got b1] eqn:Hc.
  assert (Hrate : TokenBucket.rate b1 = TokenBucket.rate b).
  { replace b1 with (snd (TokenBucket.consume (clock w) 1 b))
      by (rewrite Hc; reflexivity). apply consume_rate. }
  cbn in Hp.
  destruct got.
  { simplify_eq. unfold poll_post; cbn.
    repeat split; try reflexivity; try lra; eauto. }
  simpl in Hp.
  destruct (Qleb timeout (clock w - start)).
  { simplify_eq. unfold poll_post; cbn.
    repeat split; try reflexivity; try lra; eauto. }
  unfold bucket_wait_time in Hp. cbn in Hp.
  rewrite lookup_insert_eq in Hp.
  destruct (TokenBucket.wait_time b1) as [bw|e] eqn:Hw.
  2:{ simplify_eq. unfold poll_post; cbn.
      repeat split; try reflexivity; try lra; eauto.
      intros Hr. destruct (wait_time_ok b1) as [d Hd];
        [rewrite Hrate; exact Hr | congruence]. }
  set (wt := py_max MIN_SLEEP (py_min bw (timeout - (clock w - start)))) in *.
  assert (Hwt : MIN_SLEEP <= wt) by apply py_max_ge_l.
  pose proof MIN_SLEEP_pos as Hms.
  assert (E1 : Qltb 0 wt = true) by (apply Qltb_lt; lra).
  rewrite E1 in Hp. unfold sleep in Hp.
  assert (E2 : Qltb wt 0 = false) by (apply Qltb_ge; lra).
  rewrite E2 in Hp. cbn in Hp.
  eapply IH in Hp; [|cbn; apply lookup_insert_eq].
  destruct Hp as (H1 & H2 & H3 & H4 & (b' & H5 & H6) & H7). cbn in *.
  unfold poll_post. repeat split; try assumption; try lra.
  - exists b'. split; [|congruence].
    rewrite H5. apply insert_insert_eq.
  - intros Hr. apply H7. rewrite Hrate. exact Hr.
Qed.

(** The loop ends: each round that does not return sleeps at least
    [MIN_SLEEP], and it returns once [timeout] has elapsed. *)
Lemma poll_terminates api_name timeout start : forall (k : nat) w fuel,
  timeout - (clock w - start) <= inject_Z (Z.of_nat k) * MIN_SLEEP ->
  (k < fuel)%nat ->
  exists r w', poll fuel api_name timeout start w = Some (r, w').
Proof.
  induction k as [|k IH]; intros w fuel Hrem Hfuel.
  - destruct fuel as [|fuel]; [lia|].
    simpl. unfold bind, bucket_consume, ret, time_time, set_limiter.
    destruct (buckets (limiter w) !! api_name) as [b|]; [|eauto].
    destruct (TokenBucket.consume (clock w) 1 b) as [got b1].
    cbn. destruct got; [eauto|]. simpl.
    assert (E : Qleb timeout (clock w - start) = true).
    { apply Qleb_le.
      assert (Z0 : inject_Z (Z.of_nat 0) * MIN_SLEEP == 0) by reflexivity.
      lra. }
    rewrite E. eauto.
  - destruct fuel as [|fuel]; [lia|].
    simpl. unfold bind, bucket_consume, ret, time_time, set_limiter.
    destruct (buckets (limiter w) !! api_name) as [b|]; [|eauto].
    destruct (TokenBucket.consume (clock w) 1 b) as [got b1].
    cbn. destruct got; [eauto|]. simpl.
    destruct (Qleb timeout (clock w - start)); [eauto|].
    unfold bucket_wait_time. cbn. rewrite lookup_insert_eq.
    destruct (TokenBucket.wait_time b1) as [bw|e]; [|eauto].
    set (wt := py_max MIN_SLEEP (py_min bw (timeout - (clock w - start)))).
    assert (Hwt : MIN_SLEEP <= wt) by apply py_max_ge_l.
    pose proof MIN_SLEEP_pos as Hms.
    assert (E1 : Qltb 0 wt = true) by (apply Qltb_lt; lra).
    rewrite E1. unfold sleep.
    assert (E2 : Qltb wt 0 = false) by (apply Qltb_ge; lra).
    rewrite E2. cbn.
    apply IH; [|lia]. cbn.
    rewrite Nat2Z.inj_succ in Hrem. unfold Z.succ in Hrem.
    rewrite inject_Z_plus in Hrem. change (inject_Z 1) with 1 in Hrem.
    unfold MIN_SLEEP in *. lra.
Qed.

End AcquireFacts.

Section AcquireTheorems.
Import RateLimiter.

Lemma acquire_body_inv fuel api_name timeout w b r w' :
  buckets (limiter w) !! api_name = Some b ->
  acquire_body fuel api_name timeout w = Some (r, w') ->
  poll_post api_name b w w' r.
Proof.
  intros Hb Hp.
  unfold acquire_body, bind, time_time, get_backoff, ret in Hp.
  simpl in Hp.
  set (cb := default 0 (backoff_until (limiter w) !! api_name)) in *.
  destruct (Qltb (clock w) cb) eqn:Hact.
  - destruct (Qltb timeout (cb - clock w)).
    + simplify_eq. unfold poll_post.
      repeat split; try reflexivity; try lra; eauto.
      exists b. split; [|reflexivity].
      symmetry. apply insert_id. exact Hb.
    + apply Qltb_lt in Hact. unfold sleep in Hp.
      assert (E : Qltb (cb - clock w) 0 = false) by (apply Qltb_ge; lra).
      rewrite E in Hp.
      eapply poll_inv in Hp; [|exact Hb].
      destruct Hp as (H1 & H2 & H3 & H4 & H5 & H6). simpl in *.
      unfold poll_post. repeat split; try assumption. lra.
  - eapply poll_inv; eassumption.
Qed.

Lemma clamp_timeout_le timeout : clamp_timeout timeout <= MAX_TIMEOUT.
Proof.
  unfold clamp_timeout. destruct (Qltb MAX_TIMEOUT timeout) eqn:E.
  - lra.
  - apply Qltb_ge in E. exact E.
Qed.

Lemma acquire_body_terminates fuel api_name timeout w :
  timeout <= MAX_TIMEOUT ->
  (poll_fuel <= fuel)%nat ->
  exists r w', acquire_body fuel api_name timeout w = Some (r, w').
Proof.
  intros Ht Hfuel.
  assert (Hk : inject_Z (Z.of_nat (Z.to_nat 30000)) * MIN_SLEEP
               == MAX_TIMEOUT).
  { rewrite Z2Nat.id by lia. reflexivity. }
  assert (Hlt : (Z.to_nat 30000 < fuel)%nat).
  { unfold poll_fuel in Hfuel. lia. }
  unfold acquire_body, bind, time_time, get_backoff, ret. simpl.
  set (cb := default 0 (backoff_until (limiter w) !! api_name)).
  destruct (Qltb (clock w) cb) eqn:Hact.
  - destruct (Qltb timeout (cb - clock w)); [eauto|].
    apply Qltb_lt in Hact. unfold sleep.
    assert (E : Qltb (cb - clock w) 0 = false) by (apply Qltb_ge; lra).
    rewrite E.
    apply (poll_terminates api_name timeout (clock w) (Z.to_nat 30000));
      [|exact Hlt].
    rewrite Hk. simpl. lra.
  - apply (poll_terminates api_name timeout (clock w) (Z.to_nat 30000));
      [|exact Hlt].
    rewrite Hk. lra.
Qed.

(** The world in which the caller holds a slot of the gate. *)
Lemma acquire_known fuel api_name timeout w b v :
  buckets (limiter w) !! api_name = Some b ->
  0 <= timeout ->
  waiters (limiter w) !! api_name = Some v ->
  v <> 0%Z ->
  acquire fuel api_name timeout w
  = try_finally (acquire_body fuel api_name (clamp_timeout timeout))
      (sem_release api_name)
      {| clock := clock w;
         limiter := with_waiters (limiter w)
                      (<[api_name := (v - 1)%Z]> (waiters (limiter w))) |}.
Proof.
  intros Hb Ht Hv Hv0. unfold acquire. rewrite Hb.
  apply Qltb_ge in Ht. rewrite Ht.
  unfold bind, sem_try_acquire. rewrite Hv.
  apply Z.eqb_neq in Hv0. rewrite Hv0. reflexivity.
Qed.

Lemma acquire_saturated fuel api_name timeout w b :
  buckets (limiter w) !! api_name = Some b ->
  0 <= timeout ->
  waiters (limiter w) !! api_name = Some 0%Z ->
  acquire fuel api_name timeout w = Some (Ok false, w).
Proof.
  intros Hb Ht Hv. unfold acquire, bind, sem_try_acquire.
  apply Qltb_ge in Ht. rewrite Hb, Ht, Hv. reflexivity.
Qed.

Lemma acquire_releases fuel api_name timeout w r w' :
  acquire fuel api_name timeout w = Some (r, w') ->
  waiters (limiter w') = waiters (limiter w).
Proof.
  intros Ha.
  destruct (buckets (limiter w) !! api_name) as [b|] eqn:Hb.
  2:{ unfold acquire in Ha. rewrite Hb in Ha. by simplify_eq. }
  destruct (Qltb timeout 0) eqn:Ht.
  { unfold acquire in Ha. rewrite Hb, Ht in Ha. by simplify_eq. }
  apply Qltb_ge in Ht.
  destruct (waiters (limiter w) !! api_name) as [v|] eqn:Hv.
  2:{ unfold acquire, bind, sem_try_acquire in Ha.
      apply Qltb_ge in Ht. rewrite Hb, Ht, Hv in Ha. by simplify_eq. }
  destruct (decide (v = 0%Z)) as [->|Hv0].
  { rewrite (acquire_saturated _ _ _ _ b) in Ha by assumption.
    by simplify_eq. }
  rewrite (acquire_known _ _ _ _ b v) in Ha by assumption.
  unfold try_finally in Ha.
  destruct (acquire_body _ _ _ _) as [[rb wb]|] eqn:Hbody; [|discriminate].
  apply (acquire_body_inv _ _ _ _ b) in Hbody; [|exact Hb].
  destruct Hbody as (Hw & _). simpl in Hw.
  unfold sem_release, set_limiter in Ha. rewrite Hw, lookup_insert_eq in Ha.
  simplify_eq. simpl. rewrite insert_insert_eq.
  replace (v - 1 + 1)%Z with v by lia. apply insert_id. exact Hv.
Qed.

Lemma acquire_terminates fuel api_name timeout w :
  (poll_fuel <= fuel)%nat ->
  exists r w', acquire fuel api_name timeout w = Some (r, w').
Proof.
  intros Hfuel.
  destruct (buckets (limiter w) !! api_name) as [b|] eqn:Hb.
  2:{ unfold acquire. rewrite Hb. eauto. }
  destruct (Qltb timeout 0) eqn:Ht.
  { unfold acquire. rewrite Hb, Ht. eauto. }
  destruct (waiters (limiter w) !! api_name) as [v|] eqn:Hv.
  2:{ unfold acquire, bind, sem_try_acquire. rewrite Hb, Ht, Hv. eauto. }
  destruct (decide (v = 0%Z)) as [->|Hv0].
  { apply Qltb_ge in Ht.
    rewrite (acquire_saturated _ _ _ _ b) by assumption. eauto. }
  apply Qltb_ge in Ht.
  rewrite (acquire_known _ _ _ _ b v) by assumption.
  unfold try_finally.
  destruct (acquire_body_terminates fuel api_name (clamp_timeout timeout)
              {| clock := clock w;
                 limiter := with_waiters (limiter w)
                   (<[api_name := (v - 1)%Z]> (waiters (limiter w))) |})
    as (rb & wb & Hbody); [apply clamp_timeout_le | exact Hfuel |].
  rewrite Hbody.
  apply (acquire_body_inv _ _ _ _ b) in Hbody; [|exact Hb].
  destruct Hbody as (Hw & _). simpl in Hw.
  unfold sem_release, set_limiter. rewrite Hw, lookup_insert_eq. eauto.
Qed.

Lemma acquire_invalid fuel api_name timeout w :
  buckets (limiter w) !! api_name = None \/ timeout < 0 ->
  acquire fuel api_name timeout w = Some (Raise ValueError, w).
Proof.
  intros [Hb|Ht]; unfold acquire.
  - rewrite Hb. reflexivity.
  - apply Qltb_lt in Ht. rewrite Ht.
    destruct (buckets (limiter w) !! api_name); reflexivity.
Qed.

Lemma acquire_valid_ok fuel api_name timeout w b r w' :
  wf (limiter w) ->
  buckets (limiter w) !! api_name = Some b ->
  0 <= timeout ->
  acquire fuel api_name timeout w = Some (r, w') ->
  exists ok, r = Ok ok.
Proof.
  intros Hwf Hb Ht Ha.
  destruct (Hwf _ _ Hb) as [Hrate [v Hv]].
  apply Qeq_bool_neq in Hrate.
  destruct (decide (v = 0%Z)) as [->|Hv0].
  { rewrite (acquire_saturated _ _ _ _ b) in Ha by assumption.
    simplify_eq. eauto. }
  rewrite (acquire_known _ _ _ _ b v) in Ha by assumption.
  unfold try_finally in Ha.
  destruct (acquire_body _ _ _ _) as [[rb wb]|] eqn:Hbody; [|discriminate].
  apply (acquire_body_inv _ _ _ _ b) in Hbody; [|exact Hb].
  destruct Hbody as (Hw & _ & _ & _ & _ & Hok). simpl in Hw.
  unfold sem_release, set_limiter in Ha. rewrite Hw, lookup_insert_eq in Ha.
  simplify_eq. apply Hok. exact Hrate.
Qed.

Lemma acquire_clamped fuel api_name timeout w :
  MAX_TIMEOUT < timeout ->
  acquire fuel api_name timeout w = acquire fuel api_name MAX_TIMEOUT w.
Proof.
  intros Ht. unfold acquire.
  destruct (buckets (limiter w) !! api_name); [|reflexivity].
  assert (E1 : Qltb timeout 0 = false)
    by (apply Qltb_ge; unfold MAX_TIMEOUT in Ht; lra).
  rewrite E1.
  assert (E2 : Qltb MAX_TIMEOUT 0 = false) by reflexivity.
  rewrite E2.
  assert (E3 : clamp_timeout timeout = clamp_timeout MAX_TIMEOUT).
  { unfold clamp_timeout. apply Qltb_lt in Ht. rewrite Ht. reflexivity. }
  rewrite E3. reflexivity.
Qed.

Lemma backoff_set_wf api_name deadline w :
  wf (limiter w) -> wf (limiter (backoff_set api_name deadline w)).
Proof. intros Hwf. exact Hwf. Qed.

(** [acquire] keeps the limiter well formed. *)
Lemma acquire_wf fuel api_name timeout w r w' :
  wf (limiter w) ->
  acquire fuel api_name timeout w = Some (r, w') ->
  wf (limiter w').
Proof.
  intros Hwf Ha.
  destruct (buckets (limiter w) !! api_name) as [b|] eqn:Hb.
  2:{ rewrite acquire_invalid in Ha by (left; exact Hb). by simplify_eq. }
  destruct (Qlt_le_dec timeout 0) as [Hneg|Ht].
  { rewrite acquire_invalid in Ha by (right; exact Hneg). by simplify_eq. }
  destruct (Hwf _ _ Hb) as [Hrate [v Hv]].
  destruct (decide (v = 0%Z)) as [->|Hv0].
  { rewrite (acquire_saturated _ _ _ _ b) in Ha by assumption.
    by simplify_eq. }
  pose proof (acquire_releases _ _ _ _ _ _ Ha) as Hgates.
  rewrite (acquire_known _ _ _ _ b v) in Ha by assumption.
  unfold try_finally in Ha.
  destruct (acquire_body _ _ _ _) as [[rb wb]|] eqn:Hbody; [|discriminate].
  apply (acquire_body_inv _ _ _ _ b) in Hbody; [|exact Hb].
  destruct Hbody as (Hw & _ & _ & _ & (b' & Hbk & Hr') & _).
  simpl in Hw, Hbk.
  unfold sem_release, set_limiter in Ha. rewrite Hw, lookup_insert_eq in Ha.
  assert (Hbk' : buckets (limiter w') = <[api_name := b']> (buckets (limiter w))).
  { simplify_eq. simpl. exact Hbk. }
  intros name x Hx. rewrite Hbk' in Hx. rewrite Hgates.
  destruct (decide (api_name = name)) as [<-|Hne].
  - rewrite lookup_insert_eq in Hx. injection Hx as <-.
    rewrite Hr'. split; [exact Hrate | eauto].
  - rewrite lookup_insert_ne in Hx by exact Hne. apply (Hwf _ _ Hx).
Qed.

End AcquireTheorems.

(** C6.  For a known service and a valid timeout:
    - when the gate of the service has no free slot ([MAX_WAITERS_PER_API]
      callers hold one, the counter is 0), [acquire] returns [False] at once:
      the world (clock, buckets, deadlines, gates) is unchanged;
    - [acquire] returns, within [poll_fuel] rounds of its loop;
    - however [acquire] ends (a value or an exception), the gates are as
      they were on entry: the slot taken has been given back. *)
Theorem acquire_waiter_gate (api_name : string) (timeout : Q)
    (w : RateLimiter.world) (b : TokenBucket.t) :
  RateLimiter.buckets (RateLimiter.limiter w) !! api_name = Some b ->
  0 <= timeout ->
  (RateLimiter.waiters (RateLimiter.limiter w) !! api_name = Some 0%Z ->
   forall fuel,
     RateLimiter.acquire fuel api_name timeout w = Some (Ok false, w)) /\
  (forall fuel,
     (RateLimiter.poll_fuel <= fuel)%nat ->
     exists r w', RateLimiter.acquire fuel api_name timeout w = Some (r, w')) /\
  (forall fuel r w',
     RateLimiter.acquire fuel api_name timeout w = Some (r, w') ->
     RateLimiter.waiters (RateLimiter.limiter w')
     = RateLimiter.waiters (RateLimiter.limiter w)).
Proof.
  intros Hb Ht. split; [|split].
  - intros Hv fuel. apply (acquire_saturated fuel api_name timeout w b);
      assumption.
  - intros fuel Hfuel. apply acquire_terminates. exact Hfuel.
  - intros fuel r w'. apply acquire_releases.
Qed.


(** ** RateLimiter: the constructor *)

Section InitFacts.
Import RateLimiter.

Lemma validate_ok l :
  validate l = Ok tt <-> Forall (fun item => valid_rpm (snd item)) l.
Proof.
  induction l as [|[k rpm] l IH]; simpl.
  - split; [constructor | reflexivity].
  - destruct (is_numeric rpm) eqn:E1; simpl.
    2:{ split; [discriminate|]. intros H. inversion H as [|? ? [Hn _]].
        simpl in Hn. congruence. }
    destruct (Qleb (as_number rpm) 0) eqn:E2.
    { split; [discriminate|]. intros H. inversion H as [|? ? (_ & Hp & _)].
      apply Qleb_le in E2. simpl in Hp. lra. }
    destruct (Qltb 10000 (as_number rpm)) eqn:E3.
    { split; [discriminate|]. intros H. inversion H as [|? ? (_ & _ & Hp)].
      apply Qltb_lt in E3. simpl in Hp. lra. }
    apply Qleb_gt in E2. apply Qltb_ge in E3.
    rewrite IH. split.
    + intros H. constructor; [|exact H]. repeat split; assumption.
    + intros H. inversion H. assumption.
Qed.

Lemma validate_raises l : validate l <> Ok tt -> validate l = Raise ValueError.
Proof.
  induction l as [|[k rpm] l IH]; simpl; [congruence|].
  destruct (negb (is_numeric rpm)); [reflexivity|].
  destruct (Qleb (as_number rpm) 0); [reflexivity|].
  destruct (Qltb 10000 (as_number rpm)); [reflexivity|]. exact IH.
Qed.

Lemma fold_add_service_other now l : forall rl name,
  name ∉ map fst l ->
  buckets (fold_left (add_service now) l rl) !! name = buckets rl !! name.
Proof.
  induction l as [|[k rpm] l IH]; intros rl name Hn; simpl; [reflexivity|].
  simpl in Hn. apply not_elem_of_cons in Hn as [Hk Hl].
  rewrite IH by exact Hl. simpl. apply lookup_insert_ne. congruence.
Qed.

Lemma fold_add_service_limits now l : forall rl,
  limits (fold_left (add_service now) l rl) = limits rl.
Proof.
  induction l as [|[k rpm] l IH]; intros rl; simpl; [reflexivity|].
  rewrite IH. reflexivity.
Qed.

Lemma fold_add_service_lookup now l : forall rl name rpm,
  NoDup (map fst l) ->
  (name, rpm) ∈ l ->
  buckets (fold_left (add_service now) l rl) !! name
  = Some (TokenBucket.init (as_number rpm / 60)
            (py_min 5 (as_number rpm / 12)) now).
Proof.
  induction l as [|[k v] l IH]; intros rl name rpm Hnd Hin.
  - inversion Hin.
  - simpl in Hnd. apply NoDup_cons in Hnd as [Hk Hnd].
    apply elem_of_cons in Hin as [Heq|Hin]; simpl.
    + injection Heq as -> ->.
      rewrite fold_add_service_other by exact Hk.
      simpl. apply lookup_insert_eq.
    + apply IH; assumption.
Qed.

Lemma add_service_wf now rl item :
  valid_rpm (snd item) -> wf rl -> wf (add_service now rl item).
Proof.
  destruct item as [k rpm]. intros (_ & Hpos & _) Hwf name b.
  unfold add_service. simpl. intros Hb.
  destruct (decide (k = name)) as [->|Hne].
  - rewrite lookup_insert_eq in Hb. injection Hb as <-. simpl. split.
    + destruct (Qeq_bool (as_number rpm / 60) 0) eqn:E; [|reflexivity].
      apply Qeq_bool_iff in E.
      assert (H0 : as_number rpm == as_number rpm / 60 * 60) by field.
      simpl in Hpos. rewrite E in H0. lra.
    + rewrite lookup_insert_eq. eauto.
  - rewrite lookup_insert_ne in Hb by exact Hne.
    destruct (Hwf _ _ Hb) as [Hr Hs]. split; [exact Hr|].
    rewrite lookup_insert_ne by exact Hne. exact Hs.
Qed.

Lemma fold_add_service_wf now l : forall rl,
  Forall (fun item => valid_rpm (snd item)) l ->
  wf rl -> wf (fold_left (add_service now) l rl).
Proof.
  induction l as [|item l IH]; intros rl Hv Hwf; simpl; [exact Hwf|].
  inversion Hv; subst. apply IH; [assumption|].
  apply add_service_wf; assumption.
Qed.

(** Every limiter the constructor returns is well formed. *)
Lemma init_wf limits now rl : init limits now = Ok rl -> wf rl.
Proof.
  unfold init. destruct (validate _) as [[]|e] eqn:Hv; [|discriminate].
  intros [= <-]. apply validate_ok in Hv.
  apply fold_add_service_wf; [exact Hv|].
  intros name b Hb. simpl in Hb. rewrite lookup_empty in Hb. discriminate.
Qed.

Lemma init_default now : init None now = Ok (default_limiter now).
Proof. reflexivity. Qed.

End InitFacts.

(** C10.  [self.limits] is the mapping given, or [API_LIMITS] when none or
    an empty one is given; its keys are pairwise distinct, as those of a
    dict are.  If the constructor returns a limiter, every entry
    [(name, rpm)] of it is numeric with [0 < rpm <= 10000] and has the
    bucket [TokenBucket(rpm / 60, min(5, rpm / 12))]: full, and of capacity
    at most 5.  If some entry is not numeric, is not positive or is above
    10000, the constructor raises [ValueError]. *)
Theorem init_buckets (limits : option (list (string * RateLimiter.pyval)))
    (now : Q) :
  NoDup (map fst (RateLimiter.effective_limits limits)) ->
  (forall rl,
     RateLimiter.init limits now = Ok rl ->
     RateLimiter.limits rl = RateLimiter.effective_limits limits /\
     forall name rpm,
       (name, rpm) ∈ RateLimiter.effective_limits limits ->
       RateLimiter.is_numeric rpm = true /\
       0 < RateLimiter.as_number rpm <= 10000 /\
       exists b,
         RateLimiter.buckets rl !! name = Some b /\
         TokenBucket.rate b = RateLimiter.as_number rpm / 60 /\
         TokenBucket.capacity b == Qmin 5 (RateLimiter.as_number rpm / 12) /\
         TokenBucket.capacity b <= 5 /\
         TokenBucket.tokens b = TokenBucket.capacity b /\
         TokenBucket.last_update b = now) /\
  ((exists name rpm,
      (name, rpm) ∈ RateLimiter.effective_limits limits /\
      (RateLimiter.is_numeric rpm = false \/
       RateLimiter.as_number rpm <= 0 \/
       10000 < RateLimiter.as_number rpm)) ->
   RateLimiter.init limits now = Raise ValueError).
Proof.
  intros Hnd. split.
  - intros rl Hinit. unfold RateLimiter.init in Hinit.
    destruct (RateLimiter.validate _) as [[]|e] eqn:Hv; [|discriminate].
    injection Hinit as <-. apply validate_ok in Hv. split.
    + apply fold_add_service_limits.
    + intros name rpm Hin.
      rewrite Forall_forall in Hv.
      destruct (Hv _ Hin) as (Hnum & Hpos & Hmax). simpl in *.
      repeat split; try assumption.
      eexists. split; [apply fold_add_service_lookup; eassumption|].
      simpl. repeat split.
      * apply py_min_Qmin.
      * apply py_min_le_l.
  - intros (name & rpm & Hin & Hbad). unfold RateLimiter.init.
    destruct (RateLimiter.validate _) as [[]|e] eqn:Hv.
    + exfalso. apply validate_ok in Hv. rewrite Forall_forall in Hv.
      destruct (Hv _ Hin) as (Hnum & Hpos & Hmax). simpl in *.
      destruct Hbad as [Hb|[Hb|Hb]]; [congruence | lra | lra].
    + rewrite validate_raises in Hv; [congruence|].
      rewrite Hv. discriminate.
Qed.

(** A saturated gate on the default limiter: the call is refused at once;
    and a call that gets through leaves the gates as they were. *)
Lemma acquire_waiter_gate_witness :
  let w0 := RateLimiter.default_world 1000 in
  let wsat :=
    {| RateLimiter.clock := 1000;
       RateLimiter.limiter :=
         RateLimiter.with_waiters (RateLimiter.default_limiter 1000)
           (<["kraken" := 0%Z]>
              (RateLimiter.waiters (RateLimiter.default_limiter 1000))) |} in
  RateLimiter.acquire 5 "kraken" 10 wsat = Some (Ok false, wsat) /\
  exists r w',
    RateLimiter.acquire RateLimiter.poll_fuel "kraken" 10 w0 = Some (r, w').
Proof.
  intros w0 wsat. split.
  - refine (proj1 (acquire_waiter_gate "kraken" 10 wsat
                     (TokenBucket.init (15 / 60) (py_min 5 (15 / 12)) 1000)
                     _ _) _ 5%nat).
    + vm_compute. reflexivity.
    + vm_compute. discriminate.
    + vm_compute. reflexivity.
  - refine (proj1 (proj2 (acquire_waiter_gate "kraken" 10 w0
                     (TokenBucket.init (15 / 60) (py_min 5 (15 / 12)) 1000)
                     _ _)) RateLimiter.poll_fuel _).
    + vm_compute. reflexivity.
    + vm_compute. discriminate.
    + apply le_n.
Defined.


(** A limit of 2 requests per minute gives a bucket of rate 2/60 and of
    capacity 2/12; a limit that is a string is refused. *)
Lemma init_buckets_witness :
  (exists rl b,
     RateLimiter.init (Some [("x", RateLimiter.PyInt 2)]) 0 = Ok rl /\
     RateLimiter.buckets rl !! "x" = Some b /\
     TokenBucket.rate b = 2 / 60 /\
     TokenBucket.capacity b == Qmin 5 (2 / 12)) /\
  RateLimiter.init (Some [("x", RateLimiter.PyStr "fast")]) 0
  = Raise ValueError.
Proof.
  split.
  - assert (Hnd : NoDup (map fst (RateLimiter.effective_limits
                                    (Some [("x", RateLimiter.PyInt 2)])))).
    { refine (bool_decide_unpack _ _). vm_compute. reflexivity. }
    destruct (RateLimiter.init (Some [("x", RateLimiter.PyInt 2)]) 0)
      as [rl|e] eqn:Hrl; [|vm_compute in Hrl; discriminate].
    destruct (proj1 (init_buckets (Some [("x", RateLimiter.PyInt 2)]) 0 Hnd)
                rl Hrl) as [_ H].
    destruct (H "x" (RateLimiter.PyInt 2)) as (_ & _ & b & Hb & Hr & Hc & _).
    + apply list_elem_of_singleton. reflexivity.
    + exists rl, b. repeat split; assumption.
  - refine (proj2 (init_buckets (Some [("x", RateLimiter.PyStr "fast")]) 0 _) _).
    + refine (bool_decide_unpack _ _). vm_compute. reflexivity.
    + exists "x", (RateLimiter.PyStr "fast"). split.
      * apply list_elem_of_singleton. reflexivity.
      * left. reflexivity.
Defined.

(** ** TTLCache: the ordered dict *)

Section OrderedDictFacts.
Import TTLCache.
Context {E : Type}.
Implicit Types (d : list (string * E)) (key k : string) (e : E).

Lemma od_get_None key d : od_get key d = None <-> key ∉ map fst d.
Proof.
  induction d as [|[k e] d IH]; simpl.
  - split; [intros _; apply not_elem_of_nil | reflexivity].
  - rewrite not_elem_of_cons. destruct (decide (k = key)) as [->|Hne].
    + split; [discriminate | intros [H _]; congruence].
    + rewrite IH. split; [intros H; split; [congruence | exact H] | tauto].
Qed.

Lemma od_get_Some key d e : od_get key d = Some e -> (key, e) ∈ d.
Proof.
  induction d as [|[k e'] d IH]; simpl; [discriminate|].
  destruct (decide (k = key)) as [->|Hne].
  - intros [= ->]. apply list_elem_of_here.
  - intros H. apply list_elem_of_further, IH, H.
Qed.

Lemma od_get_elem key d e :
  NoDup (map fst d) -> (key, e) ∈ d -> od_get key d = Some e.
Proof.
  induction d as [|[k e'] d IH]; simpl; intros Hnd Hin.
  - inversion Hin.
  - apply NoDup_cons in Hnd as [Hk Hnd].
    apply elem_of_cons in Hin as [[= -> ->]|Hin].
    + rewrite decide_True by reflexivity. reflexivity.
    + destruct (decide (k = key)) as [->|Hne]; [|apply IH; assumption].
      exfalso. apply Hk. apply (list_elem_of_fmap_2 fst) in Hin. exact Hin.
Qed.

Lemma od_mem_true key d : od_mem key d = true <-> key ∈ map fst d.
Proof.
  unfold od_mem. destruct (od_get key d) eqn:H.
  - split; [intros _|reflexivity].
    apply od_get_Some in H. apply (list_elem_of_fmap_2 fst) in H. exact H.
  - apply od_get_None in H. split; [discriminate | contradiction].
Qed.

Lemma od_mem_false key d : od_mem key d = false <-> key ∉ map fst d.
Proof.
  rewrite <- od_mem_true. destruct (od_mem key d); split; congruence.
Qed.

Lemma od_del_absent key d : key ∉ map fst d -> od_del key d = d.
Proof.
  induction d as [|[k e] d IH]; simpl; [reflexivity|].
  rewrite not_elem_of_cons. intros [Hne Hd].
  rewrite decide_False by congruence. rewrite IH by exact Hd. reflexivity.
Qed.

Lemma od_del_subset key d x : x ∈ od_del key d -> x ∈ d.
Proof.
  induction d as [|[k e] d IH]; simpl; [tauto|].
  destruct (decide (k = key)).
  - apply list_elem_of_further.
  - rewrite !elem_of_cons. intros [->|H]; [left; reflexivity | right; auto].
Qed.

Lemma od_del_keys_subset key d k : k ∈ map fst (od_del key d) -> k ∈ map fst d.
Proof.
  intros H. apply list_elem_of_fmap in H as (x & -> & Hx).
  apply list_elem_of_fmap_2, (od_del_subset key), Hx.
Qed.

Lemma od_del_NoDup key d : NoDup (map fst d) -> NoDup (map fst (od_del key d)).
Proof.
  induction d as [|[k e] d IH]; simpl; [tauto|].
  intros Hnd. apply NoDup_cons in Hnd as [Hk Hnd].
  destruct (decide (k = key)); [exact Hnd|]. simpl.
  apply NoDup_cons. split; [|apply IH, Hnd].
  intros H. apply Hk. eapply od_del_keys_subset, H.
Qed.

Lemma od_del_gone key d :
  NoDup (map fst d) -> key ∉ map fst (od_del key d).
Proof.
  induction d as [|[k e] d IH]; simpl; intros Hnd.
  - apply not_elem_of_nil.
  - apply NoDup_cons in Hnd as [Hk Hnd].
    destruct (decide (k = key)) as [->|Hne]; [exact Hk|]. simpl.
    apply not_elem_of_cons. split; [congruence | apply IH, Hnd].
Qed.

Lemma od_del_other key k d : k <> key -> od_get k (od_del key d) = od_get k d.
Proof.
  intros Hne. induction d as [|[k' e] d IH]; simpl; [reflexivity|].
  destruct (decide (k' = key)) as [->|Hne'].
  - rewrite decide_False by congruence. reflexivity.
  - simpl. destruct (decide (k' = k)); [reflexivity | exact IH].
Qed.

Lemma od_del_length key d :
  key ∈ map fst d -> S (length (od_del key d)) = length d.
Proof.
  induction d as [|[k e] d IH]; simpl; intros Hin; [inversion Hin|].
  destruct (decide (k = key)) as [->|Hne]; [reflexivity|]. simpl.
  apply elem_of_cons in Hin as [?|Hin]; [congruence|].
  rewrite IH by exact Hin. reflexivity.
Qed.

Lemma od_set_absent key e d : key ∉ map fst d -> od_set key e d = d ++ [(key, e)].
Proof.
  induction d as [|[k e'] d IH]; simpl; [reflexivity|].
  rewrite not_elem_of_cons. intros [Hne Hd].
  rewrite decide_False by congruence. rewrite IH by exact Hd. reflexivity.
Qed.

Lemma od_set_keys key e d : key ∈ map fst d -> map fst (od_set key e d) = map fst d.
Proof.
  induction d as [|[k e'] d IH]; simpl; intros Hin; [inversion Hin|].
  destruct (decide (k = key)) as [->|Hne]; [reflexivity|]. simpl.
  apply elem_of_cons in Hin as [?|Hin]; [congruence|].
  rewrite IH by exact Hin. reflexivity.
Qed.

Lemma od_set_get key e d : od_get key (od_set key e d) = Some e.
Proof.
  induction d as [|[k e'] d IH]; simpl.
  - rewrite decide_True by reflexivity. reflexivity.
  - destruct (decide (k = key)) as [->|Hne]; simpl.
    + rewrite decide_True by reflexivity. reflexivity.
    + rewrite decide_False by exact Hne. exact IH.
Qed.

Lemma od_set_del key e d : od_del key (od_set key e d) = od_del key d.
Proof.
  induction d as [|[k e'] d IH]; simpl.
  - rewrite decide_True by reflexivity. reflexivity.
  - destruct (decide (k = key)) as [->|Hne]; simpl.
    + rewrite decide_True by reflexivity. reflexivity.
    + rewrite decide_False by exact Hne. rewrite IH. reflexivity.
Qed.

(** [d[key] = e] followed by [d.move_to_end(key)]. *)
Lemma od_set_move key e d :
  od_move_to_end key (od_set key e d) = od_del key d ++ [(key, e)].
Proof. unfold od_move_to_end. rewrite od_set_get, od_set_del. reflexivity. Qed.

Lemma od_get_app_last key k e d :
  k <> key -> od_get k (d ++ [(key, e)]) = od_get k d.
Proof.
  intros Hne. induction d as [|[k' e'] d IH]; simpl.
  - rewrite decide_False by congruence. reflexivity.
  - destruct (decide (k' = k)); [reflexivity | exact IH].
Qed.

End OrderedDictFacts.

(** ** TTLCache: sweeping and the invariant *)

Section CacheFacts.
Import TTLCache.
Context {V : Type}.
Implicit Types (c : TTLCache.t V) (d : list (string * (V * Q))).

Lemma evict_fold (ks : list string) : forall c,
  fold_left (fun c key => add_eviction (with_cache c (od_del key (cache c))))
    ks c
  = {| max_size := max_size c; default_ttl := default_ttl c;
       cache := fold_left (fun d key => od_del key d) ks (cache c);
       hits := hits c; misses := misses c;
       evictions := evictions c + Z.of_nat (length ks) |}.
Proof.
  induction ks as [|k ks IH]; intros c.
  - destruct c. simpl. f_equal. lia.
  - cbn [fold_left]. rewrite IH. simpl. f_equal. lia.
Qed.

Lemma del_fold_cons (ks : list string) k e : forall d,
  k ∉ ks ->
  fold_left (fun d key => od_del key d) ks ((k, e) :: d)
  = (k, e) :: fold_left (fun d key => od_del key d) ks d.
Proof.
  induction ks as [|k' ks IH]; intros d Hk; [reflexivity|].
  apply not_elem_of_cons in Hk as [Hne Hk]. simpl.
  rewrite decide_False by exact Hne. apply IH, Hk.
Qed.

Lemma del_expired now d :
  NoDup (map fst d) ->
  fold_left (fun d key => od_del key d)
    (map fst (List.filter (item_expired now) d)) d
  = live now d.
Proof.
  unfold live. induction d as [|[k e] d IH]; intros Hnd; [reflexivity|].
  simpl in Hnd. apply NoDup_cons in Hnd as [Hk Hnd].
  simpl. destruct (item_expired now (k, e)) eqn:Hx; simpl.
  - rewrite decide_True by reflexivity. apply IH, Hnd.
  - rewrite del_fold_cons.
    + rewrite IH by exact Hnd. reflexivity.
    + intros Hin. apply Hk.
      apply list_elem_of_fmap in Hin as (x & -> & Hx').
      apply list_elem_of_fmap_2.
      apply list_elem_of_In, filter_In in Hx' as [Hx' _].
      apply list_elem_of_In, Hx'.
Qed.

(** [_evict_expired] keeps the live entries, in order, and counts one
    eviction for each entry it removes. *)
Lemma evict_expired_spec now c :
  NoDup (keys c) ->
  _evict_expired now c
  = {| max_size := max_size c; default_ttl := default_ttl c;
       cache := live now (cache c);
       hits := hits c; misses := misses c;
       evictions := evictions c + expired_count now (cache c) |}.
Proof.
  intros Hnd. unfold _evict_expired. rewrite evict_fold.
  rewrite del_expired by exact Hnd.
  unfold expired_count. rewrite length_map. reflexivity.
Qed.

Lemma live_subset now d x : x ∈ live now d -> x ∈ d.
Proof.
  unfold live. rewrite !list_elem_of_In, filter_In. tauto.
Qed.

Lemma live_NoDup now d : NoDup (map fst d) -> NoDup (map fst (live now d)).
Proof.
  unfold live. induction d as [|[k e] d IH]; simpl; [tauto|].
  intros Hnd. apply NoDup_cons in Hnd as [Hk Hnd].
  destruct (negb (item_expired now (k, e))); [|apply IH, Hnd].
  simpl. apply NoDup_cons. split; [|apply IH, Hnd].
  intros Hin. apply Hk.
  apply list_elem_of_fmap in Hin as (x & -> & Hx).
  apply list_elem_of_fmap_2, (live_subset now), Hx.
Qed.

Lemma live_length now d : (length (live now d) <= length d)%nat.
Proof. apply filter_length_le. Qed.

Lemma live_app now d1 d2 : live now (d1 ++ d2) = live now d1 ++ live now d2.
Proof. unfold live. apply List.filter_app. Qed.

Lemma live_id now d :
  Forall (fun item => now <= snd (snd item)) d -> live now d = d.
Proof.
  unfold live. induction 1 as [|x d Hx Hd IH]; [reflexivity|].
  simpl. unfold item_expired at 1.
  apply Qltb_ge in Hx. rewrite Hx. simpl. rewrite IH. reflexivity.
Qed.

Lemma expired_count_zero now d :
  Forall (fun item => now <= snd (snd item)) d -> expired_count now d = 0%Z.
Proof.
  unfold expired_count. induction 1 as [|x d Hx Hd IH]; [reflexivity|].
  simpl. unfold item_expired at 1.
  apply Qltb_ge in Hx. rewrite Hx. exact IH.
Qed.

End CacheFacts.

Section SetFacts.
Import TTLCache.
Context {V : Type}.
Implicit Types (c : TTLCache.t V) (d : list (string * (V * Q))).

Lemma effective_ttl_bounds ttl c :
  (0 <= match ttl with Some x => x | None => default_ttl c end)%Z ->
  (0 <= effective_ttl ttl c <= MAX_TTL)%Z.
Proof.
  intros H. unfold effective_ttl.
  destruct (Z.ltb_spec MAX_TTL
              (match ttl with Some x => x | None => default_ttl c end));
    unfold MAX_TTL in *; lia.
Qed.

(** With a TTL that is not negative, [set] passes its checks. *)
Lemma set_unfold now key value ttl c :
  (0 <= match ttl with Some x => x | None => default_ttl c end)%Z ->
  set now key value ttl c
  = match (if od_mem key (cache (_evict_expired now c))
           then Ok (_evict_expired now c)
           else _evict_lru (_evict_expired now c)) with
    | Raise e => Raise e
    | Ok c2 =>
        Ok (with_cache c2
              (od_move_to_end key
                 (od_set key (value, now + inject_Z (effective_ttl ttl c))
                    (cache c2))))
    end.
Proof.
  intros Httl. pose proof (effective_ttl_bounds ttl c Httl) as [Hlo Hhi].
  unfold set. fold (effective_ttl ttl c).
  apply Z.ltb_ge in Httl. rewrite Httl.
  assert (E1 : Qltb (now + inject_Z (effective_ttl ttl c)) now = false).
  { apply Qltb_ge. rewrite Zle_Qle in Hlo. simpl in Hlo.
    change (inject_Z 0) with 0 in Hlo. lra. }
  assert (E2 : Qltb (now + inject_Z MAX_TTL)
                 (now + inject_Z (effective_ttl ttl c)) = false).
  { apply Qltb_ge. rewrite Zle_Qle in Hhi. lra. }
  rewrite E1, E2. reflexivity.
Qed.

Lemma set_negative_ttl now key value ttl c :
  (match ttl with Some x => x | None => default_ttl c end < 0)%Z ->
  set now key value ttl c = Raise ValueError.
Proof.
  intros H. unfold set. apply Z.ltb_lt in H. rewrite H. reflexivity.
Qed.

(** What a successful [set] does: the sweep, then one of three cases. *)
Lemma set_cases now key value ttl c c' :
  NoDup (keys c) ->
  set now key value ttl c = Ok c' ->
  let entry := (key, (value, now + inject_Z (effective_ttl ttl c))) in
  let lv := live now (cache c) in
  let n := expired_count now (cache c) in
  max_size c' = max_size c /\ default_ttl c' = default_ttl c /\
  hits c' = hits c /\ misses c' = misses c /\
  ((key ∈ map fst lv /\
    cache c' = od_del key lv ++ [entry] /\
    evictions c' = (evictions c + n)%Z) \/
   ((key ∉ map fst lv) /\
    (Z.of_nat (length lv) < max_size c)%Z /\
    cache c' = lv ++ [entry] /\
    evictions c' = (evictions c + n)%Z) \/
   ((key ∉ map fst lv) /\
    (max_size c <= Z.of_nat (length lv))%Z /\
    exists lru rest,
      lv = lru :: rest /\
      cache c' = rest ++ [entry] /\
      evictions c' = (evictions c + n + 1)%Z)).
Proof.
  intros Hnd Hset entry lv n.
  destruct (Z.ltb_spec (match ttl with Some x => x | None => default_ttl c end) 0)
    as [Hneg|Hpos].
  { rewrite set_negative_ttl in Hset by exact Hneg. discriminate. }
  rewrite set_unfold in Hset by exact Hpos.
  rewrite evict_expired_spec in Hset by exact Hnd. simpl in Hset.
  fold lv n in Hset.
  destruct (od_mem key lv) eqn:Hmem.
  - injection Hset as <-. simpl. repeat split.
    left. apply od_mem_true in Hmem. repeat split; [exact Hmem|].
    apply od_set_move.
  - apply od_mem_false in Hmem.
    unfold _evict_lru in Hset. simpl in Hset.
    destruct (Z.leb_spec (max_size c) (Z.of_nat (length lv))) as [Hfull|Hroom].
    + destruct lv as [|lru rest] eqn:Hlv; simpl in Hset; [discriminate|].
      injection Hset as <-. simpl. repeat split.
      right. right. repeat split; [exact Hmem | exact Hfull |].
      exists lru, rest. repeat split.
      simpl in Hmem. apply not_elem_of_cons in Hmem as [_ Hmem].
      rewrite od_set_move, od_del_absent by exact Hmem. reflexivity.
    + injection Hset as <-. simpl. repeat split.
      right. left. repeat split; [exact Hmem | exact Hroom |].
      rewrite od_set_move, od_del_absent by exact Hmem. reflexivity.
Qed.

Lemma set_returns now key value ttl c :
  (0 < max_size c)%Z ->
  (0 <= match ttl with Some x => x | None => default_ttl c end)%Z ->
  exists c', set now key value ttl c = Ok c'.
Proof.
  intros Hmax Httl. rewrite set_unfold by exact Httl.
  destruct (od_mem key (cache (_evict_expired now c))); [eauto|].
  unfold _evict_lru.
  destruct (Z.leb_spec (max_size (_evict_expired now c))
              (Z.of_nat (length (cache (_evict_expired now c)))))
    as [Hfull|Hroom]; [|eauto].
  destruct (cache (_evict_expired now c)) as [|x rest] eqn:Hc; [|simpl; eauto].
  exfalso. simpl in Hfull.
  assert (Hm : max_size (_evict_expired now c) = max_size c).
  { unfold _evict_expired. rewrite evict_fold. reflexivity. }
  lia.
Qed.

End SetFacts.

(** ** TTLCache: get *)

Section GetFacts.
Import TTLCache.
Context {V : Type}.
Implicit Types (c : TTLCache.t V) (d : list (string * (V * Q))).

Lemma get_absent now key c :
  od_get key (cache c) = None -> get now key c = (None, add_miss c).
Proof. intros H. unfold get. rewrite H. reflexivity. Qed.

Lemma get_expired now key c value expiry :
  od_get key (cache c) = Some (value, expiry) ->
  expiry < now ->
  get now key c
  = (None,
     add_miss (add_eviction (with_cache c (od_del key (cache c))))).
Proof.
  intros H Hx. unfold get, _is_expired. rewrite H.
  apply Qltb_lt in Hx. rewrite Hx.
  assert (E : Qeq_bool expiry expiry = true)
    by (apply Qeq_bool_iff; reflexivity).
  rewrite E. reflexivity.
Qed.

Lemma get_live now key c value expiry :
  od_get key (cache c) = Some (value, expiry) ->
  now <= expiry ->
  get now key c
  = (Some value,
     add_hit (with_cache c (od_del key (cache c) ++ [(key, (value, expiry))]))).
Proof.
  intros H Hx. unfold get, _is_expired, od_move_to_end. rewrite H.
  apply Qltb_ge in Hx. rewrite Hx. reflexivity.
Qed.

Lemma get_hit_inv now key c value c' :
  get now key c = (Some value, c') ->
  exists expiry,
    od_get key (cache c) = Some (value, expiry) /\ now <= expiry /\
    c' = add_hit (with_cache c
                    (od_del key (cache c) ++ [(key, (value, expiry))])).
Proof.
  intros H. destruct (od_get key (cache c)) as [[v e]|] eqn:Hg.
  - destruct (Qlt_le_dec e now) as [Hx|Hx].
    + rewrite (get_expired _ _ _ _ _ Hg Hx) in H. discriminate.
    + rewrite (get_live _ _ _ _ _ Hg Hx) in H. injection H as <- <-.
      exists e. repeat split; assumption.
  - rewrite get_absent in H by exact Hg. discriminate.
Qed.

End GetFacts.

(** C2, as amended.  On a cache whose keys are distinct:
    - if the key is present and its expiry is strictly before [now], [get]
      removes the entry, counts one eviction and one miss, leaves the other
      entries and the hit counter alone, and returns [None];
    - if [get] returns a value, the key was present with that value and an
      expiry at or after [now]; and a present key whose expiry is at or
      after [now] is returned;
    - if the key is absent, [get] counts a miss and returns [None]. *)
Theorem get_expired_or_absent {V : Type} (now : Q) (key : string)
    (c : TTLCache.t V) :
  NoDup (TTLCache.keys c) ->
  (forall value expiry,
     TTLCache.od_get key (TTLCache.cache c) = Some (value, expiry) ->
     expiry < now ->
     exists c',
       TTLCache.get now key c = (None, c') /\
       TTLCache.od_get key (TTLCache.cache c') = None /\
       (forall k, k <> key ->
          TTLCache.od_get k (TTLCache.cache c')
          = TTLCache.od_get k (TTLCache.cache c)) /\
       TTLCache.evictions c' = (TTLCache.evictions c + 1)%Z /\
       TTLCache.misses c' = (TTLCache.misses c + 1)%Z /\
       TTLCache.hits c' = TTLCache.hits c) /\
  (forall value c',
     TTLCache.get now key c = (Some value, c') ->
     exists expiry,
       TTLCache.od_get key (TTLCache.cache c) = Some (value, expiry) /\
       now <= expiry) /\
  (forall value expiry,
     TTLCache.od_get key (TTLCache.cache c) = Some (value, expiry) ->
     now <= expiry ->
     fst (TTLCache.get now key c) = Some value) /\
  (TTLCache.od_get key (TTLCache.cache c) = None ->
   TTLCache.get now key c = (None, TTLCache.add_miss c)).
Proof.
  intros Hnd. repeat split.
  - intros value expiry Hg Hx. eexists. split; [eapply get_expired; eassumption|].
    simpl. repeat split.
    + apply od_get_None, od_del_gone, Hnd.
    + intros k Hk. apply od_del_other. exact Hk.
  - intros value c' H. apply get_hit_inv in H as (e & Hg & Hx & _). eauto.
  - intros value expiry Hg Hx. rewrite (get_live _ _ _ _ _ Hg Hx). reflexivity.
  - apply get_absent.
Qed.

(** An entry that expired a second ago is evicted by [get]. *)
Lemma get_expired_or_absent_witness :
  let c := TTLCache.mk 10 300 [("k", (7%Z, 4))] 0 0 0 in
  exists c',
    TTLCache.get 5 "k" c = (None, c') /\
    TTLCache.od_get "k" (TTLCache.cache c') = None /\
    TTLCache.evictions c' = 1%Z /\
    TTLCache.misses c' = 1%Z.
Proof.
  intros c.
  assert (Hnd : NoDup (TTLCache.keys c)).
  { refine (bool_decide_unpack _ _). vm_compute. reflexivity. }
  destruct (proj1 (get_expired_or_absent 5 "k" c Hnd) 7%Z 4)
    as (c' & H1 & H2 & _ & H3 & H4 & _).
  - reflexivity.
  - reflexivity.
  - exists c'. repeat split; assumption.
Defined.

(** C2 as stated fails at the boundary: the test is [time.time() > expiry],
    so an entry whose expiry equals [now] is still served.  [set] with
    [ttl=0] at clock reading 5 stores expiry 5; [get] at clock reading 5
    returns the value and counts a hit, no eviction and no miss. *)
Lemma get_serves_entry_expiring_now :
  let c0 : TTLCache.t Z := TTLCache.mk 10 300 [] 0 0 0 in
  let c1 : TTLCache.t Z := TTLCache.mk 10 300 [("k", (7%Z, 5))] 0 0 0 in
  let c2 : TTLCache.t Z := TTLCache.mk 10 300 [("k", (7%Z, 5))] 1 0 0 in
  TTLCache.init 10 300 = Ok c0 /\
  TTLCache.set 5 "k" 7%Z (Some 0%Z) c0 = Ok c1 /\
  TTLCache.od_get "k" (TTLCache.cache c1) = Some (7%Z, 5) /\
  5 <= 5 /\
  TTLCache.get 5 "k" c1 = (Some 7%Z, c2).
Proof.
  intros c0 c1 c2. repeat split.
  vm_compute. discriminate.
Qed.

(** ** TTLCache: statistics *)

Section StatsFacts.
Import TTLCache.

Lemma round_half_even_close (q : Q) :
  Qabs (inject_Z (round_half_even q) - q) <= 1 # 2.
Proof.
  pose proof (Qfloor_le q) as Hlo. pose proof (Qlt_floor q) as Hhi.
  rewrite inject_Z_plus in Hhi. change (inject_Z 1) with 1 in Hhi.
  unfold round_half_even.
  destruct (Qltb (q - inject_Z (Qfloor q)) (1 # 2)) eqn:E1.
  { apply Qltb_lt in E1. apply Qabs_Qle_condition. split; lra. }
  apply Qltb_ge in E1.
  destruct (Qltb (1 # 2) (q - inject_Z (Qfloor q))) eqn:E2.
  { apply Qltb_lt in E2. rewrite inject_Z_plus.
    change (inject_Z 1) with 1. apply Qabs_Qle_condition. split; lra. }
  apply Qltb_ge in E2.
  destruct (Z.even (Qfloor q)).
  - apply Qabs_Qle_condition. split; lra.
  - rewrite inject_Z_plus. change (inject_Z 1) with 1.
    apply Qabs_Qle_condition. split; lra.
Qed.

(** Powers of two. *)
Lemma pow2_pos (e : Z) : 0 < 2 ^ e.
Proof. apply Qpower_0_lt. reflexivity. Qed.

Lemma pow2_plus (a b : Z) : 2 ^ (a + b) == 2 ^ a * 2 ^ b.
Proof. apply Qpower_plus. discriminate. Qed.

Lemma pow2_le (a b : Z) : (a <= b)%Z -> 2 ^ a <= 2 ^ b.
Proof. intros H. apply Qpower_le_compat_l; [exact H | discriminate]. Qed.

(** The exponent [ilog2] finds is not above the number. *)
Lemma ilog2_lower (x : Q) : 0 < x -> 2 ^ ilog2 x <= x.
Proof.
  intros Hx. unfold ilog2.
  set (n := Qnum x). set (d := Z.pos (Qden x)).
  destruct (Qle_bool (2 ^ (Z.log2 n - Z.log2 d)) x) eqn:E;
    [apply Qle_bool_iff; exact E|].
  assert (Hn : (0 < n)%Z).
  { subst n. destruct x as [xn xd]. unfold Qlt in Hx. simpl in *. lia. }
  assert (Hd : (0 < d)%Z) by (subst d; lia).
  destruct (Z.log2_spec n Hn) as [Hn1 _].
  destruct (Z.log2_spec d Hd) as [_ Hd2].
  assert (Ex : x == inject_Z n / inject_Z d).
  { subst n d. destruct x. apply Qmake_Qdiv. }
  replace (Z.log2 n - Z.log2 d - 1)%Z
    with (Z.log2 n + - Z.succ (Z.log2 d))%Z by lia.
  rewrite pow2_plus, Qpower_opp. change 2 with (inject_Z 2).
  rewrite <- !Zpower_Qpower
    by first [apply Z.log2_nonneg | apply Z.le_le_succ_r, Z.log2_nonneg].
  set (A := (2 ^ Z.log2 n)%Z) in *. set (D := (2 ^ Z.succ (Z.log2 d))%Z) in *.
  assert (HD : 0 < inject_Z D).
  { change 0 with (inject_Z 0). rewrite <- Zlt_Qlt. lia. }
  assert (Hd' : 0 < inject_Z d).
  { change 0 with (inject_Z 0). rewrite <- Zlt_Qlt. lia. }
  rewrite Ex. apply Qle_shift_div_r; [exact HD|].
  assert (E' : inject_Z n / inject_Z d * inject_Z D
               == inject_Z n * inject_Z D / inject_Z d).
  { field. intros H0. rewrite H0 in Hd'. discriminate. }
  rewrite E'. apply Qle_shift_div_l; [exact Hd'|].
  rewrite <- !inject_Z_mult, <- Zle_Qle. nia.
Qed.

(** The exponent [ilog2] finds is the floor of the binary logarithm. *)
Lemma ilog2_upper (x : Q) : 0 < x -> x < 2 ^ (ilog2 x + 1).
Proof.
  intros Hx. unfold ilog2.
  set (n := Qnum x). set (d := Z.pos (Qden x)).
  destruct (Qle_bool (2 ^ (Z.log2 n - Z.log2 d)) x) eqn:E.
  2:{ replace (Z.log2 n - Z.log2 d - 1 + 1)%Z
        with (Z.log2 n - Z.log2 d)%Z by lia.
      apply Qnot_le_lt. intros H. apply Qle_bool_iff in H. congruence. }
  assert (Hn : (0 < n)%Z).
  { subst n. destruct x as [xn xd]. unfold Qlt in Hx. simpl in *. lia. }
  assert (Hd : (0 < d)%Z) by (subst d; lia).
  destruct (Z.log2_spec n Hn) as [_ Hn2].
  destruct (Z.log2_spec d Hd) as [Hd1 _].
  assert (Ex : x == inject_Z n / inject_Z d).
  { subst n d. destruct x. apply Qmake_Qdiv. }
  replace (Z.log2 n - Z.log2 d + 1)%Z
    with (Z.succ (Z.log2 n) + - Z.log2 d)%Z by lia.
  rewrite pow2_plus, Qpower_opp. change 2 with (inject_Z 2).
  rewrite <- !Zpower_Qpower
    by first [apply Z.log2_nonneg | apply Z.le_le_succ_r, Z.log2_nonneg].
  set (A := (2 ^ Z.succ (Z.log2 n))%Z) in *. set (D := (2 ^ Z.log2 d)%Z) in *.
  assert (HD0 : (0 < D)%Z)
    by (subst D; apply Z.pow_pos_nonneg; [lia | apply Z.log2_nonneg]).
  assert (HD : 0 < inject_Z D).
  { change 0 with (inject_Z 0). rewrite <- Zlt_Qlt. exact HD0. }
  assert (Hd' : 0 < inject_Z d).
  { change 0 with (inject_Z 0). rewrite <- Zlt_Qlt. lia. }
  rewrite Ex. apply Qlt_shift_div_l; [exact HD|].
  assert (E' : inject_Z n / inject_Z d * inject_Z D
               == inject_Z n * inject_Z D / inject_Z d).
  { field. intros H0. rewrite H0 in Hd'. discriminate. }
  rewrite E'. apply Qlt_shift_div_r; [exact Hd'|].
  rewrite <- !inject_Z_mult, <- Zlt_Qlt.
  assert (H1 : (n * D <= n * d)%Z) by (apply Z.mul_le_mono_nonneg_l; lia).
  assert (H2 : (n * d < A * d)%Z) by (apply Z.mul_lt_mono_pos_r; lia).
  lia.
Qed.

Lemma ilog2_lt (x : Q) (E : Z) : 0 < x -> x < 2 ^ E -> (ilog2 x < E)%Z.
Proof.
  intros Hx Hlt. apply (Qpower_lt_compat_l_inv 2); [|reflexivity].
  eapply Qle_lt_trans; [apply ilog2_lower; exact Hx | exact Hlt].
Qed.

Lemma round_half_even_nonneg (q : Q) :
  0 <= q -> (0 <= round_half_even q)%Z.
Proof.
  intros Hq. pose proof (round_half_even_close q) as H.
  apply Qabs_Qle_condition in H as [H _].
  destruct (Z_lt_le_dec (round_half_even q) 0) as [Hneg|]; [|assumption].
  assert (Hle : inject_Z (round_half_even q) <= inject_Z (-1)).
  { rewrite <- Zle_Qle. lia. }
  change (inject_Z (-1)) with (-(1)) in Hle. lra.
Qed.

(** Rounding to a double moves a number below [2 ^ E] by at most
    [2 ^ (E - 54)], half a unit in the last place, and keeps it from going
    negative. *)
Lemma double_close (x : Q) (E : Z) :
  0 <= x -> x < 2 ^ E -> (-1021 <= E)%Z ->
  0 <= double x /\ Qabs (double x - x) <= 2 ^ (E - 54).
Proof.
  intros Hx Hlt HE. unfold double.
  destruct (Qeq_bool x 0) eqn:E0.
  { apply Qeq_bool_iff in E0. split; [lra|].
    pose proof (pow2_pos (E - 54)) as Hp.
    apply Qabs_Qle_condition. split; lra. }
  apply Qeq_bool_neq in E0.
  assert (Hpos : 0 < x) by lra.
  assert (He0 : (ilog2 (Qabs x) < E)%Z).
  { apply ilog2_lt; rewrite Qabs_pos by exact Hx; assumption. }
  set (e := Z.max (ilog2 (Qabs x)) (-1022)).
  assert (He : (e - 53 <= E - 54)%Z) by (subst e; lia).
  set (u := 2 ^ (e - 52)).
  assert (Hu : 0 < u) by apply pow2_pos.
  assert (Hhalf : u * (1 # 2) <= 2 ^ (E - 54)).
  { eapply Qle_trans; [|apply pow2_le; exact He].
    subst u. replace (e - 52)%Z with (e - 53 + 1)%Z by lia.
    rewrite pow2_plus. change (2 ^ 1) with 2.
    pose proof (pow2_pos (e - 53)). lra. }
  set (y := x / u).
  assert (Hyx : y * u == x).
  { subst y. field. lra. }
  assert (Hy : 0 <= y).
  { subst y. apply Qle_shift_div_l; [exact Hu | lra]. }
  pose proof (round_half_even_close y) as Hk.
  apply Qabs_Qle_condition in Hk as [Hk1 Hk2].
  pose proof (round_half_even_nonneg y Hy) as Hk0.
  set (k := inject_Z (round_half_even y)) in *.
  assert (Hk0' : 0 <= k).
  { subst k. change 0 with (inject_Z 0). rewrite <- Zle_Qle. exact Hk0. }
  split.
  - apply Qmult_le_0_compat; lra.
  - assert (H1 : (k - y) * u <= (1 # 2) * u)
      by (apply Qmult_le_compat_r; lra).
    assert (H2 : (-(1 # 2)) * u <= (k - y) * u)
      by (apply Qmult_le_compat_r; lra).
    assert (Eq : k * u - x == (k - y) * u) by (rewrite <- Hyx; ring).
    apply Qabs_Qle_condition. rewrite Eq. split; lra.
Qed.

End StatsFacts.

(** C9, as amended.  [get_stats] returns the number of entries as size, the
    configured bound, the hit, miss and eviction counters, and under
    [hit_rate_percent] the rate as a percentage rounded to two decimals,
    computed on floats: [round(hits / (hits + misses) * 100, 2)].  With
    counters that are not negative and [hits + misses > 0] this is the
    double nearest to a whole number of hundredths between 0 and 100, which
    lies within 0.005 of the exact percentage, up to the rounding of the
    float operations (less than 1e-12); with [hits + misses = 0] it is
    0. *)
Theorem get_stats_fields {V : Type} (c : TTLCache.t V) :
  let s := TTLCache.get_stats c in
  let total := (TTLCache.hits c + TTLCache.misses c)%Z in
  let percent := inject_Z (TTLCache.hits c) / inject_Z total * 100 in
  TTLCache.st_size s = Z.of_nat (length (TTLCache.cache c)) /\
  TTLCache.st_max_size s = TTLCache.max_size c /\
  TTLCache.st_hits s = TTLCache.hits c /\
  TTLCache.st_misses s = TTLCache.misses c /\
  TTLCache.st_evictions s = TTLCache.evictions c /\
  ((0 < total)%Z ->
   TTLCache.st_hit_rate_percent s
   = TTLCache.py_round2
       (TTLCache.float_mul
          (TTLCache.int_truediv (TTLCache.hits c) total) 100)) /\
  ((0 < total)%Z ->
   (0 <= TTLCache.hits c)%Z -> (0 <= TTLCache.misses c)%Z ->
   exists k : Z,
     (0 <= k <= 10000)%Z /\
     TTLCache.st_hit_rate_percent s = TTLCache.double (inject_Z k / 100) /\
     Qabs (inject_Z k / 100 - percent) <= (1 # 200) + (1 # 1000000000000) /\
     Qabs (TTLCache.st_hit_rate_percent s - percent)
     <= (1 # 200) + (1 # 1000000000000)) /\
  (total = 0%Z -> TTLCache.st_hit_rate_percent s == 0).
Proof.
  intros s total percent. do 5 (split; [reflexivity|]).
  assert (Hrate : (0 < total)%Z ->
            TTLCache.st_hit_rate_percent s
            = TTLCache.py_round2
                (TTLCache.float_mul
                   (TTLCache.int_truediv (TTLCache.hits c) total) 100)).
  { intros Hpos. unfold s, TTLCache.get_stats. simpl. fold total.
    apply Z.ltb_lt in Hpos. rewrite Hpos. reflexivity. }
  split; [exact Hrate|]. split.
  - intros Hpos Hh Hm. rewrite (Hrate Hpos).
    set (q0 := inject_Z (TTLCache.hits c) / inject_Z total).
    assert (Ht : 0 < inject_Z total).
    { change 0 with (inject_Z 0). rewrite <- Zlt_Qlt. exact Hpos. }
    assert (Hq0 : 0 <= q0 <= 1).
    { subst q0. split.
      - apply Qle_shift_div_l; [exact Ht|]. rewrite Qmult_0_l.
        change 0 with (inject_Z 0). rewrite <- Zle_Qle. exact Hh.
      - apply Qle_shift_div_r; [exact Ht|]. rewrite Qmult_1_l.
        rewrite <- Zle_Qle. subst total. lia. }
    assert (E53 : 2 ^ (1 - 54) == 1 # 9007199254740992) by reflexivity.
    assert (E47 : 2 ^ (7 - 54) == 1 # 140737488355328) by reflexivity.
    assert (E1 : 2 ^ 1 == 2) by reflexivity.
    assert (E7 : 2 ^ 7 == 128) by reflexivity.
    unfold TTLCache.int_truediv, TTLCache.float_mul, TTLCache.py_round2.
    fold q0.
    destruct (double_close q0 1) as [Hq Hqe]; [lra | rewrite E1; lra | lia |].
    rewrite E53 in Hqe. apply Qabs_Qle_condition in Hqe as [Hqe1 Hqe2].
    set (q := TTLCache.double q0) in *.
    destruct (double_close (q * 100) 7) as [Hx Hxe];
      [lra | rewrite E7; lra | lia |].
    rewrite E47 in Hxe. apply Qabs_Qle_condition in Hxe as [Hxe1 Hxe2].
    set (x := TTLCache.double (q * 100)) in *.
    pose proof (round_half_even_close (x * 100)) as Hk.
    apply Qabs_Qle_condition in Hk as [Hk1 Hk2].
    assert (Hk0 : (0 <= TTLCache.round_half_even (x * 100))%Z)
      by (apply round_half_even_nonneg; lra).
    set (k := TTLCache.round_half_even (x * 100)) in *.
    assert (Hk0' : 0 <= inject_Z k).
    { change 0 with (inject_Z 0). rewrite <- Zle_Qle. exact Hk0. }
    assert (Hk100 : (k <= 10000)%Z).
    { destruct (Z_lt_le_dec 10000 k) as [Hbig|]; [|assumption].
      assert (Hle : inject_Z 10001 <= inject_Z k)
        by (rewrite <- Zle_Qle; lia).
      change (inject_Z 10001) with 10001 in Hle. lra. }
    assert (Hk100' : inject_Z k <= 10000).
    { change 10000 with (inject_Z 10000). rewrite <- Zle_Qle. exact Hk100. }
    assert (Ediv : inject_Z k / 100 == inject_Z k * (1 # 100)) by field.
    destruct (double_close (inject_Z k / 100) 7) as [Hr Hre];
      [rewrite Ediv; lra | rewrite E7, Ediv; lra | lia |].
    rewrite E47 in Hre. apply Qabs_Qle_condition in Hre as [Hre1 Hre2].
    exists k. split; [lia|]. split; [reflexivity|].
    subst percent. fold q0.
    set (r := TTLCache.double (inject_Z k / 100)) in *.
    split; apply Qabs_Qle_condition; split; lra.
  - intros H0. unfold s, TTLCache.get_stats. simpl. fold total.
    rewrite H0. reflexivity.
Qed.

(** 23 hits and 137 misses: the exact percentage is 14.375, the float
    product is just below it and the rate reported is 14.37.  One hit and
    two misses: 33.33.  No request: 0. *)
Lemma get_stats_fields_witness :
  let c : TTLCache.t Z := TTLCache.mk 10 300 [("k", (7%Z, 5))] 23 137 0 in
  (exists k : Z,
     (0 <= k <= 10000)%Z /\
     TTLCache.st_hit_rate_percent (TTLCache.get_stats c)
     = TTLCache.double (inject_Z k / 100) /\
     Qabs (inject_Z k / 100 - (14375 # 1000))
     <= (1 # 200) + (1 # 1000000000000)) /\
  TTLCache.st_hit_rate_percent (TTLCache.get_stats c)
  == TTLCache.double (1437 # 100) /\
  TTLCache.st_hit_rate_percent
    (TTLCache.get_stats (TTLCache.mk (V := Z) 10 300 [] 1 2 0))
  == TTLCache.double (3333 # 100) /\
  TTLCache.st_hit_rate_percent
    (TTLCache.get_stats (TTLCache.mk (V := Z) 10 300 [] 0 0 0)) == 0.
Proof.
  intros c. split; [|split; [|split]].
  - destruct (proj1 (proj2 (proj2 (proj2 (proj2 (proj2 (proj2
                (get_stats_fields c)))))))) as (k & Hk & Hr & Hp & _);
      [reflexivity | discriminate | discriminate |].
    exists k. split; [exact Hk|]. split; [exact Hr|].
    assert (E : inject_Z (TTLCache.hits c)
                / inject_Z (TTLCache.hits c + TTLCache.misses c) * 100
                == 14375 # 1000) by reflexivity.
    rewrite <- E. exact Hp.
  - vm_compute. reflexivity.
  - vm_compute. reflexivity.
  - refine (proj2 (proj2 (proj2 (proj2 (proj2 (proj2 (proj2
              (get_stats_fields (TTLCache.mk (V := Z) 10 300 [] 0 0 0))))))))
              _).
    reflexivity.
Defined.

(** C9 as stated fails: the rate is a percentage.  After one hit and one
    miss [get_stats] reports 50, not 1/2. *)
Lemma get_stats_rate_is_percent :
  let c0 : TTLCache.t Z := TTLCache.mk 10 300 [] 0 0 0 in
  let c := TTLCache.run
             [TTLCache.OpSet 0 "a" 1%Z None;
              TTLCache.OpGet 1 "a"; TTLCache.OpGet 1 "b"] c0 in
  TTLCache.init 10 300 = Ok c0 /\
  TTLCache.hits c = 1%Z /\ TTLCache.misses c = 1%Z /\
  TTLCache.st_hit_rate_percent (TTLCache.get_stats c) == 50 /\
  ~ TTLCache.st_hit_rate_percent (TTLCache.get_stats c)
    == inject_Z (TTLCache.hits c)
       / inject_Z (TTLCache.hits c + TTLCache.misses c).
Proof.
  intros c0 c. repeat split.
  vm_compute. discriminate.
Qed.

(** ** TTLCache: the invariant *)

Section InvariantFacts.
Import TTLCache.
Context {V : Type}.
Implicit Types (c : TTLCache.t V) (d : list (string * (V * Q))).

Lemma keys_snoc_NoDup d key (e : V * Q) :
  NoDup (map fst d) -> key ∉ map fst d -> NoDup (map fst (d ++ [(key, e)])).
Proof.
  intros Hnd Hk. rewrite map_app. apply NoDup_app. repeat split.
  - exact Hnd.
  - intros k Hin Hin'. simpl in Hin'.
    apply list_elem_of_singleton in Hin'. congruence.
  - apply NoDup_singleton.
Qed.

Lemma od_del_keeps key d (x : string * (V * Q)) :
  x ∈ d -> fst x <> key -> x ∈ od_del key d.
Proof.
  induction d as [|[k e] d IH]; simpl; intros Hin Hne; [inversion Hin|].
  apply elem_of_cons in Hin as [->|Hin].
  - simpl in Hne. rewrite decide_False by congruence. apply list_elem_of_here.
  - destruct (decide (k = key)); [exact Hin|].
    apply list_elem_of_further, IH; assumption.
Qed.

Lemma get_inv now key c : inv c -> inv (snd (get now key c)).
Proof.
  intros (Hmax & Hnd & Hlen). unfold keys in Hnd.
  destruct (od_get key (cache c)) as [[v e]|] eqn:Hg.
  2:{ rewrite get_absent by exact Hg. repeat split; assumption. }
  assert (Hin : key ∈ map fst (cache c)).
  { apply od_get_Some in Hg. apply (list_elem_of_fmap_2 fst) in Hg. exact Hg. }
  pose proof (od_del_length key (cache c) Hin) as Hl.
  destruct (Qlt_le_dec e now) as [Hx|Hx].
  - rewrite (get_expired _ _ _ _ _ Hg Hx). unfold inv, keys. simpl.
    repeat split; [exact Hmax | apply od_del_NoDup, Hnd | lia].
  - rewrite (get_live _ _ _ _ _ Hg Hx). unfold inv, keys. simpl.
    repeat split; [exact Hmax | |].
    + apply keys_snoc_NoDup; [apply od_del_NoDup, Hnd | apply od_del_gone, Hnd].
    + rewrite length_app. simpl. lia.
Qed.

Lemma set_inv now key value ttl c c' :
  inv c -> set now key value ttl c = Ok c' -> inv c'.
Proof.
  intros (Hmax & Hnd & Hlen) Hset.
  destruct (set_cases _ _ _ _ _ _ Hnd Hset)
    as (Hm & _ & _ & _ & Hcases).
  pose proof (live_NoDup now (cache c) Hnd) as Hlnd.
  pose proof (live_length now (cache c)) as Hll.
  unfold inv, keys. rewrite Hm.
  destruct Hcases as [(Hin & -> & _)|[(Hnin & Hroom & -> & _)
                                     |(Hnin & Hfull & lru & rest & Hlv & -> & _)]].
  - pose proof (od_del_length key _ Hin) as Hl.
    repeat split; [exact Hmax | |].
    + apply keys_snoc_NoDup; [apply od_del_NoDup, Hlnd | apply od_del_gone, Hlnd].
    + rewrite length_app. simpl. lia.
  - repeat split; [exact Hmax | |].
    + apply keys_snoc_NoDup; assumption.
    + rewrite length_app. simpl. lia.
  - rewrite Hlv in *. simpl in Hlnd, Hnin, Hll.
    apply NoDup_cons in Hlnd as [_ Hlnd].
    apply not_elem_of_cons in Hnin as [_ Hnin].
    repeat split; [exact Hmax | |].
    + apply keys_snoc_NoDup; assumption.
    + rewrite length_app. simpl. lia.
Qed.

Lemma delete_inv key c : inv c -> inv (delete key c).
Proof.
  intros (Hmax & Hnd & Hlen). unfold delete.
  destruct (od_mem key (cache c)) eqn:Hm; [|repeat split; assumption].
  apply od_mem_true in Hm. pose proof (od_del_length key _ Hm) as Hl.
  unfold inv, keys. simpl.
  repeat split; [exact Hmax | apply od_del_NoDup, Hnd | lia].
Qed.

Lemma step_inv c o : inv c -> inv (step c o).
Proof.
  intros Hinv. destruct o as [now key|now key value ttl|key|]; simpl.
  - apply get_inv, Hinv.
  - destruct (set now key value ttl c) as [c'|e] eqn:Hset; [|exact Hinv].
    eapply set_inv; eassumption.
  - apply delete_inv, Hinv.
  - destruct Hinv as (Hmax & _ & _). unfold inv, keys, clear. simpl.
    repeat split; [exact Hmax | apply NoDup_nil_2 | lia].
Qed.

Lemma run_inv ops : forall c, inv c -> inv (run ops c).
Proof.
  unfold run. induction ops as [|o ops IH]; intros c Hinv; [exact Hinv|].
  simpl. apply IH, step_inv, Hinv.
Qed.

Lemma step_config c o :
  max_size (step c o) = max_size c /\ default_ttl (step c o) = default_ttl c.
Proof.
  destruct o as [now key|now key value ttl|key|]; simpl.
  - unfold get. destruct (od_get key (cache c)) as [[v e]|]; [|split; reflexivity].
    destruct (_is_expired now e); [|split; reflexivity].
    destruct (Qeq_bool e e); split; reflexivity.
  - unfold set.
    destruct (_ <? 0)%Z; [split; reflexivity|].
    destruct (_ || _); [split; reflexivity|].
    assert (Hm : max_size (_evict_expired now c) = max_size c /\
                 default_ttl (_evict_expired now c) = default_ttl c).
    { unfold _evict_expired. rewrite evict_fold. split; reflexivity. }
    destruct (od_mem key _); [exact Hm|].
    unfold _evict_lru. destruct (_ <=? _)%Z; [|exact Hm].
    destruct (od_popitem_first _) as [[x d']|]; [exact Hm | split; reflexivity].
  - unfold delete. destruct (od_mem key (cache c)); split; reflexivity.
  - split; reflexivity.
Qed.

Lemma run_config ops : forall c,
  max_size (run ops c) = max_size c /\ default_ttl (run ops c) = default_ttl c.
Proof.
  unfold run. induction ops as [|o ops IH]; intros c; [split; reflexivity|].
  simpl. destruct (IH (step c o)) as [H1 H2].
  destruct (step_config c o) as [H3 H4]. split; congruence.
Qed.

Lemma init_inv m dt c :
  init m dt = Ok c ->
  inv c /\ max_size c = m /\ default_ttl c = dt /\ cache c = [] /\
  hits c = 0%Z /\ misses c = 0%Z /\ evictions c = 0%Z.
Proof.
  unfold init. destruct (Z.leb_spec m 0); [discriminate|].
  destruct (dt <? 0)%Z; [discriminate|].
  destruct (MAX_TTL <? dt)%Z; [discriminate|].
  intros [= <-]. unfold inv, keys. simpl.
  repeat split; [assumption | apply NoDup_nil_2 | lia].
Qed.

End InvariantFacts.

(** ** TTLCache: LRU eviction *)

Section LruFacts.
Import TTLCache.
Context {V : Type}.
Implicit Types (c : TTLCache.t V) (d : list (string * (V * Q))).

Lemma outlives_config T c c' p :
  default_ttl c' = default_ttl c -> outlives T c p -> outlives T c' p.
Proof.
  unfold outlives, effective_ttl. intros ->. tauto.
Qed.

Lemma put_entry_config c c' p :
  default_ttl c' = default_ttl c -> put_entry c' p = put_entry c p.
Proof. unfold put_entry, effective_ttl. intros ->. reflexivity. Qed.

(** While there is room and nothing expires, insertions of new keys only
    append. *)
Lemma puts_append T (ps : list (put V)) : forall c,
  inv c ->
  Forall (outlives T c) ps ->
  NoDup (map p_key ps) ->
  (forall k, k ∈ map p_key ps -> k ∉ keys c) ->
  Forall (fun item => T <= snd (snd item)) (cache c) ->
  (Z.of_nat (length (cache c) + length ps) <= max_size c)%Z ->
  cache (run (map put_op ps) c) = cache c ++ map (put_entry c) ps /\
  evictions (run (map put_op ps) c) = evictions c.
Proof.
  induction ps as [|p ps IH]; intros c Hinv Hout Hnd Hnew Hfresh Hroom.
  - simpl. rewrite app_nil_r. split; reflexivity.
  - inversion Hout as [|? ? Hp Hps]; subst.
    simpl in Hnd. apply NoDup_cons in Hnd as [Hpk Hnd].
    destruct Hp as (Httl & Hnow & Hexp).
    destruct Hinv as (Hmax & Hcnd & Hlen).
    destruct (set_returns (p_now p) (p_key p) (p_value p) (p_ttl p) c Hmax Httl)
      as [c' Hset].
    assert (Hlive : Forall (fun item => p_now p <= snd (snd item)) (cache c)).
    { eapply Forall_impl; [exact Hfresh|]. intros x Hx. simpl in *. lra. }
    destruct (set_cases _ _ _ _ _ _ Hcnd Hset)
      as (Hm & Hdt & _ & _ & Hcases).
    rewrite (live_id _ _ Hlive), (expired_count_zero _ _ Hlive) in Hcases.
    assert (Hk : p_key p ∉ keys c) by (apply Hnew; apply list_elem_of_here).
    simpl in Hroom.
    destruct Hcases as [(Hin & _)|[(_ & _ & Hc' & Hev)
                                  |(_ & Hfull & _)]];
      [contradiction | | lia].
    change (run (map put_op (p :: ps)) c)
      with (run (map put_op ps) (step c (put_op p))).
    assert (Hstep : step c (put_op p) = c').
    { unfold put_op. simpl. rewrite Hset. reflexivity. }
    rewrite Hstep.
    destruct (IH c') as [IH1 IH2].
    + eapply set_inv; [|exact Hset]. repeat split; assumption.
    + eapply Forall_impl; [exact Hps|].
      intros q. apply outlives_config. exact Hdt.
    + exact Hnd.
    + intros k Hin. unfold keys. rewrite Hc', map_app.
      apply not_elem_of_app. split.
      * apply Hnew. apply list_elem_of_further. exact Hin.
      * simpl. intros Heq. apply list_elem_of_singleton in Heq. congruence.
    + rewrite Hc'. apply Forall_app. split; [exact Hfresh|].
      constructor; [|constructor]. simpl. exact Hexp.
    + rewrite Hm, Hc', length_app. simpl. lia.
    + split.
      * rewrite IH1, Hc', <- app_assoc. simpl. f_equal. f_equal.
        apply map_ext. intros q. apply put_entry_config. exact Hdt.
      * rewrite IH2, Hev. lia.
Qed.

Lemma snoc_head_tail {A} (x : A) (l rest : list A) (a : A) :
  l ++ [a] = x :: rest -> (1 <= length l)%nat ->
  exists l', l = x :: l' /\ rest = l' ++ [a].
Proof.
  destruct l as [|y l']; simpl; intros H Hl; [lia|].
  injection H as -> <-. eauto.
Qed.

(** After a hit, the next [set] does not evict the key that was read, in a
    cache of two entries or more. *)
Lemma get_protects now key value c c1 :
  inv c -> (2 <= max_size c)%Z ->
  get now key c = (Some value, c1) ->
  exists expiry,
    now <= expiry /\
    cache c1 = od_del key (cache c) ++ [(key, (value, expiry))] /\
    forall now' key' value' ttl c2,
      now' <= expiry ->
      set now' key' value' ttl c1 = Ok c2 ->
      key ∈ keys c2.
Proof.
  intros Hinv Hmax Hget.
  apply get_hit_inv in Hget as (e & Hg & Hx & Hc1).
  exists e. split; [exact Hx|]. split; [rewrite Hc1; reflexivity|].
  intros now' key' value' ttl c2 Hx' Hset.
  assert (Hinv1 : inv c1).
  { replace c1 with (snd (get now key c)); [apply get_inv, Hinv|].
    rewrite (get_live _ _ _ _ _ Hg Hx), Hc1. reflexivity. }
  destruct Hinv1 as (_ & Hnd1 & _).
  destruct (set_cases _ _ _ _ _ _ Hnd1 Hset) as (_ & _ & _ & _ & Hcases).
  assert (Hlv : live now' (cache c1)
                = live now' (od_del key (cache c)) ++ [(key, (value, e))]).
  { rewrite Hc1. simpl. rewrite live_app. f_equal.
    unfold live. simpl. unfold item_expired. simpl.
    apply Qltb_ge in Hx'. rewrite Hx'. reflexivity. }
  assert (Hin : (key, (value, e)) ∈ live now' (cache c1)).
  { rewrite Hlv. apply elem_of_app. right. apply list_elem_of_here. }
  unfold keys.
  destruct Hcases as [(_ & -> & _)|[(_ & _ & -> & _)
                                   |(_ & Hfull & lru & rest & Hlr & -> & _)]].
  - destruct (decide (key' = key)) as [->|Hne].
    + rewrite map_app. apply elem_of_app. right. apply list_elem_of_here.
    + rewrite map_app. apply elem_of_app. left.
      apply (list_elem_of_fmap_2 fst (od_del key' _) (key, (value, e))).
      apply od_del_keeps; [exact Hin | simpl; congruence].
  - rewrite map_app. apply elem_of_app. left.
    apply (list_elem_of_fmap_2 fst _ (key, (value, e))). exact Hin.
  - rewrite Hlv in Hlr.
    assert (Hm1 : max_size c1 = max_size c) by (rewrite Hc1; reflexivity).
    apply snoc_head_tail in Hlr as (l' & _ & ->).
    + rewrite !map_app. apply elem_of_app. left.
      apply elem_of_app. right. apply list_elem_of_here.
    + rewrite Hlv, length_app in Hfull. simpl in Hfull. lia.
Qed.

End LruFacts.

Section LruTheorem.
Import TTLCache.
Context {V : Type}.

Lemma run_snoc (ops : list (op V)) o c :
  run (ops ++ [o]) c = step (run ops c) o.
Proof. unfold run. rewrite fold_left_app. reflexivity. Qed.

(** Filling a fresh cache and inserting one key more, nothing expiring
    meanwhile: one eviction, of the first key inserted. *)
Lemma overflow_evicts_first T m dt (c0 : TTLCache.t V)
    (ps : list (put V)) (p : put V) :
  init m dt = Ok c0 ->
  Z.of_nat (length ps) = m ->
  NoDup (map p_key (ps ++ [p])) ->
  Forall (outlives T c0) (ps ++ [p]) ->
  evictions (run (map put_op (ps ++ [p])) c0) = 1%Z /\
  keys (run (map put_op (ps ++ [p])) c0) = tail (map p_key ps) ++ [p_key p].
Proof.
  intros Hinit Hlen Hnd Hout.
  apply init_inv in Hinit as (Hinv & Hm & Hdt & Hc0 & _ & _ & Hev0).
  apply Forall_app in Hout as [Hps Hp].
  inversion Hp as [|? ? Hp' _]; subst. clear Hp.
  rewrite map_app in Hnd. apply NoDup_app in Hnd as (Hnd & Hdisj & _).
  destruct (puts_append T ps c0) as [Hc Hev]; try assumption.
  { intros k _. unfold keys. rewrite Hc0. apply not_elem_of_nil. }
  { rewrite Hc0. constructor. }
  { rewrite Hc0. simpl. lia. }
  rewrite Hc0 in Hc. simpl in Hc.
  rewrite map_app. change (map put_op [p]) with [put_op p].
  rewrite run_snoc.
  set (c := run (map put_op ps) c0) in *.
  assert (Hinvc : inv c) by (apply run_inv, Hinv).
  destruct (run_config (map put_op ps) c0) as [Hmc Hdtc]. fold c in Hmc, Hdtc.
  destruct Hinvc as (Hmax & Hcnd & _).
  destruct Hp' as (Httl & Hnow & Hexp).
  destruct (set_returns (p_now p) (p_key p) (p_value p) (p_ttl p) c)
    as [c' Hset]; [exact Hmax | rewrite Hdtc; exact Httl |].
  unfold put_op. simpl. rewrite Hset.
  assert (Hlive : Forall (fun item => p_now p <= snd (snd item)) (cache c)).
  { rewrite Hc. apply Forall_fmap. eapply Forall_impl; [exact Hps|].
    intros q (_ & _ & Hq). simpl. lra. }
  destruct (set_cases _ _ _ _ _ _ Hcnd Hset) as (_ & _ & _ & _ & Hcases).
  rewrite (live_id _ _ Hlive), (expired_count_zero _ _ Hlive) in Hcases.
  assert (Hkeys : map fst (cache c) = map p_key ps).
  { rewrite Hc, map_map. reflexivity. }
  assert (Hnew : p_key p ∉ map fst (cache c)).
  { rewrite Hkeys. intros Hin. apply (Hdisj _ Hin).
    simpl. apply list_elem_of_here. }
  assert (Hfull : Z.of_nat (length (cache c)) = max_size c).
  { rewrite Hc, length_map. lia. }
  destruct Hcases as [(Hin & _)|[(_ & Hroom & _)
                                |(_ & _ & lru & rest & Hlr & Hc' & Hev')]];
    [contradiction | lia |].
  split.
  - rewrite Hev', Hev, Hev0. reflexivity.
  - unfold keys. rewrite Hc', map_app. simpl. f_equal.
    rewrite <- Hkeys, Hlr. reflexivity.
Qed.

End LruTheorem.

(** C4, as amended.  For a cache [c0] the constructor returns, with bound
    [m], and for the cache [c] after any sequence of calls on it:
    - [c] keeps the bound [m], holds at most [m] entries, and its keys are
      distinct;
    - a [set] that returns first removes the entries expired at [now],
      counting an eviction for each; then, if the key is not among the
      entries left and these are [m], it removes the oldest of them and
      counts one eviction more; then it stores the entry last;
    - inserting [m + 1] distinct keys into [c0], no entry expiring before
      the last insertion, counts exactly one eviction, and the key evicted
      is the first inserted;
    - when [2 <= m], a [get] that returns a value moves the key last, and
      the next [set], made before that entry expires, leaves the key in the
      cache. *)
Theorem cache_bounded_lru {V : Type} (m dt : Z) (c0 : TTLCache.t V) :
  TTLCache.init m dt = Ok c0 ->
  (forall ops,
     let c := TTLCache.run ops c0 in
     TTLCache.max_size c = m /\
     (Z.of_nat (length (TTLCache.cache c)) <= m)%Z /\
     NoDup (TTLCache.keys c)) /\
  (forall ops now key value ttl c',
     let c := TTLCache.run ops c0 in
     TTLCache.set now key value ttl c = Ok c' ->
     let entry :=
       (key, (value, now + inject_Z (TTLCache.effective_ttl ttl c))) in
     let lv := TTLCache.live now (TTLCache.cache c) in
     let n := TTLCache.expired_count now (TTLCache.cache c) in
     (key ∈ map fst lv /\
      TTLCache.cache c' = TTLCache.od_del key lv ++ [entry] /\
      TTLCache.evictions c' = (TTLCache.evictions c + n)%Z) \/
     ((key ∉ map fst lv) /\
      (Z.of_nat (length lv) < m)%Z /\
      TTLCache.cache c' = lv ++ [entry] /\
      TTLCache.evictions c' = (TTLCache.evictions c + n)%Z) \/
     ((key ∉ map fst lv) /\
      Z.of_nat (length lv) = m /\
      exists lru rest,
        lv = lru :: rest /\
        TTLCache.cache c' = rest ++ [entry] /\
        TTLCache.evictions c' = (TTLCache.evictions c + n + 1)%Z)) /\
  (forall T ps p,
     Z.of_nat (length ps) = m ->
     NoDup (map TTLCache.p_key (ps ++ [p])) ->
     Forall (TTLCache.outlives T c0) (ps ++ [p]) ->
     let c := TTLCache.run (map TTLCache.put_op (ps ++ [p])) c0 in
     TTLCache.evictions c = 1%Z /\
     TTLCache.keys c = tail (map TTLCache.p_key ps) ++ [TTLCache.p_key p]) /\
  (forall ops now key value c1,
     (2 <= m)%Z ->
     TTLCache.get now key (TTLCache.run ops c0) = (Some value, c1) ->
     exists expiry,
       now <= expiry /\
       TTLCache.cache c1
       = TTLCache.od_del key (TTLCache.cache (TTLCache.run ops c0))
           ++ [(key, (value, expiry))] /\
       forall now' key' value' ttl c2,
         now' <= expiry ->
         TTLCache.set now' key' value' ttl c1 = Ok c2 ->
         key ∈ TTLCache.keys c2).
Proof.
  intros Hinit.
  pose proof (init_inv _ _ _ Hinit) as (Hinv & Hm & _).
  assert (Hrun : forall ops,
             TTLCache.inv (TTLCache.run ops c0) /\
             TTLCache.max_size (TTLCache.run ops c0) = m).
  { intros ops. split; [apply run_inv, Hinv|].
    destruct (run_config ops c0) as [H _]. congruence. }
  split; [|split; [|split]].
  - intros ops c. destruct (Hrun ops) as [(_ & Hnd & Hlen) Hmc].
    fold c in Hnd, Hlen, Hmc. repeat split; [exact Hmc | lia | exact Hnd].
  - intros ops now key value ttl c' c Hset entry lv n.
    destruct (Hrun ops) as [(_ & Hnd & Hlen) Hmc]. fold c in Hnd, Hlen, Hmc.
    destruct (set_cases _ _ _ _ _ _ Hnd Hset) as (_ & _ & _ & _ & Hcases).
    fold entry lv n in Hcases. rewrite Hmc in Hcases.
    destruct Hcases as [H|[H|(Hnin & Hfull & Hrest)]];
      [left; exact H | right; left; exact H | right; right].
    split; [exact Hnin|]. split; [|exact Hrest].
    pose proof (live_length now (TTLCache.cache c)) as Hll. fold lv in Hll. lia.
  - intros T ps p Hlen Hnd Hout c.
    apply (overflow_evicts_first T m dt); assumption.
  - intros ops now key value c1 Hm2 Hget.
    destruct (Hrun ops) as [Hinvc Hmc].
    apply (get_protects now key value _ c1); [exact Hinvc | lia | exact Hget].
Qed.

(** A cache of two entries: the third key evicts the first; and a key that
    was read survives the next insertion. *)
Lemma cache_bounded_lru_witness :
  let c0 : TTLCache.t Z := TTLCache.mk 2 300 [] 0 0 0 in
  let ps := [TTLCache.mkPut 0 "a" 1%Z None; TTLCache.mkPut 0 "b" 2%Z None] in
  let p := TTLCache.mkPut 1 "c" 3%Z None in
  (TTLCache.evictions (TTLCache.run (map TTLCache.put_op (ps ++ [p])) c0) = 1%Z /\
   TTLCache.keys (TTLCache.run (map TTLCache.put_op (ps ++ [p])) c0)
   = tail (map TTLCache.p_key ps) ++ [TTLCache.p_key p]) /\
  (exists expiry,
     1 <= expiry /\
     TTLCache.cache (snd (TTLCache.get 1 "a"
                            (TTLCache.run (map TTLCache.put_op ps) c0)))
     = TTLCache.od_del "a"
         (TTLCache.cache (TTLCache.run (map TTLCache.put_op ps) c0))
         ++ [("a", (1%Z, expiry))]).
Proof.
  intros c0 ps p.
  assert (Hinit : TTLCache.init 2 300 = Ok c0) by reflexivity.
  pose proof (cache_bounded_lru 2 300 c0 Hinit) as (_ & _ & Hc & Hd).
  split.
  - apply (Hc 1 ps p).
    + reflexivity.
    + refine (bool_decide_unpack _ _). vm_compute. reflexivity.
    + repeat constructor; vm_compute; discriminate.
  - destruct (Hd (map TTLCache.put_op ps) 1 "a" 1%Z
                (snd (TTLCache.get 1 "a"
                        (TTLCache.run (map TTLCache.put_op ps) c0))))
      as (expiry & Hx & Hcache & _).
    + vm_compute. discriminate.
    + reflexivity.
    + exists expiry. split; assumption.
Defined.

(** C4 as stated fails in two places.
    - Entries can expire between the insertions: in a cache of bound 2,
      three keys inserted with [ttl=0] at clock readings 0, 1 and 2 count
      two evictions, both by the sweep and none of them of a least recently
      used entry, and leave one entry.
    - In a cache of bound 1 the entry read is at once the most and the
      least recently used: after [set a], a [get a] that hits and [set b],
      the key [a] is the one evicted. *)
Lemma cache_lru_claim_fails :
  (let c0 : TTLCache.t Z := TTLCache.mk 2 300 [] 0 0 0 in
   let c := TTLCache.run
              [TTLCache.OpSet 0 "a" 1%Z (Some 0%Z);
               TTLCache.OpSet 1 "b" 2%Z (Some 0%Z);
               TTLCache.OpSet 2 "c" 3%Z (Some 0%Z)] c0 in
   TTLCache.init 2 300 = Ok c0 /\
   TTLCache.evictions c = 2%Z /\
   TTLCache.keys c = ["c"]) /\
  (let c0 : TTLCache.t Z := TTLCache.mk 1 300 [] 0 0 0 in
   let c1 := TTLCache.run [TTLCache.OpSet 0 "a" 1%Z None] c0 in
   let c2 := snd (TTLCache.get 0 "a" c1) in
   let c3 := TTLCache.run [TTLCache.OpSet 0 "b" 2%Z None] c2 in
   TTLCache.init 1 300 = Ok c0 /\
   fst (TTLCache.get 0 "a" c1) = Some 1%Z /\
   TTLCache.keys c2 = ["a"] /\
   TTLCache.keys c3 = ["b"] /\
   TTLCache.evictions c3 = 1%Z).
Proof.
  split; repeat split.
Qed.

(** ** CryptoAPICache: key derivation *)

Section TimeBucketFacts.
Import CryptoAPICache.

Lemma py_int_floor (x : Q) : 0 <= x -> py_int x = Qfloor x.
Proof.
  destruct x as [n d]. unfold Qle, py_int, Qfloor. simpl. intros H.
  apply Z.quot_div_nonneg; lia.
Qed.

Lemma Qfloor_unique (x : Q) (k : Z) :
  inject_Z k <= x -> x < inject_Z (k + 1) -> Qfloor x = k.
Proof.
  intros Hlo Hhi.
  pose proof (Qfloor_le x) as H1. pose proof (Qlt_floor x) as H2.
  assert (A : inject_Z (Qfloor x) < inject_Z (k + 1)) by lra.
  assert (B : inject_Z k < inject_Z (Qfloor x + 1)) by lra.
  rewrite <- Zlt_Qlt in A, B. lia.
Qed.

(** Clock readings in the [k]-th minute since the epoch fall in bucket
    [60 * k]. *)
Lemma time_bucket_minute (now : Q) (k : Z) :
  (0 <= k)%Z ->
  inject_Z (60 * k) <= now -> now < inject_Z (60 * (k + 1)) ->
  time_bucket now = (60 * k)%Z.
Proof.
  intros Hk Hlo Hhi. unfold time_bucket.
  rewrite inject_Z_mult in Hlo, Hhi. change (inject_Z 60) with 60 in *.
  assert (H0 : 0 <= inject_Z k).
  { change 0 with (inject_Z 0). rewrite <- Zle_Qle. exact Hk. }
  assert (E : now / 60 == now * (1 # 60)) by field.
  rewrite py_int_floor by (rewrite E; lra).
  rewrite (Qfloor_unique (now / 60) k); [lia | rewrite E; lra |].
  rewrite E. lra.
Qed.

Lemma to_int_not_nil (z : Z) :
  Z.to_int z <> Decimal.Pos Decimal.Nil /\
  Z.to_int z <> Decimal.Neg Decimal.Nil.
Proof.
  destruct z as [|p|p]; simpl; split; try discriminate;
    intros [= H]; exact (DecimalPos.Unsigned.to_uint_nonnil p H).
Qed.

Lemma str_of_int_inj (z1 z2 : Z) : str_of_int z1 = str_of_int z2 -> z1 = z2.
Proof.
  unfold str_of_int. intros H.
  destruct (to_int_not_nil z1) as [A1 B1].
  destruct (to_int_not_nil z2) as [A2 B2].
  pose proof (NilZero.isi _ A1 B1) as H1.
  pose proof (NilZero.isi _ A2 B2) as H2.
  rewrite H, H2 in H1. injection H1 as H1.
  symmetry. apply DecimalZ.to_int_inj, H1.
Qed.

Lemma string_app_inv_head (s a b : string) : s +:+ a = s +:+ b -> a = b.
Proof.
  induction s as [|ch s IH]; simpl; [tauto|].
  intros [= H]. apply IH, H.
Qed.

End TimeBucketFacts.

Section KeyFacts.
Import CryptoAPICache.
Context {Val : Type}.
Variable json_value : Val -> string.
Variable json_key : string -> string.
Variable sha256_hexdigest : string -> string.

#[local] Instance item_le_trans : Transitive (item_le (Val := Val)).
Proof. intros x y z. unfold item_le. apply transitivity. Qed.

#[local] Instance item_le_total : Total (item_le (Val := Val)).
Proof. intros x y. unfold item_le. apply total, _. Qed.

Lemma NoDup_fst_eq (l : list (string * Val)) x y :
  NoDup (map fst l) -> x ∈ l -> y ∈ l -> fst x = fst y -> x = y.
Proof.
  induction l as [|z l IH]; simpl; intros Hnd Hx Hy E; [inversion Hx|].
  apply NoDup_cons in Hnd as [Hz Hnd].
  apply elem_of_cons in Hx as [->|Hx]; apply elem_of_cons in Hy as [->|Hy].
  - reflexivity.
  - exfalso. apply Hz. rewrite E. apply list_elem_of_fmap_2, Hy.
  - exfalso. apply Hz. rewrite <- E. apply list_elem_of_fmap_2, Hx.
  - apply IH; assumption.
Qed.

(** Sorting by key forgets the insertion order of the dict. *)
Lemma sort_items_perm (p1 p2 : list (string * Val)) :
  NoDup (map fst p1) -> p1 ≡ₚ p2 ->
  merge_sort item_le p1 = merge_sort item_le p2.
Proof.
  intros Hnd Hperm.
  apply (Sorted_unique_strong item_le).
  - intros x1 x2 H1 H2 L12 L21.
    rewrite merge_sort_Permutation in H1, H2. rewrite <- Hperm in H2.
    apply (NoDup_fst_eq p1); try assumption.
    unfold item_le in *. apply (anti_symm String.le); assumption.
  - apply Sorted_merge_sort, _.
  - apply Sorted_merge_sort, _.
  - rewrite !merge_sort_Permutation. exact Hperm.
Qed.

Lemma cache_data_params endpoint (p : list (string * Val)) now :
  cache_data json_value json_key endpoint (Some p) now
  = if is_live endpoint
    then endpoint +:+ ":" +:+ json_dumps_sorted json_value json_key p
         +:+ ":" +:+ str_of_int (time_bucket now)
    else endpoint +:+ ":" +:+ json_dumps_sorted json_value json_key p.
Proof. unfold cache_data. destruct p; reflexivity. Qed.

Lemma cache_data_order endpoint (p1 p2 : list (string * Val)) now :
  NoDup (map fst p1) -> p1 ≡ₚ p2 ->
  cache_data json_value json_key endpoint (Some p1) now
  = cache_data json_value json_key endpoint (Some p2) now.
Proof.
  intros Hnd Hperm. rewrite !cache_data_params.
  unfold json_dumps_sorted.
  rewrite (sort_items_perm p1 p2 Hnd Hperm). reflexivity.
Qed.

Lemma cache_data_same_bucket endpoint params now1 now2 :
  time_bucket now1 = time_bucket now2 ->
  cache_data json_value json_key endpoint params now1
  = cache_data json_value json_key endpoint params now2.
Proof. unfold cache_data. intros ->. reflexivity. Qed.

Lemma cache_data_other_bucket endpoint params now1 now2 :
  is_live endpoint = true ->
  time_bucket now1 <> time_bucket now2 ->
  cache_data json_value json_key endpoint params now1
  <> cache_data json_value json_key endpoint params now2.
Proof.
  unfold cache_data. intros -> Hne E. apply Hne.
  do 4 apply string_app_inv_head in E.
  apply str_of_int_inj, E.
Qed.

Lemma cache_data_not_live endpoint params now1 now2 :
  is_live endpoint = false ->
  cache_data json_value json_key endpoint params now1
  = cache_data json_value json_key endpoint params now2.
Proof. unfold cache_data. intros ->. reflexivity. Qed.

End KeyFacts.

(** C5.  [json_value], [json_key] and [sha256_hexdigest] stand for Python's
    JSON encoders and SHA-256 digest.
    - Two parameter dicts with the same items (distinct keys, any insertion
      order) give the same key, for every endpoint and clock reading.
    - For a live endpoint (one that contains "price" or "markets"), two
      clock readings in the same minute [60k, 60(k+1)) since the epoch
      ([0 <= k]) give the same key;
      readings in two adjacent minutes give different texts to hash, hence
      different keys unless SHA-256 collides on these two texts.
    - For any other endpoint the key does not depend on the clock. *)
Theorem cache_key_derivation {Val : Type} (json_value : Val -> string)
    (json_key sha256_hexdigest : string -> string) (endpoint : string) :
  let key := CryptoAPICache._generate_cache_key
               json_value json_key sha256_hexdigest endpoint in
  let data := CryptoAPICache.cache_data json_value json_key endpoint in
  (forall p1 p2 now,
     NoDup (map fst p1) -> p1 ≡ₚ p2 ->
     key (Some p1) now = key (Some p2) now) /\
  (CryptoAPICache.is_live endpoint = true ->
   forall params k now1 now2,
     (0 <= k)%Z ->
     inject_Z (60 * k) <= now1 -> now1 < inject_Z (60 * (k + 1)) ->
     (inject_Z (60 * k) <= now2 -> now2 < inject_Z (60 * (k + 1)) ->
      key params now1 = key params now2) /\
     (inject_Z (60 * (k + 1)) <= now2 -> now2 < inject_Z (60 * (k + 2)) ->
      data params now1 <> data params now2 /\
      ((sha256_hexdigest (data params now1)
        = sha256_hexdigest (data params now2) ->
        data params now1 = data params now2) ->
       key params now1 <> key params now2))) /\
  (CryptoAPICache.is_live endpoint = false ->
   forall params now1 now2, key params now1 = key params now2).
Proof.
  intros key data. split; [|split].
  - intros p1 p2 now Hnd Hperm. unfold key, CryptoAPICache._generate_cache_key.
    f_equal. apply cache_data_order; assumption.
  - intros Hlive params k now1 now2 Hk Hlo1 Hhi1. split.
    + intros Hlo2 Hhi2. unfold key, CryptoAPICache._generate_cache_key.
      f_equal. apply cache_data_same_bucket.
      rewrite (time_bucket_minute now1 k), (time_bucket_minute now2 k);
        auto.
    + intros Hlo2 Hhi2.
      assert (Hne : data params now1 <> data params now2).
      { apply cache_data_other_bucket; [exact Hlive|].
        rewrite (time_bucket_minute now1 k) by assumption.
        replace (k + 2)%Z with (k + 1 + 1)%Z in Hhi2 by lia.
        rewrite (time_bucket_minute now2 (k + 1)) by (assumption || lia).
        lia. }
      split; [exact Hne|].
      intros Hfree E. apply Hne, Hfree, E.
  - intros Hstatic params now1 now2.
    unfold key, CryptoAPICache._generate_cache_key.
    f_equal. apply cache_data_not_live, Hstatic.
Qed.

(** The endpoint "prices" with the parameters [{a: 1, b: 2}] in both
    orders, at clock readings 60, 119 and 120; and the endpoint
    "/coins/list", which is not live. *)
Lemma cache_key_derivation_witness :
  let json_value := CryptoAPICache.str_of_int in
  let json_key := fun k : string => "'" +:+ k +:+ "'" in
  let digest := fun s : string => s in
  let key := CryptoAPICache._generate_cache_key json_value json_key digest in
  let data := CryptoAPICache.cache_data json_value json_key in
  key "prices" (Some [("a", 1%Z); ("b", 2%Z)]) 60
  = key "prices" (Some [("b", 2%Z); ("a", 1%Z)]) 60 /\
  key "prices" (Some [("a", 1%Z)]) 60 = key "prices" (Some [("a", 1%Z)]) 119 /\
  data "prices" (Some [("a", 1%Z)]) 119 <> data "prices" (Some [("a", 1%Z)]) 120 /\
  key "/coins/list" None 60 = key "/coins/list" None 120.
Proof.
  intros json_value json_key digest key data.
  split; [|split; [|split]].
  - apply (proj1 (cache_key_derivation json_value json_key digest "prices")).
    + refine (bool_decide_unpack _ _). vm_compute. reflexivity.
    + apply perm_swap.
  - refine (proj1 (proj1 (proj2 (cache_key_derivation json_value json_key
                                   digest "prices"))
                     _ (Some [("a", 1%Z)]) 1%Z 60 119 _ _ _) _ _);
      try reflexivity; vm_compute; discriminate.
  - refine (proj1 (proj2 (proj1 (proj2 (cache_key_derivation json_value
                                          json_key digest "prices"))
                     _ (Some [("a", 1%Z)]) 1%Z 119 120 _ _ _) _ _));
      try reflexivity; vm_compute; discriminate.
  - apply (proj2 (proj2 (cache_key_derivation json_value json_key digest
                           "/coins/list"))).
    reflexivity.
Defined.

(** * Further properties *)

(** ** TokenBucket: the rate guarantee and the waiting time *)

Section TokenBucketRate.
Import TokenBucket.

Lemma consume_level now n b :
  let level := py_min (capacity b) (tokens b + (now - last_update b) * rate b) in
  consume now n b
  = if Qleb (inject_Z n) level
    then (true, mk (rate b) (capacity b) (level - inject_Z n) now)
    else (false, mk (rate b) (capacity b) level now).
Proof. reflexivity. Qed.

(** One call: what is granted plus what is left is at most what was there
    plus the refill. *)
Lemma consume_conserves now n b :
  0 <= rate b -> 0 <= capacity b -> 0 <= tokens b -> last_update b <= now ->
  let r := consume now n b in
  (if fst r then inject_Z n else 0) + tokens (snd r)
  <= tokens b + rate b * (now - last_update b) /\
  0 <= tokens (snd r).
Proof.
  intros Hr Hc Ht Hnow.
  assert (He : 0 <= (now - last_update b) * rate b)
    by (apply Qmult_le_0_compat; lra).
  pose proof (py_min_le_r (capacity b)
                (tokens b + (now - last_update b) * rate b)) as Hle.
  assert (Hge : 0 <= py_min (capacity b)
                       (tokens b + (now - last_update b) * rate b))
    by (apply py_min_glb; lra).
  rewrite consume_level. cbv zeta.
  destruct (Qleb _ _) eqn:E; simpl.
  - apply Qleb_le in E. split; lra.
  - split; lra.
Qed.

Lemma consume_all_conserves calls : forall b,
  0 <= rate b -> 0 <= capacity b -> 0 <= tokens b ->
  in_order (last_update b) calls ->
  inject_Z (fst (consume_all calls b)) + tokens (snd (consume_all calls b))
  <= tokens b
     + rate b * (last_update (snd (consume_all calls b)) - last_update b) /\
  0 <= tokens (snd (consume_all calls b)) /\
  last_update b <= last_update (snd (consume_all calls b)).
Proof.
  induction calls as [|[now n] calls IH]; intros b Hr Hc Ht Hord.
  - simpl. change (inject_Z 0) with 0. repeat split; lra.
  - destruct Hord as [Hnow Hord]. simpl.
    destruct (consume_conserves now n b Hr Hc Ht Hnow) as [H1 H2].
    pose proof (consume_rate now n b) as Er.
    pose proof (consume_capacity now n b) as Ec.
    pose proof (consume_last_update now n b) as El.
    destruct (consume now n b) as [got b1]. simpl in *.
    destruct (IH b1) as (I1 & I2 & I3);
      [rewrite Er; exact Hr | rewrite Ec; exact Hc | exact H2
      | rewrite El; exact Hord |].
    destruct (consume_all calls b1) as [total b2]. simpl in *.
    rewrite Er, El in *.
    assert (Hd : rate b * (last_update b2 - last_update b)
                 == rate b * (last_update b2 - now)
                    + rate b * (now - last_update b)) by ring.
    repeat split; [|exact I2|lra].
    rewrite Hd. destruct got.
    + rewrite inject_Z_plus. lra.
    + lra.
Qed.

End TokenBucketRate.

(** X1.  The rate guarantee.  For a bucket with a rate and a capacity that
    are not negative and a level between 0 and the capacity, and any series
    of [consume] calls at clock readings that do not go back: the total
    amount granted is at most the level at the start plus [rate] times the
    time between the first and the last accounting, hence at most
    [capacity + rate * duration]; and the level is never negative. *)
Theorem token_bucket_rate_bound (b : TokenBucket.t) (calls : list (Q * Z)) :
  0 <= TokenBucket.rate b ->
  0 <= TokenBucket.tokens b <= TokenBucket.capacity b ->
  TokenBucket.in_order (TokenBucket.last_update b) calls ->
  let granted := fst (TokenBucket.consume_all calls b) in
  let b' := snd (TokenBucket.consume_all calls b) in
  let duration := TokenBucket.last_update b' - TokenBucket.last_update b in
  0 <= duration /\
  inject_Z granted <= TokenBucket.tokens b + TokenBucket.rate b * duration /\
  inject_Z granted <= TokenBucket.capacity b + TokenBucket.rate b * duration /\
  0 <= TokenBucket.tokens b'.
Proof.
  intros Hr [Ht Hc] Hord granted b' duration.
  destruct (consume_all_conserves calls b Hr) as (H1 & H2 & H3);
    [lra | exact Ht | exact Hord |].
  fold granted b' in H1, H2, H3.
  unfold duration. repeat split; lra.
Qed.

(** Four calls within one second on a bucket of rate 1/2 and capacity 2:
    at most 2 + 1/2 tokens are granted. *)
Lemma token_bucket_rate_bound_witness :
  let b := TokenBucket.init (1 # 2) 2 0 in
  let calls := [(0, 1%Z); (0, 1%Z); (1 # 2, 1%Z); (1, 1%Z)] in
  inject_Z (fst (TokenBucket.consume_all calls b)) <= 2 + (1 # 2) * (1 - 0).
Proof.
  intros b calls.
  pose proof (token_bucket_rate_bound b calls) as H.
  destruct H as (_ & _ & H & _).
  - vm_compute. discriminate.
  - split; vm_compute; discriminate.
  - repeat split; vm_compute; discriminate.
  - assert (E : TokenBucket.last_update (snd (TokenBucket.consume_all calls b))
                - TokenBucket.last_update b == 1 - 0) by reflexivity.
    rewrite E in H. exact H.
Defined.

Section WaitTime.
Import TokenBucket.

Lemma consume_starved now b :
  capacity b < 1 -> consume now 1 b = (false, refill now b).
Proof.
  intros Hc. rewrite consume_level. cbv zeta.
  pose proof (py_min_le_l (capacity b)
                (tokens b + (now - last_update b) * rate b)) as Hle.
  assert (E : Qleb (inject_Z 1)
                (py_min (capacity b)
                   (tokens b + (now - last_update b) * rate b)) = false).
  { apply Qleb_gt. change (inject_Z 1) with 1. lra. }
  rewrite E. reflexivity.
Qed.

End WaitTime.

(** X2.  The waiting time is right to within one minimum sleep.  On a
    bucket with a rate of at least 1/5 token per second and a capacity of
    at least 1 (the buckets of the services limited to 12 requests per
    minute or more), after a [consume()] that fails at clock reading
    [now], [wait_time()] returns a positive [d] such that [consume()]
    succeeds at every clock reading from [now + d + MIN_SLEEP] on and
    fails at every clock reading up to [now + d - MIN_SLEEP].  The margin
    of [MIN_SLEEP] = 0.01 seconds on both sides is at least 0.002 token,
    far more than the rounding of the float operations, which this model
    does not follow: at [now + d] itself the rounded level can fall just
    below 1. *)
Theorem wait_time_accurate (b : TokenBucket.t) (now : Q) :
  1 # 5 <= TokenBucket.rate b ->
  1 <= TokenBucket.capacity b ->
  TokenBucket.consume now 1 b = (false, TokenBucket.refill now b) ->
  exists d,
    TokenBucket.wait_time (TokenBucket.refill now b) = Ok d /\
    0 < d /\
    (forall t,
       now + d + RateLimiter.MIN_SLEEP <= t ->
       fst (TokenBucket.consume t 1 (TokenBucket.refill now b)) = true) /\
    (forall t,
       now <= t -> t <= now + d - RateLimiter.MIN_SLEEP ->
       fst (TokenBucket.consume t 1 (TokenBucket.refill now b)) = false).
Proof.
  intros Hr5 Hc Hfail.
  assert (Hr : 0 < TokenBucket.rate b) by lra.
  pose proof MIN_SLEEP_pos as Hms.
  set (b1 := TokenBucket.refill now b) in *.
  assert (Hlow : TokenBucket.tokens b1 < 1).
  { rewrite consume_level in Hfail. cbv zeta in Hfail.
    destruct (Qleb _ _) eqn:E in Hfail; [discriminate|].
    apply Qleb_gt in E. change (inject_Z 1) with 1 in E. exact E. }
  assert (Hr1 : TokenBucket.rate b1 = TokenBucket.rate b) by reflexivity.
  assert (Hc1 : TokenBucket.capacity b1 = TokenBucket.capacity b)
    by reflexivity.
  assert (Hl1 : TokenBucket.last_update b1 = now) by reflexivity.
  exists ((1 - TokenBucket.tokens b1) / TokenBucket.rate b1).
  set (d := (1 - TokenBucket.tokens b1) / TokenBucket.rate b1).
  assert (Hd : d * TokenBucket.rate b1 == 1 - TokenBucket.tokens b1).
  { unfold d. field. rewrite Hr1. lra. }
  assert (Hdpos : 0 < d).
  { unfold d. apply Qlt_shift_div_l; [rewrite Hr1; exact Hr | lra]. }
  split; [|split; [exact Hdpos|split]].
  - unfold TokenBucket.wait_time.
    assert (E1 : Qleb 1 (TokenBucket.tokens b1) = false)
      by (apply Qleb_gt; exact Hlow).
    assert (E2 : Qeq_bool (TokenBucket.rate b1) 0 = false).
    { destruct (Qeq_bool (TokenBucket.rate b1) 0) eqn:E; [|reflexivity].
      apply Qeq_bool_iff in E. rewrite Hr1 in E. lra. }
    rewrite E1, E2. reflexivity.
  - intros t Ht. rewrite consume_level. cbv zeta. rewrite Hl1.
    assert (E : Qleb (inject_Z 1)
                  (py_min (TokenBucket.capacity b1)
                     (TokenBucket.tokens b1
                      + (t - now) * TokenBucket.rate b1)) = true).
    { apply Qleb_le. change (inject_Z 1) with 1.
      apply py_min_glb; [rewrite Hc1; exact Hc|].
      assert (Hge : d * TokenBucket.rate b1
                    <= (t - now) * TokenBucket.rate b1).
      { apply Qmult_le_compat_r; [lra | rewrite Hr1; lra]. }
      rewrite Hd in Hge. lra. }
    rewrite E. reflexivity.
  - intros t Hlo Hhi. rewrite consume_level. cbv zeta. rewrite Hl1.
    assert (E : Qleb (inject_Z 1)
                  (py_min (TokenBucket.capacity b1)
                     (TokenBucket.tokens b1
                      + (t - now) * TokenBucket.rate b1)) = false).
    { apply Qleb_gt. change (inject_Z 1) with 1.
      eapply Qle_lt_trans; [apply py_min_le_r|].
      assert (Hlt : (t - now) * TokenBucket.rate b1
                    < d * TokenBucket.rate b1).
      { apply Qmult_lt_compat_r; [rewrite Hr1; exact Hr | lra]. }
      rewrite Hd in Hlt. lra. }
    rewrite E. reflexivity.
Qed.

(** An empty bucket of rate 1/4: the token is there 4.01 seconds later,
    and not yet 3.99 seconds later. *)
Lemma wait_time_accurate_witness :
  let b := TokenBucket.mk (1 # 4) 2 0 10 in
  exists d,
    TokenBucket.wait_time (TokenBucket.refill 10 b) = Ok d /\
    d == 4 /\
    fst (TokenBucket.consume (10 + (401 # 100)) 1 (TokenBucket.refill 10 b))
    = true /\
    fst (TokenBucket.consume (10 + (399 # 100)) 1 (TokenBucket.refill 10 b))
    = false.
Proof.
  intros b.
  destruct (wait_time_accurate b 10) as (d & H1 & H2 & H3 & H4).
  - vm_compute. discriminate.
  - vm_compute. discriminate.
  - reflexivity.
  - assert (Hd : d == 4).
    { vm_compute in H1. injection H1 as <-. reflexivity. }
    exists d. split; [exact H1|]. split; [exact Hd|]. split.
    + apply H3. rewrite Hd. vm_compute. discriminate.
    + apply H4; [vm_compute; discriminate|].
      rewrite Hd. vm_compute. discriminate.
Defined.

(** ** RateLimiter: what acquire grants, refuses and how long it takes *)

Section AcquireMore.
Import RateLimiter.

(** One round of the loop, on a known service. *)
Lemma poll_step fuel api_name timeout start w b :
  buckets (limiter w) !! api_name = Some b ->
  poll (S fuel) api_name timeout start w
  = let got := fst (TokenBucket.consume (clock w) 1 b) in
    let b1 := snd (TokenBucket.consume (clock w) 1 b) in
    let w1 := {| clock := clock w;
                 limiter := with_buckets (limiter w)
                              (<[api_name := b1]> (buckets (limiter w))) |} in
    if got then Some (Ok true, w1)
    else if Qleb timeout (clock w - start) then Some (Ok false, w1)
    else
      match TokenBucket.wait_time b1 with
      | Raise e => Some (Raise e, w1)
      | Ok bw =>
          poll fuel api_name timeout start
            {| clock := clock w
                        + py_max MIN_SLEEP
                            (py_min bw (timeout - (clock w - start)));
               limiter := limiter w1 |}
      end.
Proof.
  intros Hb. simpl.
  unfold bind, bucket_consume, ret, time_time, set_limiter.
  rewrite Hb.
  destruct (TokenBucket.consume (clock w) 1 b) as [got b1]. simpl.
  destruct got; [reflexivity|]. simpl.
  destruct (Qleb timeout (clock w - start)); [reflexivity|].
  unfold bucket_wait_time. simpl. rewrite lookup_insert_eq.
  destruct (TokenBucket.wait_time b1) as [bw|e]; [|reflexivity].
  set (wt := py_max MIN_SLEEP (py_min bw (timeout - (clock w - start)))).
  assert (Hwt : MIN_SLEEP <= wt) by apply py_max_ge_l.
  pose proof MIN_SLEEP_pos as Hms.
  assert (E1 : Qltb 0 wt = true) by (apply Qltb_lt; lra).
  assert (E2 : Qltb wt 0 = false) by (apply Qltb_ge; lra).
  rewrite E1. unfold sleep. rewrite E2. reflexivity.
Qed.

(** A bucket that cannot hold one token never grants. *)
Lemma poll_starved fuel api_name timeout start : forall w b r w',
  buckets (limiter w) !! api_name = Some b ->
  TokenBucket.capacity b < 1 ->
  poll fuel api_name timeout start w = Some (r, w') ->
  r <> Ok true /\
  exists b', buckets (limiter w') !! api_name = Some b' /\
             TokenBucket.capacity b' = TokenBucket.capacity b.
Proof.
  induction fuel as [|fuel IH]; intros w b r w' Hb Hc Hp; [discriminate|].
  rewrite (poll_step _ _ _ _ _ b Hb) in Hp. cbv zeta in Hp.
  rewrite (consume_starved _ _ Hc) in Hp. simpl in Hp.
  destruct (Qleb timeout (clock w - start)).
  { simplify_eq. split; [discriminate|]. simpl.
    rewrite lookup_insert_eq. eauto. }
  destruct (TokenBucket.wait_time _) as [bw|e].
  2:{ simplify_eq. split; [discriminate|]. simpl.
      rewrite lookup_insert_eq. eauto. }
  eapply IH in Hp; [| simpl; apply lookup_insert_eq | exact Hc].
  exact Hp.
Qed.

Lemma py_max_lub (a b c : Q) : a <= c -> b <= c -> py_max a b <= c.
Proof. intros Ha Hb. unfold py_max. destruct (Qltb a b); assumption. Qed.

(** The loop overshoots its deadline by [MIN_SLEEP] at most. *)
Lemma poll_clock fuel api_name timeout start : forall w r w',
  0 <= timeout ->
  clock w - start <= timeout + MIN_SLEEP ->
  poll fuel api_name timeout start w = Some (r, w') ->
  clock w' - start <= timeout + MIN_SLEEP.
Proof.
  induction fuel as [|fuel IH]; intros w r w' Ht Hclk Hp; [discriminate|].
  destruct (buckets (limiter w) !! api_name) as [b|] eqn:Hb.
  2:{ simpl in Hp. unfold bind, bucket_consume in Hp. rewrite Hb in Hp.
      simplify_eq. exact Hclk. }
  rewrite (poll_step _ _ _ _ _ b Hb) in Hp. cbv zeta in Hp.
  destruct (fst (TokenBucket.consume (clock w) 1 b)).
  { simplify_eq. exact Hclk. }
  destruct (Qleb timeout (clock w - start)) eqn:E.
  { simplify_eq. exact Hclk. }
  apply Qleb_gt in E.
  destruct (TokenBucket.wait_time _) as [bw|e].
  2:{ simplify_eq. exact Hclk. }
  eapply IH in Hp; [exact Hp | exact Ht |]. simpl.
  pose proof MIN_SLEEP_pos as Hms.
  assert (Hwt : py_max MIN_SLEEP (py_min bw (timeout - (clock w - start)))
                <= timeout + MIN_SLEEP - (clock w - start)).
  { apply py_max_lub; [lra|].
    eapply Qle_trans; [apply py_min_le_r|]. lra. }
  lra.
Qed.

Lemma acquire_body_clock fuel api_name timeout w r w' :
  0 <= timeout ->
  acquire_body fuel api_name timeout w = Some (r, w') ->
  clock w' - clock w <= timeout + MIN_SLEEP.
Proof.
  intros Ht Hp. pose proof MIN_SLEEP_pos as Hms.
  unfold acquire_body, bind, time_time, get_backoff, ret in Hp.
  simpl in Hp.
  set (cb := default 0 (backoff_until (limiter w) !! api_name)) in *.
  destruct (Qltb (clock w) cb) eqn:Hact.
  - destruct (Qltb timeout (cb - clock w)) eqn:Hlong.
    + simplify_eq. lra.
    + apply Qltb_lt in Hact. apply Qltb_ge in Hlong. unfold sleep in Hp.
      assert (E : Qltb (cb - clock w) 0 = false) by (apply Qltb_ge; lra).
      rewrite E in Hp.
      eapply poll_clock in Hp; [exact Hp | exact Ht |]. simpl. lra.
  - eapply poll_clock in Hp; [exact Hp | exact Ht |]. lra.
Qed.

Lemma clamp_timeout_nonneg timeout : 0 <= timeout -> 0 <= clamp_timeout timeout.
Proof.
  intros H. unfold clamp_timeout. destruct (Qltb MAX_TIMEOUT timeout); [|exact H].
  discriminate.
Qed.

End AcquireMore.

Section AcquireOutcomes.
Import RateLimiter.

Lemma acquire_body_starved fuel api_name timeout w b r w' :
  buckets (limiter w) !! api_name = Some b ->
  TokenBucket.capacity b < 1 ->
  acquire_body fuel api_name timeout w = Some (r, w') ->
  r <> Ok true /\
  exists b', buckets (limiter w') !! api_name = Some b' /\
             TokenBucket.capacity b' = TokenBucket.capacity b.
Proof.
  intros Hb Hc Hp.
  unfold acquire_body, bind, time_time, get_backoff, ret in Hp.
  simpl in Hp.
  set (cb := default 0 (backoff_until (limiter w) !! api_name)) in *.
  destruct (Qltb (clock w) cb) eqn:Hact.
  - destruct (Qltb timeout (cb - clock w)).
    + simplify_eq. split; [discriminate | eauto].
    + apply Qltb_lt in Hact. unfold sleep in Hp.
      assert (E : Qltb (cb - clock w) 0 = false) by (apply Qltb_ge; lra).
      rewrite E in Hp.
      eapply poll_starved in Hp; [exact Hp | exact Hb | exact Hc].
  - eapply poll_starved; eassumption.
Qed.

(** The outcome and the world of [acquire] in terms of those of its body,
    for a call that gets a slot. *)
Lemma acquire_through_body fuel api_name timeout w b v r w' :
  buckets (limiter w) !! api_name = Some b ->
  0 <= timeout ->
  waiters (limiter w) !! api_name = Some v ->
  v <> 0%Z ->
  acquire fuel api_name timeout w = Some (r, w') ->
  exists wb,
    acquire_body fuel api_name (clamp_timeout timeout)
      {| clock := clock w;
         limiter := with_waiters (limiter w)
                      (<[api_name := (v - 1)%Z]> (waiters (limiter w))) |}
    = Some (r, wb) /\
    clock w' = clock wb /\
    buckets (limiter w') = buckets (limiter wb) /\
    backoff_until (limiter w') = backoff_until (limiter wb).
Proof.
  intros Hb Ht Hv Hv0 Ha.
  rewrite (acquire_known _ _ _ _ b v) in Ha by assumption.
  unfold try_finally in Ha.
  destruct (acquire_body _ _ _ _) as [[rb wb]|] eqn:Hbody; [|discriminate].
  pose proof Hbody as Hinv.
  apply (acquire_body_inv _ _ _ _ b) in Hinv; [|exact Hb].
  destruct Hinv as (Hw & _). simpl in Hw.
  unfold sem_release, set_limiter in Ha. rewrite Hw, lookup_insert_eq in Ha.
  simplify_eq. exists wb. repeat split.
Qed.

End AcquireOutcomes.

(** X3.  A service limited to fewer than 12 requests per minute is never
    admitted.  Its bucket is built with capacity [rpm / 12 < 1]; a bucket of
    capacity below 1 never grants the one token [acquire] asks for, and
    [acquire] leaves the capacity as it is: whatever the timeout and the
    clock, [acquire] does not return [True]. *)
Theorem slow_service_never_admitted
    (limits : option (list (string * RateLimiter.pyval)))
    (t0 : Q) (rl : RateLimiter.t) (api_name : string)
    (rpm : RateLimiter.pyval) :
  RateLimiter.init limits t0 = Ok rl ->
  NoDup (map fst (RateLimiter.effective_limits limits)) ->
  (api_name, rpm) ∈ RateLimiter.effective_limits limits ->
  RateLimiter.as_number rpm < 12 ->
  (exists b,
     RateLimiter.buckets rl !! api_name = Some b /\
     TokenBucket.capacity b < 1) /\
  (forall w b fuel timeout r w',
     RateLimiter.buckets (RateLimiter.limiter w) !! api_name = Some b ->
     TokenBucket.capacity b < 1 ->
     RateLimiter.acquire fuel api_name timeout w = Some (r, w') ->
     r <> Ok true /\
     exists b',
       RateLimiter.buckets (RateLimiter.limiter w') !! api_name = Some b' /\
       TokenBucket.capacity b' < 1).
Proof.
  intros Hinit Hnd Hin Hslow. split.
  - destruct (proj1 (init_buckets limits t0 Hnd) rl Hinit) as [_ H].
    destruct (H api_name rpm Hin) as (_ & _ & b & Hb & _ & Hcap & _).
    exists b. split; [exact Hb|]. rewrite Hcap.
    assert (E : RateLimiter.as_number rpm / 12
                == RateLimiter.as_number rpm * (1 # 12)) by field.
    eapply Qle_lt_trans; [apply Q.le_min_r|]. rewrite E. lra.
  - intros w b fuel timeout r w' Hb Hc Ha.
    destruct (Qlt_le_dec timeout 0) as [Hneg|Ht].
    { rewrite acquire_invalid in Ha by (right; exact Hneg).
      simplify_eq. split; [discriminate | eauto]. }
    destruct (RateLimiter.waiters (RateLimiter.limiter w) !! api_name)
      as [v|] eqn:Hv.
    2:{ unfold RateLimiter.acquire, RateLimiter.bind,
          RateLimiter.sem_try_acquire in Ha.
        apply Qltb_ge in Ht. rewrite Hb, Ht, Hv in Ha.
        simplify_eq. split; [discriminate | eauto]. }
    destruct (decide (v = 0%Z)) as [->|Hv0].
    { rewrite (acquire_saturated _ _ _ _ b) in Ha by assumption.
      simplify_eq. split; [discriminate | eauto]. }
    destruct (acquire_through_body _ _ _ _ b v _ _ Hb Ht Hv Hv0 Ha)
      as (wb & Hbody & _ & Hbk & _).
    apply (acquire_body_starved _ _ _ _ b) in Hbody; [|exact Hb|exact Hc].
    destruct Hbody as (Hr & b' & Hb' & Hc'). split; [exact Hr|].
    exists b'. rewrite Hbk, Hc'. split; assumption.
Qed.

(** The default limits give "coinbase" 10 requests per minute: its bucket
    holds 10/12 of a token and a call with a full second to wait is
    refused. *)
Lemma slow_service_never_admitted_witness :
  (exists b,
     RateLimiter.buckets (RateLimiter.default_limiter 1000) !! "coinbase"
     = Some b /\
     TokenBucket.capacity b < 1) /\
  fst <$> RateLimiter.acquire RateLimiter.poll_fuel "coinbase" 1
            (RateLimiter.default_world 1000)
  <> Some (Ok true).
Proof.
  assert (Hnd : NoDup (map fst (RateLimiter.effective_limits None))).
  { refine (bool_decide_unpack _ _). vm_compute. reflexivity. }
  assert (Hin : ("coinbase", RateLimiter.PyInt 10)
                ∈ RateLimiter.effective_limits None).
  { simpl. unfold RateLimiter.API_LIMITS.
    do 3 apply list_elem_of_further. apply list_elem_of_here. }
  destruct (slow_service_never_admitted None 1000
              (RateLimiter.default_limiter 1000) "coinbase"
              (RateLimiter.PyInt 10) eq_refl Hnd Hin eq_refl)
    as [(b & Hb & Hc) Hnever].
  split; [exists b; split; assumption|].
  destruct (RateLimiter.acquire RateLimiter.poll_fuel "coinbase" 1
              (RateLimiter.default_world 1000)) as [[r w']|] eqn:Ha;
    [|discriminate].
  simpl. intros [= ->].
  apply (Hnever (RateLimiter.default_world 1000) b RateLimiter.poll_fuel 1
           (Ok true) w' Hb Hc Ha).
  reflexivity.
Defined.

(** X4.  Immediate admission.  On a known service with a free slot, no
    backoff deadline ahead and at least one token after the refill,
    [acquire] returns [True] without sleeping: the clock, the deadlines and
    the gates are as before, and the bucket of the service holds the
    refilled level less one token. *)
Theorem acquire_admits_at_once (api_name : string) (timeout : Q)
    (w : RateLimiter.world) (b : TokenBucket.t) (v : Z) (fuel : nat) :
  RateLimiter.buckets (RateLimiter.limiter w) !! api_name = Some b ->
  0 <= timeout ->
  RateLimiter.waiters (RateLimiter.limiter w) !! api_name = Some v ->
  v <> 0%Z ->
  default 0 (RateLimiter.backoff_until (RateLimiter.limiter w) !! api_name)
  <= RateLimiter.clock w ->
  1 <= TokenBucket.tokens (TokenBucket.refill (RateLimiter.clock w) b) ->
  exists w',
    RateLimiter.acquire (S fuel) api_name timeout w = Some (Ok true, w') /\
    RateLimiter.clock w' = RateLimiter.clock w /\
    RateLimiter.waiters (RateLimiter.limiter w')
    = RateLimiter.waiters (RateLimiter.limiter w) /\
    RateLimiter.backoff_until (RateLimiter.limiter w')
    = RateLimiter.backoff_until (RateLimiter.limiter w) /\
    RateLimiter.buckets (RateLimiter.limiter w')
    = <[api_name :=
          TokenBucket.mk (TokenBucket.rate b) (TokenBucket.capacity b)
            (TokenBucket.tokens (TokenBucket.refill (RateLimiter.clock w) b) - 1)
            (RateLimiter.clock w)]>
        (RateLimiter.buckets (RateLimiter.limiter w)).
Proof.
  intros Hb Ht Hv Hv0 Hidle Htok.
  assert (Hc : TokenBucket.consume (RateLimiter.clock w) 1 b
               = (true,
                  TokenBucket.mk (TokenBucket.rate b) (TokenBucket.capacity b)
                    (TokenBucket.tokens
                       (TokenBucket.refill (RateLimiter.clock w) b) - 1)
                    (RateLimiter.clock w))).
  { rewrite consume_level. cbv zeta.
    apply Qleb_le in Htok. simpl in Htok.
    change (inject_Z 1) with 1. rewrite Htok. reflexivity. }
  rewrite (acquire_known _ _ _ _ b v) by assumption.
  unfold RateLimiter.try_finally.
  rewrite acquire_body_idle by exact Hidle.
  rewrite (poll_step _ _ _ _ _ b) by exact Hb. cbv zeta.
  simpl RateLimiter.clock. rewrite Hc. simpl.
  unfold RateLimiter.sem_release, RateLimiter.set_limiter. simpl.
  rewrite lookup_insert_eq.
  eexists. split; [reflexivity|]. simpl. repeat split.
  rewrite insert_insert_eq.
  replace (v - 1 + 1)%Z with v by lia. apply insert_id. exact Hv.
Qed.

(** A call on the full "kraken" bucket of the default limiter. *)
Lemma acquire_admits_at_once_witness :
  exists w',
    RateLimiter.acquire 1 "kraken" 30 (RateLimiter.default_world 1000)
    = Some (Ok true, w') /\
    RateLimiter.clock w' = 1000.
Proof.
  destruct (acquire_admits_at_once "kraken" 30
              (RateLimiter.default_world 1000)
              (TokenBucket.init (15 / 60) (py_min 5 (15 / 12)) 1000)
              100 0%nat)
    as (w' & Ha & Hclk & _).
  - vm_compute. reflexivity.
  - vm_compute. discriminate.
  - vm_compute. reflexivity.
  - discriminate.
  - vm_compute. discriminate.
  - vm_compute. discriminate.
  - exists w'. split; assumption.
Defined.

(** X5.  Refusal during a backoff.  On a known service with a free slot,
    when the backoff deadline is further ahead than the (capped) timeout,
    [acquire] returns [False] at once, whatever the bucket holds: no token
    is taken, no time passes, and the world is exactly as before. *)
Theorem acquire_refused_in_backoff (api_name : string) (timeout : Q)
    (w : RateLimiter.world) (b : TokenBucket.t) (v : Z) (fuel : nat) :
  RateLimiter.buckets (RateLimiter.limiter w) !! api_name = Some b ->
  0 <= timeout ->
  RateLimiter.waiters (RateLimiter.limiter w) !! api_name = Some v ->
  v <> 0%Z ->
  RateLimiter.clamp_timeout timeout
  < default 0 (RateLimiter.backoff_until (RateLimiter.limiter w) !! api_name)
    - RateLimiter.clock w ->
  RateLimiter.acquire fuel api_name timeout w = Some (Ok false, w).
Proof.
  intros Hb Ht Hv Hv0 Hfar.
  pose proof (clamp_timeout_nonneg timeout Ht) as Hc0.
  rewrite (acquire_known _ _ _ _ b v) by assumption.
  unfold RateLimiter.try_finally, RateLimiter.acquire_body, RateLimiter.bind,
    RateLimiter.time_time, RateLimiter.get_backoff, RateLimiter.ret.
  simpl.
  set (cb := default 0 (RateLimiter.backoff_until (RateLimiter.limiter w)
                          !! api_name)) in *.
  assert (E1 : Qltb (RateLimiter.clock w) cb = true) by (apply Qltb_lt; lra).
  assert (E2 : Qltb (RateLimiter.clamp_timeout timeout)
                 (cb - RateLimiter.clock w) = true)
    by (apply Qltb_lt; exact Hfar).
  rewrite E1. simpl. rewrite E2.
  unfold RateLimiter.sem_release, RateLimiter.set_limiter. simpl.
  rewrite lookup_insert_eq, insert_insert_eq.
  replace (v - 1 + 1)%Z with v by lia.
  rewrite (insert_id _ _ _ Hv).
  destruct w as [c [l bk bo wa]]. reflexivity.
Qed.

(** The default limiter a second after a throttling report on "kraken". *)
Lemma acquire_refused_in_backoff_witness :
  let w := RateLimiter.backoff_set "kraken" 1060
             (RateLimiter.default_world 1001) in
  RateLimiter.acquire 5 "kraken" 30 w = Some (Ok false, w).
Proof.
  intros w.
  apply (acquire_refused_in_backoff "kraken" 30 w
           (TokenBucket.init (15 / 60) (py_min 5 (15 / 12)) 1001) 100 5%nat).
  - vm_compute. reflexivity.
  - vm_compute. discriminate.
  - vm_compute. reflexivity.
  - discriminate.
  - vm_compute. reflexivity.
Defined.

(** X6.  How long [acquire] can take.  Whenever [acquire] returns, with a
    timeout that is not negative, the clock has not gone back and has
    advanced by at most the timeout capped at [MAX_TIMEOUT], plus
    [MIN_SLEEP]: never more than 300.01 seconds. *)
Theorem acquire_blocking_bound (api_name : string) (timeout : Q)
    (w w' : RateLimiter.world) (fuel : nat) (r : result bool) :
  0 <= timeout ->
  RateLimiter.acquire fuel api_name timeout w = Some (r, w') ->
  RateLimiter.clock w <= RateLimiter.clock w' /\
  RateLimiter.clock w' - RateLimiter.clock w
  <= RateLimiter.clamp_timeout timeout + RateLimiter.MIN_SLEEP /\
  RateLimiter.clock w' - RateLimiter.clock w <= 300 + (1 # 100).
Proof.
  intros Ht Ha.
  pose proof (clamp_timeout_nonneg timeout Ht) as Hc0.
  pose proof (clamp_timeout_le timeout) as Hc1.
  pose proof MIN_SLEEP_pos as Hms.
  assert (Hsame : w' = w ->
            RateLimiter.clock w <= RateLimiter.clock w' /\
            RateLimiter.clock w' - RateLimiter.clock w
            <= RateLimiter.clamp_timeout timeout + RateLimiter.MIN_SLEEP /\
            RateLimiter.clock w' - RateLimiter.clock w <= 300 + (1 # 100)).
  { intros ->. unfold RateLimiter.MAX_TIMEOUT, RateLimiter.MIN_SLEEP in *.
    repeat split; lra. }
  destruct (RateLimiter.buckets (RateLimiter.limiter w) !! api_name)
    as [b|] eqn:Hb.
  2:{ rewrite acquire_invalid in Ha by (left; exact Hb).
      apply Hsame. by simplify_eq. }
  destruct (RateLimiter.waiters (RateLimiter.limiter w) !! api_name)
    as [v|] eqn:Hv.
  2:{ unfold RateLimiter.acquire, RateLimiter.bind,
        RateLimiter.sem_try_acquire in Ha.
      apply Qltb_ge in Ht. rewrite Hb, Ht, Hv in Ha.
      apply Hsame. by simplify_eq. }
  destruct (decide (v = 0%Z)) as [->|Hv0].
  { rewrite (acquire_saturated _ _ _ _ b) in Ha by assumption.
    apply Hsame. by simplify_eq. }
  destruct (acquire_through_body _ _ _ _ b v _ _ Hb Ht Hv Hv0 Ha)
    as (wb & Hbody & Hclk & _).
  pose proof (acquire_body_clock _ _ _ _ _ _ Hc0 Hbody) as Hup.
  apply (acquire_body_inv _ _ _ _ b) in Hbody; [|exact Hb].
  destruct Hbody as (_ & _ & _ & Hmono & _). simpl in Hup, Hmono.
  rewrite Hclk. unfold RateLimiter.MAX_TIMEOUT, RateLimiter.MIN_SLEEP in *.
  repeat split; lra.
Qed.

(** A call on the starved "coinbase" bucket with a timeout of 1 second
    takes 1.01 seconds at most. *)
Lemma acquire_blocking_bound_witness :
  match RateLimiter.acquire RateLimiter.poll_fuel "coinbase" 1
          (RateLimiter.default_world 1000) with
  | Some (_, w') => RateLimiter.clock w' - 1000 <= 1 + (1 # 100)
  | None => True
  end.
Proof.
  destruct (RateLimiter.acquire RateLimiter.poll_fuel "coinbase" 1
              (RateLimiter.default_world 1000)) as [[r w']|] eqn:Ha;
    [|exact I].
  destruct (acquire_blocking_bound "coinbase" 1
              (RateLimiter.default_world 1000) w' RateLimiter.poll_fuel r)
    as (_ & H & _); [vm_compute; discriminate | exact Ha |].
  exact H.
Defined.

(** X7.  A throttling report blocks admission until the backoff is reset.
    On an idle service with a token available and a free slot, at a clock
    reading [now >= 0]: after [report_rate_limit_error(api)], [acquire]
    with a timeout below 60 seconds returns [False] and takes no token;
    after [reset_backoff(api)] it returns [True] at once. *)
Theorem throttle_blocks_until_reset (api_name : string) (timeout : Q)
    (w : RateLimiter.world) (b : TokenBucket.t) (v : Z) (fuel : nat) :
  RateLimiter.buckets (RateLimiter.limiter w) !! api_name = Some b ->
  RateLimiter.waiters (RateLimiter.limiter w) !! api_name = Some v ->
  v <> 0%Z ->
  0 <= RateLimiter.clock w ->
  default 0 (RateLimiter.backoff_until (RateLimiter.limiter w) !! api_name)
  <= RateLimiter.clock w ->
  1 <= TokenBucket.tokens (TokenBucket.refill (RateLimiter.clock w) b) ->
  0 <= timeout -> timeout < 60 ->
  RateLimiter.bind (RateLimiter.report_rate_limit_error api_name None)
    (fun _ => RateLimiter.acquire (S fuel) api_name timeout) w
  = Some (Ok false,
          RateLimiter.backoff_set api_name (RateLimiter.clock w + 60) w) /\
  exists w',
    RateLimiter.bind (RateLimiter.report_rate_limit_error api_name None)
      (fun _ =>
         RateLimiter.bind (RateLimiter.reset_backoff api_name)
           (fun _ => RateLimiter.acquire (S fuel) api_name timeout)) w
    = Some (Ok true, w') /\
    RateLimiter.clock w' = RateLimiter.clock w.
Proof.
  intros Hb Hv Hv0 Hnow Hidle Htok Ht Ht60.
  assert (Hclamp : RateLimiter.clamp_timeout timeout = timeout).
  { unfold RateLimiter.clamp_timeout.
    assert (E : Qltb RateLimiter.MAX_TIMEOUT timeout = false)
      by (apply Qltb_ge; unfold RateLimiter.MAX_TIMEOUT; lra).
    rewrite E. reflexivity. }
  split.
  - unfold RateLimiter.bind at 1. rewrite report_none_idle by exact Hidle.
    apply (acquire_refused_in_backoff _ _ _ b v); try assumption.
    simpl. rewrite lookup_insert_eq, Hclamp. simpl. lra.
  - unfold RateLimiter.bind at 1. rewrite report_none_idle by exact Hidle.
    unfold RateLimiter.bind at 1. rewrite reset_backoff_eq.
    destruct (acquire_admits_at_once api_name timeout
                (RateLimiter.backoff_set api_name 0
                   (RateLimiter.backoff_set api_name
                      (RateLimiter.clock w + 60) w))
                b v fuel) as (w' & Ha & Hclk & _); try assumption.
    + simpl. rewrite lookup_insert_eq. exact Hnow.
    + exists w'. split; [exact Ha | exact Hclk].
Qed.

Lemma throttle_blocks_until_reset_witness :
  let w := RateLimiter.default_world 1000 in
  RateLimiter.bind (RateLimiter.report_rate_limit_error "kraken" None)
    (fun _ => RateLimiter.acquire 1 "kraken" 30) w
  = Some (Ok false, RateLimiter.backoff_set "kraken" (1000 + 60) w).
Proof.
  intros w.
  refine (proj1 (throttle_blocks_until_reset "kraken" 30 w
                   (TokenBucket.init (15 / 60) (py_min 5 (15 / 12)) 1000)
                   100 0%nat _ _ _ _ _ _ _ _)).
  - vm_compute. reflexivity.
  - vm_compute. reflexivity.
  - discriminate.
  - vm_compute. discriminate.
  - vm_compute. discriminate.
  - vm_compute. discriminate.
  - vm_compute. discriminate.
  - vm_compute. reflexivity.
Defined.

(** ** RateLimiter: get_stats and the bucket locks *)

Section LockFacts.
Import Locks.

Lemma release_head l held : l ∉ held -> release l (l :: held) = held.
Proof.
  intros Hl. unfold release. simpl.
  rewrite bool_decide_eq_true_2 by reflexivity. simpl.
  induction held as [|l' held IH]; [reflexivity|].
  apply not_elem_of_cons in Hl as [Hne Hl]. simpl.
  rewrite bool_decide_eq_false_2 by congruence. simpl.
  rewrite IH by exact Hl. reflexivity.
Qed.

(** A method that takes a lock the thread does not hold returns and leaves
    the locks as they were. *)
Lemma with_lock_free {A} l (a : A) held :
  l ∉ held -> with_lock l (lret a) held = Some (a, held).
Proof.
  intros Hl. unfold with_lock, lret.
  rewrite bool_decide_eq_false_2 by exact Hl.
  rewrite release_head by exact Hl. reflexivity.
Qed.

(** A method that takes a lock the thread holds never returns. *)
Lemma with_lock_held {A} l (body : L A) held :
  l ∈ held -> with_lock l body held = None.
Proof.
  intros Hl. unfold with_lock. rewrite bool_decide_eq_true_2 by exact Hl.
  reflexivity.
Qed.

Lemma stats_round_blocks backoff_data stats item held :
  stats_round backoff_data (Ok stats) item held = None.
Proof.
  destruct item as [api_name bucket]. unfold stats_round, with_lock.
  destruct (bool_decide (BucketLock api_name ∈ held)); [reflexivity|].
  unfold lbind. unfold wait_time.
  rewrite with_lock_held by apply list_elem_of_here. reflexivity.
Qed.

End LockFacts.

(** X8.  [get_stats] takes the lock of a bucket and, holding it, calls
    [wait_time], which takes the same lock.  Called by a thread that holds
    no lock, on a limiter with at least one service, [get_stats] never
    returns; with no service it returns the empty dict.  [wait_time] and
    [consume] called by a thread that does not hold the bucket's lock, as
    [acquire] calls them, return and leave the locks as they were. *)
Theorem get_stats_never_returns (rl : RateLimiter.t) :
  (RateLimiter.buckets rl <> ∅ -> Locks.get_stats rl [] = None) /\
  (RateLimiter.buckets rl = ∅ -> Locks.get_stats rl [] = Some (Ok ∅, [])) /\
  (forall api_name b now n held,
     Locks.BucketLock api_name ∉ held ->
     Locks.wait_time api_name b held = Some (TokenBucket.wait_time b, held) /\
     Locks.consume api_name now n b held
     = Some (TokenBucket.consume now n b, held)).
Proof.
  split; [|split].
  - intros Hne. unfold Locks.get_stats, Locks.lbind.
    rewrite with_lock_free by apply not_elem_of_nil.
    destruct (map_to_list (RateLimiter.buckets rl)) as [|item rest] eqn:Hl.
    { apply map_to_list_empty_iff in Hl. contradiction. }
    cbn [Locks.stats_loop]. unfold Locks.lbind at 1.
    rewrite stats_round_blocks. reflexivity.
  - intros He. unfold Locks.get_stats, Locks.lbind.
    rewrite with_lock_free by apply not_elem_of_nil.
    rewrite He, map_to_list_empty. reflexivity.
  - intros api_name b now n held Hfree. split; apply with_lock_free, Hfree.
Qed.

(** The default limiter has four services. *)
Lemma get_stats_never_returns_witness :
  Locks.get_stats (RateLimiter.default_limiter 1000) [] = None.
Proof.
  apply (proj1 (get_stats_never_returns (RateLimiter.default_limiter 1000))).
  intros H.
  assert (E : RateLimiter.buckets (RateLimiter.default_limiter 1000)
              !! "kraken" = None) by (rewrite H; apply lookup_empty).
  vm_compute in E. discriminate.
Defined.

(** ** TTLCache: round trips, deletion and counters *)

Section CacheMore.
Import TTLCache.
Context {V : Type}.
Implicit Types (c : TTLCache.t V) (d : list (string * (V * Q))).

Lemma od_get_snoc key (e : V * Q) d :
  key ∉ map fst d -> od_get key (d ++ [(key, e)]) = Some e.
Proof.
  induction d as [|[k e'] d IH]; simpl; intros Hk.
  - rewrite decide_True by reflexivity. reflexivity.
  - apply not_elem_of_cons in Hk as [Hne Hk].
    rewrite decide_False by congruence. apply IH, Hk.
Qed.

(** Where a successful [set] leaves its entry: last, and alone under its
    key. *)
Lemma set_stores now key value ttl c c' :
  NoDup (keys c) ->
  set now key value ttl c = Ok c' ->
  exists d,
    cache c' = d ++ [(key, (value, now + inject_Z (effective_ttl ttl c)))] /\
    (key ∉ map fst d) /\ NoDup (map fst d) /\
    (forall x, x ∈ d -> x ∈ live now (cache c)).
Proof.
  intros Hnd Hset.
  pose proof (live_NoDup now (cache c) Hnd) as Hlnd.
  destruct (set_cases _ _ _ _ _ _ Hnd Hset) as (_ & _ & _ & _ & Hcases).
  destruct Hcases as [(Hin & Hc & _)|[(Hnin & _ & Hc & _)
                                    |(Hnin & _ & lru & rest & Hlv & Hc & _)]].
  - exists (od_del key (live now (cache c))). repeat split.
    + exact Hc.
    + apply od_del_gone, Hlnd.
    + apply od_del_NoDup, Hlnd.
    + intros x. apply od_del_subset.
  - exists (live now (cache c)). repeat split; auto.
  - exists rest. rewrite Hlv in *. simpl in Hlnd, Hnin.
    apply NoDup_cons in Hlnd as [_ Hlnd].
    apply not_elem_of_cons in Hnin as [_ Hnin].
    repeat split; auto. intros x Hx. apply list_elem_of_further, Hx.
Qed.

End CacheMore.

(** X9.  [set] then [get].  On a cache with distinct keys, after a [set]
    that returns, the key holds the value with expiry [now + ttl] (the
    default TTL when none is given, at most [MAX_TTL]).  A [get] of the key
    at a clock reading up to that expiry returns the value; a [get] after
    it returns [None], removes the entry and counts one eviction. *)
Theorem set_then_get {V : Type} (now now' : Q) (key : string) (value : V)
    (ttl : option Z) (c c' : TTLCache.t V) :
  NoDup (TTLCache.keys c) ->
  TTLCache.set now key value ttl c = Ok c' ->
  let expiry := now + inject_Z (TTLCache.effective_ttl ttl c) in
  TTLCache.od_get key (TTLCache.cache c') = Some (value, expiry) /\
  (now' <= expiry -> fst (TTLCache.get now' key c') = Some value) /\
  (expiry < now' ->
   fst (TTLCache.get now' key c') = None /\
   TTLCache.od_get key (TTLCache.cache (snd (TTLCache.get now' key c')))
   = None /\
   TTLCache.evictions (snd (TTLCache.get now' key c'))
   = (TTLCache.evictions c' + 1)%Z).
Proof.
  intros Hnd Hset expiry.
  destruct (set_stores _ _ _ _ _ _ Hnd Hset) as (d & Hc & Hk & Hdnd & _).
  fold expiry in Hc.
  assert (Hg : TTLCache.od_get key (TTLCache.cache c') = Some (value, expiry)).
  { rewrite Hc. apply od_get_snoc, Hk. }
  assert (Hnd' : NoDup (map fst (TTLCache.cache c'))).
  { rewrite Hc. apply keys_snoc_NoDup; assumption. }
  split; [exact Hg|]. split.
  - intros Hx. rewrite (get_live _ _ _ _ _ Hg Hx). reflexivity.
  - intros Hx. rewrite (get_expired _ _ _ _ _ Hg Hx). simpl.
    repeat split. apply od_get_None, od_del_gone, Hnd'.
Qed.

(** [set(k, v, ttl=1)] on an empty cache at clock reading 0: [get] at 1
    returns [v], [get] at 2 returns [None]. *)
Lemma set_then_get_witness :
  match TTLCache.set 0 "k" 7%Z (Some 1%Z) (TTLCache.mk 10 300 [] 0 0 0) with
  | Ok c' =>
      fst (TTLCache.get 1 "k" c') = Some 7%Z /\
      fst (TTLCache.get 2 "k" c') = None
  | Raise _ => False
  end.
Proof.
  destruct (TTLCache.set 0 "k" 7%Z (Some 1%Z) (TTLCache.mk 10 300 [] 0 0 0))
    as [c'|e] eqn:Hset; [|vm_compute in Hset; discriminate].
  assert (Hnd : NoDup (TTLCache.keys (TTLCache.mk (V := Z) 10 300 [] 0 0 0)))
    by apply NoDup_nil_2.
  split.
  - apply (proj1 (proj2 (set_then_get 0 1 "k" 7%Z (Some 1%Z) _ c' Hnd Hset))).
    vm_compute. discriminate.
  - apply (proj2 (proj2 (set_then_get 0 2 "k" 7%Z (Some 1%Z) _ c' Hnd Hset))).
    vm_compute. reflexivity.
Defined.

Section CacheOthers.
Import TTLCache.
Context {V : Type}.
Implicit Types (c : TTLCache.t V) (d : list (string * (V * Q))).

Lemma od_get_live now k (e : V * Q) d :
  NoDup (map fst d) ->
  (od_get k (live now d) = Some e <->
   od_get k d = Some e /\ now <= snd e).
Proof.
  intros Hnd. split.
  - intros H. apply od_get_Some in H.
    pose proof (live_subset _ _ _ H) as Hin.
    split; [apply od_get_elem; assumption|].
    unfold live in H. apply list_elem_of_In, filter_In in H as [_ H].
    unfold item_expired in H. simpl in H.
    apply negb_true_iff, Qltb_ge in H. exact H.
  - intros [H Hx]. apply od_get_elem; [apply live_NoDup, Hnd|].
    apply od_get_Some in H. unfold live.
    apply list_elem_of_In, filter_In. split; [apply list_elem_of_In, H|].
    unfold item_expired. simpl. apply negb_true_iff, Qltb_ge, Hx.
Qed.

End CacheOthers.

(** X10.  [set] leaves the other keys alone.  On a cache with distinct
    keys, after a [set] of [key] that returns, any other key found in the
    cache has the value and expiry it had before; and any other key that
    was present and not expired is still there, unless the cache was full
    of live entries, [key] was new and that key was the oldest. *)
Theorem set_keeps_others {V : Type} (now : Q) (key k : string) (value : V)
    (ttl : option Z) (c c' : TTLCache.t V) (e : V * Q) :
  NoDup (TTLCache.keys c) ->
  TTLCache.set now key value ttl c = Ok c' ->
  k <> key ->
  (TTLCache.od_get k (TTLCache.cache c') = Some e ->
   TTLCache.od_get k (TTLCache.cache c) = Some e /\ now <= snd e) /\
  (TTLCache.od_get k (TTLCache.cache c) = Some e ->
   now <= snd e ->
   TTLCache.od_get k (TTLCache.cache c') = Some e \/
   ((key ∉ map fst (TTLCache.live now (TTLCache.cache c))) /\
    (TTLCache.max_size c
     <= Z.of_nat (length (TTLCache.live now (TTLCache.cache c))))%Z /\
    head (TTLCache.live now (TTLCache.cache c)) = Some (k, e))).
Proof.
  intros Hnd Hset Hne.
  pose proof (live_NoDup now (TTLCache.cache c) Hnd) as Hlnd.
  destruct (set_cases _ _ _ _ _ _ Hnd Hset) as (_ & _ & _ & _ & Hcases).
  split.
  - intros Hg.
    apply (od_get_live now k e (TTLCache.cache c) Hnd).
    destruct Hcases as [(_ & Hc & _)|[(_ & _ & Hc & _)
                                     |(_ & _ & lru & rest & Hlv & Hc & _)]];
      rewrite Hc, od_get_app_last in Hg by exact Hne.
    + rewrite od_del_other in Hg by exact Hne. exact Hg.
    + exact Hg.
    + rewrite Hlv. apply od_get_elem; [rewrite <- Hlv; exact Hlnd|].
      apply list_elem_of_further, od_get_Some, Hg.
  - intros Hg Hx.
    assert (Hl : TTLCache.od_get k (TTLCache.live now (TTLCache.cache c))
                 = Some e).
    { apply od_get_live; [exact Hnd | split; assumption]. }
    destruct Hcases as [(_ & Hc & _)|[(_ & _ & Hc & _)
                                     |(Hnin & Hfull & lru & rest & Hlv & Hc & _)]].
    + left. rewrite Hc, od_get_app_last, od_del_other by exact Hne. exact Hl.
    + left. rewrite Hc, od_get_app_last by exact Hne. exact Hl.
    + rewrite Hlv in Hl. simpl in Hl. destruct lru as [k0 e0].
      destruct (decide (k0 = k)) as [->|Hk0].
      * right. injection Hl as ->.
        split; [exact Hnin|]. split; [exact Hfull|].
        rewrite Hlv. reflexivity.
      * left. rewrite Hc, od_get_app_last by exact Hne. exact Hl.
Qed.

Lemma set_keeps_others_witness :
  match TTLCache.set 1 "b" 2%Z None
          (TTLCache.mk 2 300 [("a", (1%Z, 300))] 0 0 0) with
  | Ok c' => TTLCache.od_get "a" (TTLCache.cache c') = Some (1%Z, 300)
  | Raise _ => False
  end.
Proof.
  destruct (TTLCache.set 1 "b" 2%Z None
              (TTLCache.mk 2 300 [("a", (1%Z, 300))] 0 0 0))
    as [c'|err] eqn:Hset; [|vm_compute in Hset; discriminate].
  assert (Hnd : NoDup (TTLCache.keys
                         (TTLCache.mk 2 300 [("a", (1%Z, 300))] 0 0 0))).
  { refine (bool_decide_unpack _ _). vm_compute. reflexivity. }
  destruct (proj2 (set_keeps_others 1 "b" "a" 2%Z None _ c' (1%Z, 300)
                     Hnd Hset ltac:(discriminate)))
    as [H|(_ & Hfull & _)].
  - reflexivity.
  - vm_compute. discriminate.
  - exact H.
  - exfalso. vm_compute in Hfull. apply Hfull. reflexivity.
Defined.

(** X11.  [delete].  On a cache with distinct keys, [delete(key)] removes
    the key, leaves every other key, the counters and the configuration as
    they were (a deletion is not an eviction), and does nothing when
    repeated; the next [get] of the key is a miss. *)
Theorem delete_removes {V : Type} (now : Q) (key : string) (c : TTLCache.t V) :
  NoDup (TTLCache.keys c) ->
  let c' := TTLCache.delete key c in
  TTLCache.od_get key (TTLCache.cache c') = None /\
  (forall k, k <> key ->
     TTLCache.od_get k (TTLCache.cache c')
     = TTLCache.od_get k (TTLCache.cache c)) /\
  TTLCache.hits c' = TTLCache.hits c /\
  TTLCache.misses c' = TTLCache.misses c /\
  TTLCache.evictions c' = TTLCache.evictions c /\
  TTLCache.max_size c' = TTLCache.max_size c /\
  TTLCache.delete key c' = c' /\
  TTLCache.get now key c' = (None, TTLCache.add_miss c').
Proof.
  intros Hnd c'.
  assert (Hgone : TTLCache.od_get key (TTLCache.cache c') = None).
  { unfold c', TTLCache.delete.
    destruct (TTLCache.od_mem key (TTLCache.cache c)) eqn:Hm; simpl.
    - apply od_get_None, od_del_gone, Hnd.
    - apply od_get_None, od_mem_false, Hm. }
  assert (Hcfg : TTLCache.hits c' = TTLCache.hits c /\
                 TTLCache.misses c' = TTLCache.misses c /\
                 TTLCache.evictions c' = TTLCache.evictions c /\
                 TTLCache.max_size c' = TTLCache.max_size c).
  { unfold c', TTLCache.delete.
    destruct (TTLCache.od_mem key (TTLCache.cache c)); repeat split. }
  destruct Hcfg as (H1 & H2 & H3 & H4).
  repeat split; try assumption.
  - intros k Hk. unfold c', TTLCache.delete.
    destruct (TTLCache.od_mem key (TTLCache.cache c)); [|reflexivity].
    simpl. apply od_del_other. exact Hk.
  - unfold TTLCache.delete at 1.
    assert (E : TTLCache.od_mem key (TTLCache.cache c') = false).
    { unfold TTLCache.od_mem. rewrite Hgone. reflexivity. }
    rewrite E. reflexivity.
  - apply get_absent. exact Hgone.
Qed.

Lemma delete_removes_witness :
  let c : TTLCache.t Z :=
    TTLCache.mk 2 300 [("a", (1%Z, 300)); ("b", (2%Z, 300))] 0 0 0 in
  TTLCache.od_get "a" (TTLCache.cache (TTLCache.delete "a" c)) = None /\
  TTLCache.evictions (TTLCache.delete "a" c) = 0%Z.
Proof.
  intros c.
  assert (Hnd : NoDup (TTLCache.keys c)).
  { refine (bool_decide_unpack _ _). vm_compute. reflexivity. }
  destruct (delete_removes 0 "a" c Hnd) as (H1 & _ & _ & _ & H2 & _).
  split; assumption.
Defined.

Section CounterFacts.
Import TTLCache.
Context {V : Type}.
Implicit Types (c : TTLCache.t V).

Lemma evict_expired_counters now c :
  hits (_evict_expired now c) = hits c /\
  misses (_evict_expired now c) = misses c /\
  (evictions c <= evictions (_evict_expired now c))%Z.
Proof.
  unfold _evict_expired. rewrite evict_fold. simpl. repeat split. lia.
Qed.

Lemma step_counters c (o : op V) :
  (hits c <= hits (step c o))%Z /\
  (misses c <= misses (step c o))%Z /\
  (evictions c <= evictions (step c o))%Z /\
  (hits (step c o) + misses (step c o)
   = hits c + misses c + count_gets [o])%Z.
Proof.
  destruct o as [now key|now key value ttl|key|]; unfold count_gets; simpl.
  - unfold get. destruct (od_get key (cache c)) as [[v e]|]; simpl.
    + destruct (_is_expired now e); simpl.
      * destruct (Qeq_bool e e); simpl; repeat split; lia.
      * repeat split; lia.
    + repeat split; lia.
  - unfold set.
    destruct (_ <? 0)%Z; [repeat split; lia|].
    destruct (_ || _); [repeat split; lia|].
    destruct (evict_expired_counters now c) as (H1 & H2 & H3).
    destruct (od_mem key _); simpl; [rewrite H1, H2; repeat split; lia|].
    unfold _evict_lru. destruct (_ <=? _)%Z.
    + destruct (od_popitem_first _) as [[x d']|]; simpl;
        [rewrite H1, H2|]; repeat split; lia.
    + simpl. rewrite H1, H2. repeat split; lia.
  - unfold delete. destruct (od_mem key (cache c)); simpl; repeat split; lia.
  - repeat split; lia.
Qed.

Lemma count_gets_cons (o : op V) ops :
  count_gets (o :: ops) = (count_gets [o] + count_gets ops)%Z.
Proof.
  unfold count_gets. simpl. destruct o; simpl; lia.
Qed.

End CounterFacts.

(** X12.  The counters.  Over any sequence of calls ([get], [set],
    [delete], [clear], a [set] that raises included), the hit, miss and
    eviction counters never decrease, and [hits + misses] grows by exactly
    the number of [get] calls: [delete] and [clear] count nothing and
    [clear] does not reset the counters. *)
Theorem counters_monotone {V : Type} (ops : list (TTLCache.op V))
    (c : TTLCache.t V) :
  let c' := TTLCache.run ops c in
  (TTLCache.hits c <= TTLCache.hits c')%Z /\
  (TTLCache.misses c <= TTLCache.misses c')%Z /\
  (TTLCache.evictions c <= TTLCache.evictions c')%Z /\
  (TTLCache.hits c' + TTLCache.misses c'
   = TTLCache.hits c + TTLCache.misses c + TTLCache.count_gets ops)%Z.
Proof.
  revert c. induction ops as [|o ops IH]; intros c; simpl.
  - unfold TTLCache.count_gets. simpl. repeat split; lia.
  - change (TTLCache.run (o :: ops) c)
      with (TTLCache.run ops (TTLCache.step c o)).
    destruct (IH (TTLCache.step c o)) as (I1 & I2 & I3 & I4).
    destruct (step_counters c o) as (S1 & S2 & S3 & S4).
    rewrite count_gets_cons. repeat split; lia.
Qed.

Section SetErrors.
Import TTLCache.
Context {V : Type}.

Lemma effective_ttl_capped (ttl : Z) (c : TTLCache.t V) :
  (MAX_TTL < ttl)%Z ->
  effective_ttl (Some ttl) c = effective_ttl (Some MAX_TTL) c.
Proof.
  intros H. unfold effective_ttl.
  apply Z.ltb_lt in H. rewrite H. reflexivity.
Qed.

End SetErrors.

(** X13.  When [set] raises.  On a cache that satisfies the invariant of
    the constructor, [set] raises, and then [ValueError], exactly when the
    TTL (the default TTL when none is given) is negative; otherwise it
    returns a cache.  A TTL above [MAX_TTL] (7 days) is not an error: it
    behaves as [MAX_TTL]. *)
Theorem set_raises_iff {V : Type} (now : Q) (key : string) (value : V)
    (ttl : option Z) (c : TTLCache.t V) :
  TTLCache.inv c ->
  let t := match ttl with Some x => x | None => TTLCache.default_ttl c end in
  ((t < 0)%Z -> TTLCache.set now key value ttl c = Raise ValueError) /\
  ((0 <= t)%Z -> exists c', TTLCache.set now key value ttl c = Ok c') /\
  (forall x,
     (TTLCache.MAX_TTL < x)%Z ->
     TTLCache.set now key value (Some x) c
     = TTLCache.set now key value (Some TTLCache.MAX_TTL) c).
Proof.
  intros (Hmax & _ & _) t. split; [|split].
  - intros Hneg. apply set_negative_ttl. exact Hneg.
  - intros Hpos. apply set_returns; assumption.
  - intros x Hbig.
    rewrite !set_unfold by (unfold TTLCache.MAX_TTL in *; lia).
    rewrite (effective_ttl_capped x c Hbig). reflexivity.
Qed.

Lemma set_raises_iff_witness :
  let c : TTLCache.t Z := TTLCache.mk 2 300 [] 0 0 0 in
  TTLCache.set 0 "k" 7%Z (Some (-1)%Z) c = Raise ValueError /\
  (exists c', TTLCache.set 0 "k" 7%Z None c = Ok c') /\
  TTLCache.set 0 "k" 7%Z (Some 1000000%Z) c
  = TTLCache.set 0 "k" 7%Z (Some TTLCache.MAX_TTL) c.
Proof.
  intros c.
  assert (Hinv : TTLCache.inv c).
  { repeat split; [apply NoDup_nil_2 | vm_compute; discriminate]. }
  split; [|split].
  - apply (proj1 (set_raises_iff 0 "k" 7%Z (Some (-1)%Z) c Hinv)). reflexivity.
  - apply (proj1 (proj2 (set_raises_iff 0 "k" 7%Z None c Hinv))).
    vm_compute. discriminate.
  - apply (proj2 (proj2 (set_raises_iff 0 "k" 7%Z (Some 1000000%Z) c Hinv))
             1000000%Z). reflexivity.
Defined.

(** ** CryptoAPICache: the TTL policy and the cached calls *)

Section TtlFacts.
Import CryptoAPICache.

Lemma prefix_trans (a b e : string) :
  String.prefix a b = true -> String.prefix b e = true ->
  String.prefix a e = true.
Proof.
  revert b e. induction a as [|x a IH]; intros b e Hab Hbe;
    [destruct e; reflexivity|].
  destruct b as [|y b]; [discriminate|].
  destruct e as [|z e]; [discriminate|].
  simpl in *.
  destruct (Ascii.ascii_dec x y) as [->|]; [|discriminate].
  destruct (Ascii.ascii_dec y z) as [->|]; [|discriminate].
  destruct (Ascii.ascii_dec z z); [|congruence].
  eapply IH; eassumption.
Qed.

(** A string that contains [b] contains every prefix of [b]. *)
Lemma contains_prefix (a b e : string) :
  String.prefix a b = true -> contains b e = true -> contains a e = true.
Proof.
  intros Hab. induction e as [|z e IH]; cbn [contains]; intros H.
  - rewrite orb_false_r in *. eapply prefix_trans; eassumption.
  - apply orb_true_iff in H as [H|H]; apply orb_true_iff.
    + left. eapply prefix_trans; eassumption.
    + right. apply IH, H.
Qed.

End TtlFacts.

(** X14.  The TTL policy.  [_get_ttl_for_endpoint] never raises and returns
    a TTL between 120 and 7200 seconds.  An endpoint that contains "price"
    gets 120 and one that contains "markets" but not "price" gets 180, so
    the endpoints whose keys are bucketed by minute are exactly those with
    a TTL of 180 or less, and every other endpoint gets 300 or more.  The
    pattern "prices" never decides: without it the policy is the same. *)
Theorem ttl_policy (endpoint : string) :
  exists ttl,
    CryptoAPICache._get_ttl_for_endpoint endpoint = Ok ttl /\
    (120 <= ttl <= 7200)%Z /\
    (CryptoAPICache.contains "price" endpoint = true -> ttl = 120%Z) /\
    (CryptoAPICache.contains "price" endpoint = false ->
     CryptoAPICache.contains "markets" endpoint = true -> ttl = 180%Z) /\
    (CryptoAPICache.is_live endpoint = true <-> (ttl <= 180)%Z) /\
    (CryptoAPICache.is_live endpoint = false -> (300 <= ttl)%Z) /\
    CryptoAPICache.first_match CryptoAPICache.TTL_CONFIG endpoint
    = CryptoAPICache.first_match
        (List.filter (fun item => negb (String.eqb (fst item) "prices"))
           CryptoAPICache.TTL_CONFIG)
        endpoint.
Proof.
  unfold CryptoAPICache._get_ttl_for_endpoint, CryptoAPICache.is_live.
  simpl.
  pose proof (contains_prefix "price" "prices" endpoint eq_refl) as Hsh.
  destruct (CryptoAPICache.contains "price" endpoint) eqn:E1.
  { eexists. split; [reflexivity|]. repeat split; try lia; try discriminate;
      try reflexivity. }
  destruct (CryptoAPICache.contains "prices" endpoint) eqn:E2.
  { discriminate (Hsh eq_refl). }
  destruct (CryptoAPICache.contains "markets" endpoint) eqn:E3.
  { eexists. split; [reflexivity|]. repeat split; try lia; try discriminate;
      try reflexivity. }
  destruct (CryptoAPICache.contains "ohlc" endpoint);
    [|destruct (CryptoAPICache.contains "market_chart" endpoint);
      [|destruct (CryptoAPICache.contains "history" endpoint);
        [|destruct (CryptoAPICache.contains "coins" endpoint);
          [|destruct (CryptoAPICache.contains "global" endpoint);
            [|destruct (CryptoAPICache.contains "default" endpoint)]]]]];
    (eexists; split; [reflexivity|];
     repeat split; try lia; try discriminate; try reflexivity;
     intros; try lia; try discriminate).
Qed.

Lemma ttl_policy_witness :
  CryptoAPICache._get_ttl_for_endpoint "/simple/price" = Ok 120%Z /\
  CryptoAPICache._get_ttl_for_endpoint "/coins/markets" = Ok 180%Z.
Proof.
  split.
  - destruct (ttl_policy "/simple/price") as (ttl & H & _ & Hp & _).
    rewrite H. f_equal. apply Hp. reflexivity.
  - destruct (ttl_policy "/coins/markets") as (ttl & H & _ & _ & Hm & _).
    rewrite H. f_equal. apply Hm; reflexivity.
Defined.

Section FacadeFacts.
Import CryptoAPICache.
Context {Val V : Type}.
Variable json_value : Val -> string.
Variable json_key : string -> string.
Variable sha256_hexdigest : string -> string.

(** Two derivations give the same key when the parameters have the same
    items and, for a live endpoint, the clock readings are in the same
    minute since the epoch. *)
Lemma same_cache_key endpoint (p1 p2 : list (string * Val)) t t' :
  NoDup (map fst p1) -> p1 ≡ₚ p2 ->
  (is_live endpoint = true ->
   exists k, (0 <= k)%Z /\
     inject_Z (60 * k) <= t /\ t < inject_Z (60 * (k + 1)) /\
     inject_Z (60 * k) <= t' /\ t' < inject_Z (60 * (k + 1))) ->
  _generate_cache_key json_value json_key sha256_hexdigest
    endpoint (Some p1) t
  = _generate_cache_key json_value json_key sha256_hexdigest
      endpoint (Some p2) t'.
Proof.
  intros Hnd Hperm Hlive.
  destruct (cache_key_derivation json_value json_key sha256_hexdigest endpoint)
    as (Horder & Hbucket & Hstatic).
  rewrite (Horder p1 p2 t Hnd Hperm).
  destruct (is_live endpoint) eqn:E.
  - destruct (Hlive eq_refl) as (k & Hk & H1 & H2 & H3 & H4).
    apply (proj1 (Hbucket eq_refl (Some p2) k t t' Hk H1 H2)); assumption.
  - apply Hstatic. reflexivity.
Qed.

End FacadeFacts.

(** X15.  A cached response is found again.  On a cache that satisfies the
    invariant of the constructor, [set(endpoint, params, value)] never
    raises, and a later [get] with the same endpoint and parameters (in any
    order) returns the value: for a live endpoint when both calls are made
    in the same minute since the epoch, for any other endpoint when the
    [get] is made no later than the TTL of the endpoint after the [set]. *)
Theorem api_cache_round_trip {Val V : Type} (json_value : Val -> string)
    (json_key sha256_hexdigest : string -> string) (endpoint : string)
    (p1 p2 : list (string * Val)) (value : V) (now now' : Q)
    (c : TTLCache.t V) :
  TTLCache.inv c ->
  NoDup (map fst p1) -> p1 ≡ₚ p2 ->
  now <= now' ->
  (if CryptoAPICache.is_live endpoint
   then exists k, (0 <= k)%Z /\
          inject_Z (60 * k) <= now /\ now' < inject_Z (60 * (k + 1))
   else forall ttl,
          CryptoAPICache._get_ttl_for_endpoint endpoint = Ok ttl ->
          now' <= now + inject_Z ttl) ->
  exists c',
    CryptoAPICache.set json_value json_key sha256_hexdigest
      now endpoint (Some p1) value c = Ok c' /\
    fst (CryptoAPICache.get json_value json_key sha256_hexdigest
           now' endpoint (Some p2) c') = Some value.
Proof.
  intros Hinv Hnd Hperm Hmono Hwhen.
  destruct (ttl_policy endpoint) as (ttl & Httl & [Hlo Hhi] & _ & _ & _ & _).
  destruct Hinv as (Hmax & Hcnd & Hlen).
  unfold CryptoAPICache.set, CryptoAPICache.get. rewrite Httl.
  destruct (set_returns now
              (CryptoAPICache._generate_cache_key json_value json_key
                 sha256_hexdigest endpoint (Some p1) now)
              value (Some ttl) c Hmax) as [c' Hset]; [lia|].
  exists c'. split; [exact Hset|].
  assert (Hkey : CryptoAPICache._generate_cache_key json_value json_key
                   sha256_hexdigest endpoint (Some p2) now'
                 = CryptoAPICache._generate_cache_key json_value json_key
                     sha256_hexdigest endpoint (Some p1) now).
  { symmetry. apply same_cache_key; try assumption.
    intros Hlive. rewrite Hlive in Hwhen.
    destruct Hwhen as (k & Hk & H1 & H2). exists k.
    repeat split; try assumption; lra. }
  rewrite Hkey.
  apply (proj1 (proj2 (set_then_get now now' _ value (Some ttl) c c'
                         Hcnd Hset))).
  assert (Heff : TTLCache.effective_ttl (Some ttl) c = ttl).
  { unfold TTLCache.effective_ttl.
    destruct (Z.ltb_spec TTLCache.MAX_TTL ttl) as [Hbig|_]; [|reflexivity].
    unfold TTLCache.MAX_TTL in Hbig. lia. }
  rewrite Heff.
  destruct (CryptoAPICache.is_live endpoint).
  - destruct Hwhen as (k & Hk & H1 & H2).
    rewrite inject_Z_mult in H1, H2. rewrite inject_Z_plus in H2.
    change (inject_Z 60) with 60 in *. change (inject_Z 1) with 1 in *.
    assert (Hq : 120 <= inject_Z ttl).
    { change 120 with (inject_Z 120). rewrite <- Zle_Qle. exact Hlo. }
    lra.
  - apply Hwhen. exact Httl.
Qed.

Lemma api_cache_round_trip_witness :
  let json_value := CryptoAPICache.str_of_int in
  let json_key := fun k : string => "'" +:+ k +:+ "'" in
  let digest := fun s : string => s in
  let c : TTLCache.t Z := TTLCache.mk 10 300 [] 0 0 0 in
  exists c',
    CryptoAPICache.set json_value json_key digest
      65 "/simple/price" (Some [("ids", 1%Z); ("vs", 2%Z)]) 42%Z c = Ok c' /\
    fst (CryptoAPICache.get json_value json_key digest
           100 "/simple/price" (Some [("vs", 2%Z); ("ids", 1%Z)]) c')
    = Some 42%Z.
Proof.
  intros json_value json_key digest c.
  apply (api_cache_round_trip json_value json_key digest "/simple/price").
  - repeat split; [apply NoDup_nil_2 | vm_compute; discriminate].
  - refine (bool_decide_unpack _ _). vm_compute. reflexivity.
  - apply perm_swap.
  - vm_compute. discriminate.
  - simpl. exists 1%Z. repeat split; vm_compute; (discriminate || reflexivity).
Defined.

(** X16.  [invalidate] removes what [set] stored.  With the same endpoint
    and parameters (in any order), and for a live endpoint all three calls
    in the same minute since the epoch, a [get] after [set] and
    [invalidate] returns [None]. *)
Theorem api_cache_invalidate {Val V : Type} (json_value : Val -> string)
    (json_key sha256_hexdigest : string -> string) (endpoint : string)
    (p1 p2 : list (string * Val)) (value : V) (t1 t2 t3 : Q)
    (c : TTLCache.t V) :
  TTLCache.inv c ->
  NoDup (map fst p1) -> p1 ≡ₚ p2 ->
  (CryptoAPICache.is_live endpoint = true ->
   exists k, (0 <= k)%Z /\
     (inject_Z (60 * k) <= t1 /\ t1 < inject_Z (60 * (k + 1))) /\
     (inject_Z (60 * k) <= t2 /\ t2 < inject_Z (60 * (k + 1))) /\
     (inject_Z (60 * k) <= t3 /\ t3 < inject_Z (60 * (k + 1)))) ->
  exists c',
    CryptoAPICache.set json_value json_key sha256_hexdigest
      t1 endpoint (Some p1) value c = Ok c' /\
    fst (CryptoAPICache.get json_value json_key sha256_hexdigest
           t3 endpoint (Some p1)
           (CryptoAPICache.invalidate json_value json_key sha256_hexdigest
              t2 endpoint (Some p2) c')) = None.
Proof.
  intros Hinv Hnd Hperm Hwhen.
  destruct (ttl_policy endpoint) as (ttl & Httl & [Hlo Hhi] & _).
  pose proof Hinv as (Hmax & Hcnd & Hlen).
  unfold CryptoAPICache.set, CryptoAPICache.get, CryptoAPICache.invalidate.
  rewrite Httl.
  destruct (set_returns t1
              (CryptoAPICache._generate_cache_key json_value json_key
                 sha256_hexdigest endpoint (Some p1) t1)
              value (Some ttl) c Hmax) as [c' Hset]; [lia|].
  exists c'. split; [exact Hset|].
  pose proof (set_inv _ _ _ _ _ _ Hinv Hset) as (_ & Hnd' & _).
  assert (Hk2 : CryptoAPICache._generate_cache_key json_value json_key
                  sha256_hexdigest endpoint (Some p2) t2
                = CryptoAPICache._generate_cache_key json_value json_key
                    sha256_hexdigest endpoint (Some p1) t3).
  { symmetry. apply same_cache_key; try assumption.
    intros Hlive. destruct (Hwhen Hlive) as (k & Hk & _ & [A B] & [C D]).
    exists k. repeat split; assumption. }
  rewrite Hk2.
  destruct (delete_removes t3
              (CryptoAPICache._generate_cache_key json_value json_key
                 sha256_hexdigest endpoint (Some p1) t3) c' Hnd')
    as (_ & _ & _ & _ & _ & _ & _ & Hget).
  rewrite Hget. reflexivity.
Qed.

Lemma api_cache_invalidate_witness :
  let json_value := CryptoAPICache.str_of_int in
  let json_key := fun k : string => "'" +:+ k +:+ "'" in
  let digest := fun s : string => s in
  let c : TTLCache.t Z := TTLCache.mk 10 300 [] 0 0 0 in
  exists c',
    CryptoAPICache.set json_value json_key digest
      65 "/coins/list" (Some [("page", 1%Z)]) 42%Z c = Ok c' /\
    fst (CryptoAPICache.get json_value json_key digest
           900 "/coins/list" (Some [("page", 1%Z)])
           (CryptoAPICache.invalidate json_value json_key digest
              500 "/coins/list" (Some [("page", 1%Z)]) c')) = None.
Proof.
  intros json_value json_key digest c.
  apply (api_cache_invalidate json_value json_key digest "/coins/list").
  - repeat split; [apply NoDup_nil_2 | vm_compute; discriminate].
  - refine (bool_decide_unpack _ _). vm_compute. reflexivity.
  - reflexivity.
  - intros H. vm_compute in H. discriminate.
Defined.

(** ** api.py and validators.py: what the input checks let through *)

(** X17.  [_sanitize_endpoint] raises, and then [ValueError], exactly when
    the endpoint contains ".." or a backslash.  Otherwise it returns the
    endpoint, with a "/" put in front unless it starts with one: the result
    starts with "/", contains neither ".." nor a backslash, and is left
    unchanged by a second pass. *)
Theorem sanitize_endpoint_safe (endpoint : string) :
  (Api._sanitize_endpoint endpoint = Raise ValueError <->
   CryptoAPICache.contains ".." endpoint = true \/
   CryptoAPICache.contains "\" endpoint = true) /\
  (forall r,
     Api._sanitize_endpoint endpoint = Ok r ->
     (r = endpoint \/ r = "/" +:+ endpoint) /\
     String.prefix "/" r = true /\
     CryptoAPICache.contains ".." r = false /\
     CryptoAPICache.contains "\" r = false /\
     Api._sanitize_endpoint r = Ok r) /\
  (forall e, Api._sanitize_endpoint endpoint = Raise e -> e = ValueError).
Proof.
  unfold Api._sanitize_endpoint.
  destruct (CryptoAPICache.contains ".." endpoint) eqn:E1; simpl.
  { split; [|split]; [split; auto | discriminate | intros e [= <-]; auto]. }
  destruct (CryptoAPICache.contains "\" endpoint) eqn:E2; simpl.
  { split; [|split]; [split; auto | discriminate | intros e [= <-]; auto]. }
  destruct (String.prefix "/" endpoint) eqn:E3.
  - split; [|split].
    + split; [discriminate | intros [H|H]; discriminate].
    + intros r [= <-]. rewrite E1, E2, E3. simpl. auto.
    + discriminate.
  - split; [|split].
    + split; [discriminate | intros [H|H]; discriminate].
    + intros r [= <-].
      assert (H1 : CryptoAPICache.contains ".." ("/" +:+ endpoint) = false).
      { change ("/" +:+ endpoint) with (String "/" endpoint).
        cbn [CryptoAPICache.contains]. rewrite E1.
        destruct endpoint; reflexivity. }
      assert (H2 : CryptoAPICache.contains "\" ("/" +:+ endpoint) = false).
      { change ("/" +:+ endpoint) with (String "/" endpoint).
        cbn [CryptoAPICache.contains]. rewrite E2.
        destruct endpoint; reflexivity. }
      assert (H3 : String.prefix "/" ("/" +:+ endpoint) = true).
      { change ("/" +:+ endpoint) with (String "/" endpoint).
        destruct endpoint; reflexivity. }
      rewrite H1, H2, H3. simpl. auto.
    + discriminate.
Qed.

Lemma sanitize_endpoint_safe_witness :
  Api._sanitize_endpoint "/coins/../keys" = Raise ValueError /\
  String.prefix "/" "/coins/list" = true.
Proof.
  split.
  - apply (proj1 (sanitize_endpoint_safe "/coins/../keys")).
    left. reflexivity.
  - destruct (proj1 (proj2 (sanitize_endpoint_safe "coins/list"))
                "/coins/list" eq_refl) as (_ & H & _).
    exact H.
Defined.

Section RegexFacts.
Import Validators.

Lemma re_class_plus_cons (cls : Ascii.ascii -> bool) c c' rest' :
  re_class_plus cls (String c (String c' rest'))
  = cls c &&
    match rest' with
    | EmptyString =>
        Ascii.eqb c' "010"%char || re_class_plus cls (String c' rest')
    | String _ _ => re_class_plus cls (String c' rest')
    end.
Proof. reflexivity. Qed.

(** What the pattern accepts: a non-empty string of the class, with or
    without one newline after it. *)
Lemma re_class_plus_spec (cls : Ascii.ascii -> bool) (s : string) :
  re_class_plus cls s = true <->
  exists body,
    body <> EmptyString /\ all_chars cls body = true /\
    (s = body \/ s = body +:+ String "010"%char EmptyString).
Proof.
  split.
  - induction s as [|c rest IH]; [discriminate|].
    cbn [re_class_plus]. intros H.
    apply andb_true_iff in H as [Hc H].
    destruct rest as [|c' rest'].
    { exists (String c EmptyString). simpl. rewrite Hc.
      repeat split; [discriminate | auto]. }
    assert (Hrec : re_class_plus cls (String c' rest') = true ->
              exists body,
                body <> EmptyString /\ all_chars cls body = true /\
                (String c (String c' rest') = body \/
                 String c (String c' rest')
                 = body +:+ String "010"%char EmptyString)).
    { intros Hr. destruct (IH Hr) as (body & Hne & Hall & Hs).
      exists (String c body). simpl. rewrite Hc, Hall.
      repeat split; [discriminate|].
      destruct Hs as [->| ->]; [left | right]; reflexivity. }
    destruct rest' as [|c'' rest''].
    + apply orb_true_iff in H as [H|H]; [|exact (Hrec H)].
      apply Ascii.eqb_eq in H as ->.
      exists (String c EmptyString). simpl. rewrite Hc.
      repeat split; [discriminate | auto].
    + exact (Hrec H).
  - intros (body & Hne & Hall & Hs). revert s Hs.
    induction body as [|c b IH]; [congruence|]. intros s Hs.
    simpl in Hall. apply andb_true_iff in Hall as [Hc Hall].
    destruct b as [|c' b'].
    + destruct Hs as [->| ->]; simpl; rewrite Hc; reflexivity.
    + assert (Hb : String c' b' <> EmptyString) by discriminate.
      destruct Hs as [->| ->].
      * rewrite re_class_plus_cons, Hc, andb_true_l.
        rewrite (IH Hb Hall (String c' b') (or_introl eq_refl)).
        destruct b'; [apply orb_true_r | reflexivity].
      * change (String c (String c' b') +:+ String "010"%char EmptyString)
          with (String c (String c' (b' +:+ String "010"%char EmptyString))).
        rewrite re_class_plus_cons, Hc, andb_true_l.
        rewrite (IH Hb Hall
                   (String c' (b' +:+ String "010"%char EmptyString))
                   (or_intror eq_refl)).
        destruct (b' +:+ String "010"%char EmptyString);
          [apply orb_true_r | reflexivity].
Qed.

End RegexFacts.

Section CoinIdFacts.
Import Validators.

Lemma length_snoc_newline (b : string) :
  String.length (b +:+ String "010"%char EmptyString) = S (String.length b).
Proof. induction b as [|c b IH]; simpl; [reflexivity|]. rewrite <- IH. reflexivity. Qed.

Lemma prefix_cons (a c : Ascii.ascii) (s1 s2 : string) :
  String.prefix (String a s1) (String c s2)
  = if Ascii.ascii_dec a c then String.prefix s1 s2 else false.
Proof. reflexivity. Qed.

Lemma prefix_nil (s : string) : String.prefix EmptyString s = true.
Proof. destruct s; reflexivity. Qed.

Lemma prefix_hyphen_snoc (b : string) :
  b <> EmptyString ->
  String.prefix "-" (b +:+ String "010"%char EmptyString) = String.prefix "-" b.
Proof.
  destruct b as [|c b]; [congruence|]. intros _.
  change (String c b +:+ String "010"%char EmptyString)
    with (String c (b +:+ String "010"%char EmptyString)).
  rewrite !prefix_cons, !prefix_nil. reflexivity.
Qed.

Lemma prefix2_snoc (c : Ascii.ascii) (b : string) :
  String.prefix "--" (String c (b +:+ String "010"%char EmptyString))
  = String.prefix "--" (String c b).
Proof.
  rewrite !prefix_cons. destruct (Ascii.ascii_dec "-" c); [|reflexivity].
  destruct b as [|d b].
  - reflexivity.
  - change (String d b +:+ String "010"%char EmptyString)
      with (String d (b +:+ String "010"%char EmptyString)).
    rewrite !prefix_cons, !prefix_nil. reflexivity.
Qed.

Lemma contains_hyphens_snoc (b : string) :
  CryptoAPICache.contains "--" (b +:+ String "010"%char EmptyString)
  = CryptoAPICache.contains "--" b.
Proof.
  induction b as [|c b IH]; [reflexivity|].
  change (String c b +:+ String "010"%char EmptyString)
    with (String c (b +:+ String "010"%char EmptyString)).
  cbn [CryptoAPICache.contains]. rewrite prefix2_snoc, IH. reflexivity.
Qed.

Lemma ends_with_snoc_newline (b : string) :
  ends_with "-" (b +:+ String "010"%char EmptyString) = false.
Proof.
  induction b as [|c b IH]; [reflexivity|].
  change (String c b +:+ String "010"%char EmptyString)
    with (String c (b +:+ String "010"%char EmptyString)).
  cbn [ends_with].
  destruct (b +:+ String "010"%char EmptyString) eqn:E; [|exact IH].
  destruct b; discriminate.
Qed.

End CoinIdFacts.

(** X18.  What [validate_coin_id] accepts.  It returns its argument or
    raises [ValueError].  The accepted strings are those of at most 50
    characters made of one or more characters of [[a-z0-9-]], followed or
    not by one newline (the [$] of the pattern matches before a final
    newline), without "--", without a leading "-" and not ending in "-".
    So a newline after an identifier passes the check, and after it even a
    trailing hyphen does. *)
Theorem validate_coin_id_accepts (coin_id : string) :
  let newline := String "010"%char EmptyString in
  (Validators.validate_coin_id coin_id = Ok coin_id \/
   Validators.validate_coin_id coin_id = Raise ValueError) /\
  (Validators.validate_coin_id coin_id = Ok coin_id <->
   (String.length coin_id <= 50)%nat /\
   (exists body,
      body <> EmptyString /\
      Validators.all_chars Validators.coin_char body = true /\
      (coin_id = body \/ coin_id = body +:+ newline)) /\
   CryptoAPICache.contains "--" coin_id = false /\
   String.prefix "-" coin_id = false /\
   Validators.ends_with "-" coin_id = false) /\
  (forall body,
     coin_id = body +:+ newline ->
     body <> EmptyString ->
     Validators.all_chars Validators.coin_char body = true ->
     (String.length body < 50)%nat ->
     CryptoAPICache.contains "--" body = false ->
     String.prefix "-" body = false ->
     Validators.validate_coin_id coin_id = Ok coin_id).
Proof.
  intros newline.
  assert (Hiff :
    Validators.validate_coin_id coin_id = Ok coin_id <->
    (String.length coin_id <= 50)%nat /\
    (exists body,
       body <> EmptyString /\
       Validators.all_chars Validators.coin_char body = true /\
       (coin_id = body \/ coin_id = body +:+ newline)) /\
    CryptoAPICache.contains "--" coin_id = false /\
    String.prefix "-" coin_id = false /\
    Validators.ends_with "-" coin_id = false).
  { subst newline. rewrite <- re_class_plus_spec.
    unfold Validators.validate_coin_id.
    destruct (String.eqb_spec coin_id "") as [->|Hne].
    { split; [discriminate|]. intros (_ & H & _). discriminate. }
    destruct (Nat.ltb_spec 50 (String.length coin_id)) as [Hlong|Hlen].
    { split; [discriminate|]. intros (H & _). lia. }
    destruct (Validators.re_class_plus Validators.coin_char coin_id); simpl.
    2:{ split; [discriminate|]. intros (_ & H & _). discriminate. }
    destruct (CryptoAPICache.contains "--" coin_id); simpl.
    { split; [discriminate|]. intros (_ & _ & H & _). discriminate. }
    destruct (String.prefix "-" coin_id); simpl.
    { split; [discriminate|]. intros (_ & _ & _ & H & _). discriminate. }
    destruct (Validators.ends_with "-" coin_id); simpl.
    { split; [discriminate|]. intros (_ & _ & _ & _ & H). discriminate. }
    split; [|reflexivity]. intros _. repeat split. exact Hlen. }
  split; [|split; [exact Hiff|]].
  - unfold Validators.validate_coin_id.
    destruct (String.eqb coin_id ""); [right; reflexivity|].
    destruct (50 <? String.length coin_id)%nat; [right; reflexivity|].
    destruct (negb _); [right; reflexivity|].
    destruct (_ || _); [right | left]; reflexivity.
  - intros body -> Hne Hall Hlen Hhh Hpre. apply Hiff.
    split; [rewrite length_snoc_newline; lia|].
    split; [exists body; auto|].
    split; [rewrite contains_hyphens_snoc; exact Hhh|].
    split; [rewrite prefix_hyphen_snoc by exact Hne; exact Hpre|].
    apply ends_with_snoc_newline.
Qed.

(** "bitcoin" is accepted, and so are "bitcoin" and "bitcoin-" followed by
    a newline. *)
Lemma validate_coin_id_accepts_witness :
  let newline := String "010"%char EmptyString in
  Validators.validate_coin_id "bitcoin" = Ok "bitcoin" /\
  Validators.validate_coin_id ("bitcoin-" +:+ newline)
  = Ok ("bitcoin-" +:+ newline).
Proof.
  intros newline. split.
  - apply (proj1 (proj2 (validate_coin_id_accepts "bitcoin"))).
    split; [vm_compute; lia|].
    split; [exists "bitcoin"; repeat split; [discriminate | left; reflexivity]|].
    repeat split.
  - apply (proj2 (proj2 (validate_coin_id_accepts ("bitcoin-" +:+ newline)))
             "bitcoin-"); try reflexivity.
    + discriminate.
    + vm_compute. lia.
Defined.

(** X19.  What [validate_currency] accepts.  It returns its argument,
    exactly when this is at most 10 characters long and made of one or more
    lowercase letters followed or not by one newline, or raises
    [ValueError]. *)
Theorem validate_currency_accepts (currency : string) :
  let newline := String "010"%char EmptyString in
  (Validators.validate_currency currency = Ok currency \/
   Validators.validate_currency currency = Raise ValueError) /\
  (Validators.validate_currency currency = Ok currency <->
   (String.length currency <= 10)%nat /\
   exists body,
     body <> EmptyString /\
     Validators.all_chars Validators.is_lower body = true /\
     (currency = body \/ currency = body +:+ newline)).
Proof.
  intros newline. split.
  - unfold Validators.validate_currency.
    destruct (String.eqb currency ""); [right; reflexivity|].
    destruct (10 <? String.length currency)%nat; [right; reflexivity|].
    destruct (negb _); [right | left]; reflexivity.
  - subst newline. rewrite <- re_class_plus_spec.
    unfold Validators.validate_currency.
    destruct (String.eqb_spec currency "") as [->|Hne].
    { split; [discriminate|]. intros (_ & H). discriminate. }
    destruct (Nat.ltb_spec 10 (String.length currency)) as [Hlong|Hlen].
    { split; [discriminate|]. intros (H & _). lia. }
    destruct (Validators.re_class_plus Validators.is_lower currency); simpl.
    + split; [|reflexivity]. intros _. split; [exact Hlen | reflexivity].
    + split; [discriminate|]. intros (_ & H). discriminate.
Qed.

Lemma validate_currency_accepts_witness :
  Validators.validate_currency "usd" = Ok "usd".
Proof.
  apply (proj2 (validate_currency_accepts "usd")).
  split; [vm_compute; lia|].
  exists "usd". repeat split; [discriminate | left; reflexivity].
Defined.

(** ** The endpoints of a coin: sanitization and cache lifetime *)

Section EndpointFacts.
Import Validators.

(** A pattern without "/" starts a string cut at a "/" only if it starts
    the part before the cut. *)
Lemma prefix_before_slash (p a b : string) :
  all_chars (fun c => negb (Ascii.eqb c "/"%char)) p = true ->
  String.prefix p (a +:+ String "/" b) = String.prefix p a.
Proof.
  revert p. induction a as [|x a IH]; intros p Hp.
  - destruct p as [|c p]; [reflexivity|].
    cbn [all_chars] in Hp. apply andb_true_iff in Hp as [Hc _].
    change (EmptyString +:+ String "/" b) with (String "/"%char b).
    rewrite prefix_cons. destruct (Ascii.ascii_dec c "/") as [->|_]; [|reflexivity].
    discriminate.
  - destruct p as [|c p]; [reflexivity|].
    cbn [all_chars] in Hp. apply andb_true_iff in Hp as [_ Hp].
    change (String x a +:+ String "/" b) with (String x (a +:+ String "/" b)).
    rewrite !prefix_cons. destruct (Ascii.ascii_dec c x); [|reflexivity].
    apply IH, Hp.
Qed.

(** An occurrence of a pattern without "/" lies on one side of a "/". *)
Lemma contains_segments (p a b : string) :
  all_chars (fun c => negb (Ascii.eqb c "/"%char)) p = true ->
  CryptoAPICache.contains p (a +:+ String "/" b)
  = CryptoAPICache.contains p a || CryptoAPICache.contains p b.
Proof.
  intros Hp. induction a as [|x a IH].
  - change (EmptyString +:+ String "/" b) with (String "/"%char b).
    cbn [CryptoAPICache.contains].
    pose proof (prefix_before_slash p EmptyString b Hp) as E.
    change (EmptyString +:+ String "/" b) with (String "/"%char b) in E.
    rewrite E, orb_false_r. reflexivity.
  - change (String x a +:+ String "/" b) with (String x (a +:+ String "/" b)).
    cbn [CryptoAPICache.contains].
    pose proof (prefix_before_slash p (String x a) b Hp) as E.
    change (String x a +:+ String "/" b)
      with (String x (a +:+ String "/" b)) in E.
    rewrite E, IH, orb_assoc. reflexivity.
Qed.

Lemma contains_coin_path (p coin_id rest : string) :
  all_chars (fun c => negb (Ascii.eqb c "/"%char)) p = true ->
  CryptoAPICache.contains p ("/coins/" +:+ coin_id +:+ String "/" rest)
  = CryptoAPICache.contains p ""
    || (CryptoAPICache.contains p "coins"
        || (CryptoAPICache.contains p coin_id
            || CryptoAPICache.contains p rest)).
Proof.
  intros Hp.
  change ("/coins/" +:+ coin_id +:+ String "/" rest)
    with ("" +:+ String "/" ("coins" +:+ String "/"
                               (coin_id +:+ String "/" rest))).
  rewrite !(contains_segments p) by exact Hp. reflexivity.
Qed.

Lemma contains_coin_endpoint (p coin_id : string) :
  all_chars (fun c => negb (Ascii.eqb c "/"%char)) p = true ->
  CryptoAPICache.contains p (Tools.coin_endpoint coin_id)
  = CryptoAPICache.contains p ""
    || (CryptoAPICache.contains p "coins"
        || CryptoAPICache.contains p coin_id).
Proof.
  intros Hp. unfold Tools.coin_endpoint.
  change ("/coins/" +:+ coin_id)
    with ("" +:+ String "/" ("coins" +:+ String "/" coin_id)).
  rewrite !(contains_segments p) by exact Hp. reflexivity.
Qed.

(** The first character of a pattern that occurs in a string is a
    character of the string. *)
Lemma contains_first_char (cls : Ascii.ascii -> bool) c p s :
  all_chars cls s = true ->
  CryptoAPICache.contains (String c p) s = true -> cls c = true.
Proof.
  induction s as [|x s IH]; cbn [CryptoAPICache.contains all_chars].
  - intros _ H. discriminate.
  - intros Hs H. apply andb_true_iff in Hs as [Hx Hs].
    apply orb_true_iff in H as [H|H]; [|exact (IH Hs H)].
    rewrite prefix_cons in H. destruct (Ascii.ascii_dec c x) as [->|]; [exact Hx|].
    discriminate.
Qed.

Lemma all_chars_app (cls : Ascii.ascii -> bool) (a b : string) :
  all_chars cls (a +:+ b) = all_chars cls a && all_chars cls b.
Proof.
  induction a as [|x a IH]; [reflexivity|].
  change (String x a +:+ b) with (String x (a +:+ b)).
  cbn [all_chars]. rewrite IH, andb_assoc. reflexivity.
Qed.

Lemma all_chars_weaken (cls cls' : Ascii.ascii -> bool) (s : string) :
  (forall c, cls c = true -> cls' c = true) ->
  all_chars cls s = true -> all_chars cls' s = true.
Proof.
  intros Hsub. induction s as [|x s IH]; [reflexivity|].
  cbn [all_chars]. intros H. apply andb_true_iff in H as [Hx Hs].
  rewrite (Hsub _ Hx), (IH Hs). reflexivity.
Qed.

(** A string the pattern accepts holds only characters of the class and
    newlines. *)
Lemma re_class_plus_chars (cls : Ascii.ascii -> bool) (s : string) :
  re_class_plus cls s = true ->
  all_chars (fun c => cls c || Ascii.eqb c "010"%char) s = true.
Proof.
  intros H. apply re_class_plus_spec in H as (body & _ & Hall & [->| ->]).
  - apply (all_chars_weaken cls); [|exact Hall].
    intros c Hc. rewrite Hc. reflexivity.
  - rewrite all_chars_app. apply andb_true_iff. split.
    2:{ cbn [all_chars]. rewrite Ascii.eqb_refl, orb_true_r. reflexivity. }
    apply (all_chars_weaken cls); [|exact Hall].
    intros c Hc. rewrite Hc. reflexivity.
Qed.

Lemma validated_chars (coin_id : string) :
  validate_coin_id coin_id = Ok coin_id ->
  all_chars (fun c => coin_char c || Ascii.eqb c "010"%char) coin_id = true.
Proof.
  intros H. apply re_class_plus_chars. revert H. unfold validate_coin_id.
  destruct (String.eqb coin_id ""); [discriminate|].
  destruct (50 <? String.length coin_id)%nat; [discriminate|].
  destruct (re_class_plus coin_char coin_id); [reflexivity | discriminate].
Qed.

Lemma validated_no_traversal (coin_id : string) :
  validate_coin_id coin_id = Ok coin_id ->
  CryptoAPICache.contains ".." coin_id = false /\
  CryptoAPICache.contains "\" coin_id = false.
Proof.
  intros H. apply validated_chars in H. split.
  - destruct (CryptoAPICache.contains ".." coin_id) eqn:E; [|reflexivity].
    apply (contains_first_char _ _ _ _ H) in E. discriminate.
  - destruct (CryptoAPICache.contains "\" coin_id) eqn:E; [|reflexivity].
    apply (contains_first_char _ _ _ _ H) in E. discriminate.
Qed.

Lemma sanitize_coin_path (coin_id rest : string) :
  CryptoAPICache.contains ".." coin_id = false ->
  CryptoAPICache.contains "\" coin_id = false ->
  CryptoAPICache.contains ".." rest = false ->
  CryptoAPICache.contains "\" rest = false ->
  Api._sanitize_endpoint ("/coins/" +:+ coin_id +:+ String "/" rest)
  = Ok ("/coins/" +:+ coin_id +:+ String "/" rest).
Proof.
  intros H1 H2 H3 H4. unfold Api._sanitize_endpoint.
  rewrite !contains_coin_path by reflexivity.
  rewrite H1, H2, H3, H4. reflexivity.
Qed.

End EndpointFacts.

(** X20.  The endpoints the tools build from a validated coin id pass
    [_sanitize_endpoint] unchanged: a coin id that [validate_coin_id]
    accepts never makes [call_coingecko_api] fail on its path check. *)
Theorem coin_endpoints_sanitized (coin_id : string) :
  Validators.validate_coin_id coin_id = Ok coin_id ->
  Api._sanitize_endpoint (Tools.ohlc_endpoint coin_id)
  = Ok (Tools.ohlc_endpoint coin_id) /\
  Api._sanitize_endpoint (Tools.market_chart_endpoint coin_id)
  = Ok (Tools.market_chart_endpoint coin_id) /\
  Api._sanitize_endpoint (Tools.market_chart_range_endpoint coin_id)
  = Ok (Tools.market_chart_range_endpoint coin_id) /\
  Api._sanitize_endpoint (Tools.history_endpoint coin_id)
  = Ok (Tools.history_endpoint coin_id) /\
  Api._sanitize_endpoint (Tools.coin_endpoint coin_id)
  = Ok (Tools.coin_endpoint coin_id).
Proof.
  intros H. destruct (validated_no_traversal coin_id H) as [H1 H2].
  repeat split;
    try (apply (sanitize_coin_path coin_id); [exact H1 | exact H2 | reflexivity | reflexivity]).
  unfold Api._sanitize_endpoint.
  rewrite !contains_coin_endpoint by reflexivity.
  rewrite H1, H2. reflexivity.
Qed.

Lemma coin_endpoints_sanitized_witness :
  Api._sanitize_endpoint "/coins/bitcoin/ohlc" = Ok "/coins/bitcoin/ohlc".
Proof.
  exact (proj1 (coin_endpoints_sanitized "bitcoin" eq_refl)).
Defined.

(** X21.  The name of the coin decides how long its data is cached.  The
    TTL patterns are looked for in the whole endpoint, coin id included:
    the historical endpoints of a coin get the TTL of historical data
    (3600 seconds, 7200 for the snapshot of a date) only when the coin id
    contains neither "price" nor "markets"; with "price" in the id they
    get 120 seconds, with "markets" 180, and in both cases a cache key
    that changes every minute. *)
Theorem coin_name_decides_ttl (coin_id : string) :
  let named := fun p => CryptoAPICache.contains p coin_id in
  let historical := fun ttl : Z =>
    if named "price" then 120%Z
    else if named "markets" then 180%Z
    else ttl in
  CryptoAPICache._get_ttl_for_endpoint (Tools.ohlc_endpoint coin_id)
  = Ok (historical 3600%Z) /\
  CryptoAPICache._get_ttl_for_endpoint (Tools.market_chart_endpoint coin_id)
  = Ok (historical 3600%Z) /\
  CryptoAPICache._get_ttl_for_endpoint
    (Tools.market_chart_range_endpoint coin_id)
  = Ok (historical 3600%Z) /\
  CryptoAPICache._get_ttl_for_endpoint (Tools.history_endpoint coin_id)
  = Ok (historical
          (if named "ohlc" || named "market_chart" then 3600 else 7200)%Z) /\
  CryptoAPICache._get_ttl_for_endpoint (Tools.coin_endpoint coin_id)
  = Ok (historical
          (if named "ohlc" || named "market_chart" then 3600
           else if named "history" then 7200 else 600)%Z) /\
  Forall (fun endpoint =>
            CryptoAPICache.is_live endpoint
            = named "price" || named "markets")
    [Tools.ohlc_endpoint coin_id; Tools.market_chart_endpoint coin_id;
     Tools.market_chart_range_endpoint coin_id;
     Tools.history_endpoint coin_id; Tools.coin_endpoint coin_id].
Proof.
  intros named historical. subst historical named. cbv beta.
  assert (Hps : CryptoAPICache.contains "price" coin_id = false ->
                CryptoAPICache.contains "prices" coin_id = false).
  { intros Hp. destruct (CryptoAPICache.contains "prices" coin_id) eqn:E;
      [|reflexivity].
    rewrite <- Hp. symmetry.
    apply (contains_prefix "price" "prices"); [reflexivity | exact E]. }
  unfold CryptoAPICache._get_ttl_for_endpoint, CryptoAPICache.TTL_CONFIG,
    CryptoAPICache.is_live.
  unfold Tools.ohlc_endpoint, Tools.market_chart_endpoint,
    Tools.market_chart_range_endpoint, Tools.history_endpoint.
  cbn [CryptoAPICache.first_match].
  repeat rewrite Forall_cons. rewrite Forall_nil.
  rewrite !contains_coin_path by reflexivity.
  rewrite !contains_coin_endpoint by reflexivity.
  destruct (CryptoAPICache.contains "price" coin_id) eqn:Ep.
  { repeat split; reflexivity. }
  rewrite (Hps eq_refl).
  destruct (CryptoAPICache.contains "markets" coin_id).
  { repeat split; reflexivity. }
  destruct (CryptoAPICache.contains "ohlc" coin_id).
  { repeat split; reflexivity. }
  destruct (CryptoAPICache.contains "market_chart" coin_id).
  { repeat split; reflexivity. }
  destruct (CryptoAPICache.contains "history" coin_id);
    repeat split; reflexivity.
Qed.

(** The id "price-token" is accepted, and the candles of that coin are
    cached for two minutes. *)
Lemma coin_name_decides_ttl_witness :
  Validators.validate_coin_id "price-token" = Ok "price-token" /\
  CryptoAPICache._get_ttl_for_endpoint "/coins/price-token/ohlc" = Ok 120%Z.
Proof.
  split; [reflexivity|].
  exact (proj1 (coin_name_decides_ttl "price-token")).
Defined.

(** ** api.py: the size limit of a response *)

Section ReadFacts.
Import Api.

(** The chunk loop, from any content within the limit: it completes with
    everything, within the limit, or stops at the first chunk that takes
    the content over the limit. *)
Lemma read_chunks_spec (chunks : list (list Byte.byte)) :
  forall content : list Byte.byte,
    (Z.of_nat (length content) <= MAX_RESPONSE_SIZE)%Z ->
    match read_chunks content chunks with
    | Complete c =>
        c = content ++ concat chunks /\
        (Z.of_nat (length c) <= MAX_RESPONSE_SIZE)%Z
    | TooLarge c =>
        (MAX_RESPONSE_SIZE < Z.of_nat (length (content ++ concat chunks)))%Z /\
        exists before chunk after,
          chunks = before ++ chunk :: after /\
          c = content ++ concat before ++ chunk /\
          (Z.of_nat (length (content ++ concat before)) <= MAX_RESPONSE_SIZE)%Z /\
          (MAX_RESPONSE_SIZE < Z.of_nat (length c))%Z
    end.
Proof.
  induction chunks as [|chunk rest IH]; intros content Hc.
  - cbn [read_chunks concat]. rewrite app_nil_r. split; [reflexivity | exact Hc].
  - cbn [read_chunks].
    destruct (Z.ltb_spec MAX_RESPONSE_SIZE
                (Z.of_nat (length (content ++ chunk)))) as [Hbig|Hfit].
    + split.
      * cbn [concat]. rewrite !length_app in *. lia.
      * exists [], chunk, rest. cbn [concat]. rewrite app_nil_r.
        repeat split; [exact Hc | exact Hbig].
    + specialize (IH (content ++ chunk) Hfit).
      destruct (read_chunks (content ++ chunk) rest) as [c|c].
      * destruct IH as [-> Hle]. cbn [concat]. rewrite <- app_assoc.
        split; [reflexivity|]. rewrite <- app_assoc in Hle. exact Hle.
      * destruct IH as (Hover & before & ch & after & -> & -> & Hpre & Hlen).
        split.
        { cbn [concat]. rewrite <- app_assoc in Hover. exact Hover. }
        exists (chunk :: before), ch, after. cbn [concat].
        rewrite <- !app_assoc in *. repeat split; assumption.
Qed.

End ReadFacts.


